(** * nanoemoji: glyph assembly and shape reuse

    A shallow embedding of [src/nanoemoji/nanoemoji.py]: the glyph-set
    builder, the three color encoders (glyf, COLR, SVG) and the ligature rule
    generator, followed by the properties the specification states of them.

    Conventions.
    - Python numbers are exact: [int] and the coordinates of transforms are [Z].
    - Python objects that the code shares and mutates (the glyphs of a UFO
      font, the elements of an SVG group) live in a store and are named by
      their address; a dict that holds such an object holds its address.
    - A Python exception is a value of [exn]; code that can raise returns a
      [result]. *)

From Stdlib Require Import ZArith List String Ascii Lia.
From Stdlib Require Import Hexadecimal HexadecimalN HexadecimalString.
From stdpp Require Import base option gmap strings list pretty sorting.

Open Scope string_scope.
Open Scope list_scope.

Set Warnings "-clear-no-such-hyp".

(* ===================================================================== *)
(** * Exceptions *)
(* ===================================================================== *)

Inductive exn : Type :=
  | NotImplementedError (msg : string)
  | ValueError (msg : string)
  | KeyError (key : string)
  | AttributeError (msg : string)
  | StopIteration
  (** not a Python exception: the loop of [_next_name] did not end within
      the bound the model gives it (shown never to happen) *)
  | Diverges.

Inductive result (A : Type) : Type :=
  | Ok (x : A)
  | Raise (e : exn).
Arguments Ok {A} x.
Arguments Raise {A} e.

#[global] Instance result_ret : MRet result := fun A x => Ok x.
#[global] Instance result_bind : MBind result := fun A B f m =>
  match m with
  | Ok x => f x
  | Raise e => Raise e
  end.

#[global] Instance result_fmap : FMap result := fun A B f m =>
  match m with
  | Ok x => Ok (f x)
  | Raise e => Raise e
  end.

(** A [for] loop whose body can raise: the state is threaded left to right
    and the first exception ends the loop. *)
Fixpoint foldM {S A : Type} (body : S -> A -> result S) (s : S) (l : list A)
  : result S :=
  match l with
  | [] => Ok s
  | x :: l' => s' ← body s x; foldM body s' l'
  end.

Definition is_Ok {A : Type} (r : result A) : Prop :=
  match r with Ok _ => True | Raise _ => False end.

(* ===================================================================== *)
(** * Python orderings and [sorted] *)
(* ===================================================================== *)

(** Python's [<] on the values the code sorts: integers, strings (by code
    point), tuples (lexicographic, a proper prefix first). *)
Class PyCompare (A : Type) := py_compare : A -> A -> comparison.

#[global] Instance Z_py_compare : PyCompare Z := Z.compare.

#[global] Instance ascii_py_compare : PyCompare ascii :=
  fun x y => N.compare (N_of_ascii x) (N_of_ascii y).

Fixpoint list_compare {A : Type} (cmp : A -> A -> comparison)
  (l1 l2 : list A) : comparison :=
  match l1, l2 with
  | [], [] => Eq
  | [], _ :: _ => Lt
  | _ :: _, [] => Gt
  | x :: l1', y :: l2' =>
      match cmp x y with
      | Eq => list_compare cmp l1' l2'
      | c => c
      end
  end.

#[global] Instance list_py_compare {A} `{PyCompare A} : PyCompare (list A) :=
  list_compare py_compare.

#[global] Instance string_py_compare : PyCompare string :=
  fun s t => list_compare py_compare (list_ascii_of_string s) (list_ascii_of_string t).

#[global] Instance prod_py_compare {A B} `{PyCompare A, PyCompare B}
  : PyCompare (A * B) :=
  fun p q =>
    match py_compare (fst p) (fst q) with
    | Eq => py_compare (snd p) (snd q)
    | c => c
    end.

(** [x <= y] in Python. *)
Definition py_le {A} `{PyCompare A} : relation A :=
  fun x y => py_compare x y <> Gt.

#[global] Instance py_le_dec {A} `{PyCompare A} : RelDecision (py_le (A:=A)).
Proof.
  intros x y. unfold py_le.
  destruct (py_compare x y); [left | left | right]; congruence.
Defined.

(** [sorted(l)].  Python's sort is stable; on the orders above two elements
    that compare equal are equal, so any correct sort returns the same
    list. *)
Definition sorted {A} `{PyCompare A} (l : list A) : list A :=
  merge_sort py_le l.

(** The laws of a total order, for the orders that are sorted. *)
Class PyCompareLaws (A : Type) `{PyCompare A} : Prop := {
  py_compare_eq : forall x y : A, py_compare x y = Eq <-> x = y;
  py_compare_antisym : forall x y : A, py_compare y x = CompOpp (py_compare x y);
  py_compare_lt_trans : forall x y z : A,
    py_compare x y = Lt -> py_compare y z = Lt -> py_compare x z = Lt
}.

(** [l.index(x)]: the first position holding [x]. *)
Fixpoint py_index {A} `{EqDecision A} (l : list A) (x : A) : option nat :=
  match l with
  | [] => None
  | y :: l' => if decide (y = x) then Some 0 else S <$> py_index l' x
  end.

(** [sep.join(l)]. *)
Definition join (sep : string) (l : list string) : string :=
  String.concat sep l.

(** The line feed of ["\n".join(rules)]. *)
Definition newline : string := String "010"%char "".

(** [l[:-n]]: Python reads [-0] as [0], so [l[:-0]] is empty. *)
Definition slice_to_neg {A} (l : list A) (n : nat) : list A :=
  match n with
  | 0 => []
  | _ => take (length l - n) l
  end.

(* ===================================================================== *)
(** * Collaborators: transforms, colors, paints, layers *)
(* ===================================================================== *)

(** picosvg's [Affine2D]: the matrix [(a b c d e f)], [(e, f)] its
    translation. *)
Module Affine2D.

Local Open Scope Z_scope.

Record t : Type := mk { a : Z; b : Z; c : Z; d : Z; e : Z; f : Z }.

#[global] Instance eq_dec : EqDecision t.
Proof. solve_decision. Defined.

#[global] Instance countable : Countable t.
Proof.
  refine (inj_countable'
    (fun m => (a m, b m, c m, d m, e m, f m))
    (fun p => let '(a0, b0, c0, d0, e0, f0) := p in mk a0 b0 c0 d0 e0 f0) _).
  intros []; reflexivity.
Defined.

Definition identity : t := mk 1 0 0 1 0 0.

(** [first.product(second)]: apply [first], then [second]. *)
Definition product (first second : t) : t :=
  mk (a first * a second + b first * c second)
     (a first * b second + b first * d second)
     (c first * a second + d first * c second)
     (c first * b second + d first * d second)
     (a second * e first + c second * f first + e second)
     (b second * e first + d second * f first + f second).

(** [self.translate(tx, ty)]. *)
Definition translate (self : t) (tx ty : Z) : t :=
  if decide ((tx, ty) = (0, 0)) then self
  else product self (mk 1 0 0 1 tx ty).

(** [self.gettranslate()]. *)
Definition gettranslate (self : t) : Z * Z := (e self, f self).

(** [transform._replace(e=.., f=..)]. *)
Definition replace_ef (self : t) (e' f' : Z) : t :=
  mk (a self) (b self) (c self) (d self) e' f'.

(** The transform that only moves by [(tx, ty)]. *)
Definition translation (tx ty : Z) : t := mk 1 0 0 1 tx ty.

End Affine2D.

(** Modelled from the spec: [nanoemoji/colors.py] is not under src/.  A color
    is its red, green, blue and alpha channels; colors compare as tuples;
    [opaque] is the color with alpha at full opacity. *)
Record Color : Type := mkColor { red : Z; green : Z; blue : Z; alpha : Z }.

#[global] Instance Color_eq_dec : EqDecision Color.
Proof. solve_decision. Defined.

#[global] Instance Color_countable : Countable Color.
Proof.
  refine (inj_countable'
    (fun k => (red k, green k, blue k, alpha k))
    (fun p => let '(r, g, b, al) := p in mkColor r g b al) _).
  intros []; reflexivity.
Defined.

Definition Color_tuple (k : Color) : list Z := [red k; green k; blue k; alpha k].

#[global] Instance Color_py_compare : PyCompare Color :=
  fun k1 k2 => py_compare (Color_tuple k1) (Color_tuple k2).

Definition ALPHA_OPAQUE : Z := 255%Z.

Definition opaque (k : Color) : Color :=
  mkColor (red k) (green k) (blue k) ALPHA_OPAQUE.

(** Modelled from the spec: [nanoemoji/paint.py] is not under src/.  A paint
    is a color or a gradient descriptor; [colors] yields the colors the
    descriptor mentions, a gradient's stop by stop. *)
Record ColorStop : Type := mkColorStop { stopOffset : Z; stopColor : Color }.

Inductive Paint : Type :=
  | PaintSolid (color : Color)
  | PaintGradient (stops : list ColorStop).

Module Paint_.

Definition colors (paint : Paint) : list Color :=
  match paint with
  | PaintSolid color => [color]
  | PaintGradient stops => map stopColor stops
  end.

(** The version-1 paint structure: solid by palette index, or a gradient
    whose color line holds, stop by stop, the stop offset, the palette
    index of the stop's opaque color and the alpha carried beside it. *)
Record UfoColor : Type := mkUfoColor { paletteIndex : nat; ufoAlpha : Z }.

Record UfoColorStop : Type :=
  mkUfoColorStop { ufoOffset : Z; ufoStopColor : UfoColor }.

Inductive UfoPaint : Type :=
  | UfoSolid (color : UfoColor)
  | UfoGradient (colorLine : list UfoColorStop).

Definition ufo_color (palette : list Color) (k : Color) : result UfoColor :=
  match py_index palette (opaque k) with
  | Some i => Ok (mkUfoColor i (alpha k))
  | None => Raise (ValueError "color is not in list")
  end.

Fixpoint ufo_color_line (palette : list Color) (stops : list ColorStop)
  : result (list UfoColorStop) :=
  match stops with
  | [] => Ok []
  | s :: stops' =>
      k ← ufo_color palette (stopColor s);
      line ← ufo_color_line palette stops';
      Ok (mkUfoColorStop (stopOffset s) k :: line)
  end.

(** [paint.to_ufo_paint(palette)]. *)
Definition to_ufo_paint (paint : Paint) (palette : list Color)
  : result UfoPaint :=
  match paint with
  | PaintSolid color => k ← ufo_color palette color; Ok (UfoSolid k)
  | PaintGradient stops =>
      line ← ufo_color_line palette stops; Ok (UfoGradient line)
  end.

End Paint_.

(** picosvg's [SVGPath]: the outline description [d] and the other
    attributes of the shape (id, fill, ...), which the encoders only hand to
    [to_element]. *)
Record SVGPath : Type := mkSVGPath {
  d : string;
  shape_attrib : list (string * string)
}.

(** Modelled from the spec: [nanoemoji/color_glyph.py] is not under src/.
    A painted layer is a path, a paint and the transforms of the further
    placements of the same path in the same glyph. *)
Record PaintedLayer : Type := mkPaintedLayer {
  path : SVGPath;
  paint : Paint;
  reuses : list Affine2D.t
}.

(** lxml elements: a tag, the attribute dict, the children. *)
#[warnings="-register-all"]
Inductive Element : Type :=
  mkElement (tag : string) (attrib : gmap string string)
            (children : list Element).

Definition tag (el : Element) : string :=
  let 'mkElement t _ _ := el in t.
Definition attrib (el : Element) : gmap string string :=
  let 'mkElement _ a _ := el in a.
Definition children (el : Element) : list Element :=
  let 'mkElement _ _ c := el in c.
Definition set_attrib (el : Element) (k v : string) : Element :=
  mkElement (tag el) (<[k := v]> (attrib el)) (children el).
Definition del_attrib (el : Element) (k : string) : Element :=
  mkElement (tag el) (delete k (attrib el)) (children el).

(** Modelled from the spec: a [ColorGlyph] is a glyph name, a glyph id, the
    codepoints, the artwork and the transform to font space.  Of the artwork
    the encoders read the painted layers in z-order ([as_painted_layers]) and
    the gradient definitions ([picosvg.xpath("//svg:defs/*")]). *)
Record ColorGlyph : Type := mkColorGlyph {
  glyph_name_ : string;
  glyph_id : nat;
  codepoints : list Z;
  as_painted_layers : list PaintedLayer;
  picosvg_defs : list Element;
  transform_for_font_space : Affine2D.t
}.

(** [color_glyph._replace(glyph_id=gid)]. *)
Definition replace_glyph_id (g : ColorGlyph) (gid : nat) : ColorGlyph :=
  mkColorGlyph (glyph_name_ g) gid (codepoints g) (as_painted_layers g)
    (picosvg_defs g) (transform_for_font_space g).

(** Modelled from the spec: [ColorGlyph.colors], every color used by the
    glyph, that is the colors of the paints of its layers. *)
Definition ColorGlyph_colors (g : ColorGlyph) : gset Color :=
  list_to_set (concat (map (fun l => Paint_.colors (paint l))
                           (as_painted_layers g))).

(** The key under which a shape is reused; the paint is no part of it. *)
Definition ReuseKey : Type := string * list Affine2D.t.

Definition _inter_glyph_reuse_key (painted_layer : PaintedLayer) : ReuseKey :=
  (d (path painted_layer), reuses painted_layer).

(* ===================================================================== *)
(** * The UFO font (ufoLib2) *)
(* ===================================================================== *)

Record Component : Type := mkComponent {
  baseGlyph : string;
  transformation : Affine2D.t
}.

(** What the pens leave on a glyph: a path drawn through a transform
    ([_draw]), or the open two-point line of [_draw_glyph_extents]. *)
Inductive Contour : Type :=
  | DrawnPath (source : SVGPath) (svg_units_to_font_units : Affine2D.t)
  | OpenLine (p0 p1 : Z * Z).

Module Glyph.

Record t : Type := mk {
  name : string;
  width : Z;
  unicodes : list Z;
  components : list Component;
  contours : list Contour
}.

(** [Glyph(name)]. *)
Definition new (name : string) : t := mk name 0 [] [] [].

Definition set_name (n : string) (g : t) : t :=
  mk n (width g) (unicodes g) (components g) (contours g).
Definition set_width (w : Z) (g : t) : t :=
  mk (name g) w (unicodes g) (components g) (contours g).
Definition set_unicodes (u : list Z) (g : t) : t :=
  mk (name g) (width g) u (components g) (contours g).
(** [glyph.unicode = value]: [value] becomes the first of the unicodes. *)
Definition set_unicode (value : Z) (g : t) : t :=
  set_unicodes (value :: filter (fun u => u <> value) (unicodes g)) g.
(** [glyph.components.append(component)]. *)
Definition append_component (component : Component) (g : t) : t :=
  mk (name g) (width g) (unicodes g) (components g ++ [component]) (contours g).
(** A pen draws one more contour on the glyph. *)
Definition draw (contour : Contour) (g : t) : t :=
  mk (name g) (width g) (unicodes g) (components g) (contours g ++ [contour]).

End Glyph.

(** The color-layer entry of a glyph: the outline glyph's name and the paint,
    a palette index under version 0, a paint structure under version 1. *)
Inductive ColrPaint : Type :=
  | PaletteIndex (i : nat)
  | PaintStruct (p : Paint_.UfoPaint).

Module Font.

(** Glyph objects live in [objects], at their address; the default layer
    [glyphs] maps a name to the address of the glyph it names.  Two names can
    share one object. *)
Record t : Type := mk {
  familyName : string;
  unitsPerEm : Z;
  objects : list Glyph.t;
  glyphs : gmap string nat;
  glyphOrder : list string;
  keepGlyphNames : bool;
  colorPalettes : option (list (list Color));
  colorLayers : option (gmap string (list (string * ColrPaint)));
  features : string
}.

Definition set_objects (o : list Glyph.t) (ufo : t) : t :=
  mk (familyName ufo) (unitsPerEm ufo) o (glyphs ufo) (glyphOrder ufo)
     (keepGlyphNames ufo) (colorPalettes ufo) (colorLayers ufo) (features ufo).
Definition set_glyphs (m : gmap string nat) (ufo : t) : t :=
  mk (familyName ufo) (unitsPerEm ufo) (objects ufo) m (glyphOrder ufo)
     (keepGlyphNames ufo) (colorPalettes ufo) (colorLayers ufo) (features ufo).
Definition set_glyphOrder (order : list string) (ufo : t) : t :=
  mk (familyName ufo) (unitsPerEm ufo) (objects ufo) (glyphs ufo) order
     (keepGlyphNames ufo) (colorPalettes ufo) (colorLayers ufo) (features ufo).
Definition set_colorPalettes (p : list (list Color)) (ufo : t) : t :=
  mk (familyName ufo) (unitsPerEm ufo) (objects ufo) (glyphs ufo)
     (glyphOrder ufo) (keepGlyphNames ufo) (Some p) (colorLayers ufo)
     (features ufo).
Definition set_colorLayers (l : gmap string (list (string * ColrPaint)))
  (ufo : t) : t :=
  mk (familyName ufo) (unitsPerEm ufo) (objects ufo) (glyphs ufo)
     (glyphOrder ufo) (keepGlyphNames ufo) (colorPalettes ufo) (Some l)
     (features ufo).

(** [Font()], with the info fields [_ufo] sets. *)
Definition new (family : string) (upem : Z) (keep_glyph_names : bool) : t :=
  mk family upem [] ∅ [] keep_glyph_names None None "".

(** The glyph object at an address. *)
Definition deref (ufo : t) (addr : nat) : Glyph.t :=
  default (Glyph.new "") (objects ufo !! addr).

(** A method that mutates the glyph object at an address. *)
Definition update (addr : nat) (m : Glyph.t -> Glyph.t) (ufo : t) : t :=
  set_objects (alter m addr (objects ufo)) ufo.

(** [name in ufo]. *)
Definition contains (ufo : t) (name : string) : bool :=
  bool_decide (is_Some (glyphs ufo !! name)).

(** [ufo.get(name)]: the glyph, or [None]. *)
Definition get (ufo : t) (name : string) : option nat := glyphs ufo !! name.

(** [ufo[name]]. *)
Definition getitem (ufo : t) (name : string) : result nat :=
  match glyphs ufo !! name with
  | Some addr => Ok addr
  | None => Raise (KeyError name)
  end.

(** [ufo.newGlyph(name)]: a new blank glyph object, or [KeyError] when the
    name is taken. *)
Definition newGlyph (ufo : t) (name : string) : result (t * nat) :=
  if contains ufo name then Raise (KeyError name)
  else
    let addr := length (objects ufo) in
    Ok (set_glyphs (<[name := addr]> (glyphs ufo))
          (set_objects (objects ufo ++ [Glyph.new name]) ufo), addr).

(** [ufo[name] = glyph]: ufoLib2 renames the glyph object to [name] and
    binds the name to that same object. *)
Definition setitem (ufo : t) (name : string) (glyph : nat) : t :=
  set_glyphs (<[name := glyph]> (glyphs ufo))
    (update glyph (Glyph.set_name name) ufo).

End Font.

(** [_ufo]: the font with the missing glyph and a blank space of full
    width. *)
Definition _ufo (family : string) (upem : Z) (keep_glyph_names : bool)
  : result Font.t :=
  let ufo := Font.new family upem keep_glyph_names in
  '(ufo, _) ← Font.newGlyph ufo ".notdef";
  '(ufo, space) ← Font.newGlyph ufo ".space";
  let ufo := Font.update space (Glyph.set_unicodes [32%Z]) ufo in
  let ufo := Font.update space (Glyph.set_width upem) ufo in
  Ok (Font.set_glyphOrder [".notdef"; ".space"] ufo).

(** [_not_impl]: the bitmap formats. *)
Definition _not_impl {A : Type} (FLAGS_color_format : string) : result A :=
  Raise (NotImplementedError (FLAGS_color_format +:+ " not implemented")).

(** [_draw]: the path goes through the transform onto the glyph. *)
Definition _draw (source : SVGPath) (dest : nat)
  (svg_units_to_font_units : Affine2D.t) (ufo : Font.t) : Font.t :=
  Font.update dest (Glyph.draw (DrawnPath source svg_units_to_font_units)) ufo.

(** [_next_name]: the first [name_fn i], [i = 0, 1, ...], that names no
    glyph of the font.  The search looks at one more candidate than the font
    has glyphs. *)
Fixpoint _next_name_from (fuel : nat) (ufo : Font.t) (name_fn : nat -> string)
  (i : nat) : option string :=
  match fuel with
  | 0 => None
  | S fuel' =>
      if Font.contains ufo (name_fn i)
      then _next_name_from fuel' ufo name_fn (S i)
      else Some (name_fn i)
  end.

Definition _next_name (ufo : Font.t) (name_fn : nat -> string) : result string :=
  match _next_name_from (S (size (Font.glyphs ufo))) ufo name_fn 0 with
  | Some name => Ok name
  | None => Raise Diverges
  end.

(** The component the reuse [transform] becomes: its translation is scaled
    to font space, the rest is kept. *)
Definition reuse_component (base_glyph_name : string)
  (svg_units_to_font_units transform : Affine2D.t) : Component :=
  mkComponent base_glyph_name
    (Affine2D.replace_ef transform
       (Affine2D.e transform * Affine2D.a svg_units_to_font_units)
       (Affine2D.f transform * Affine2D.d svg_units_to_font_units)).

(** [_create_glyph]: a new outline glyph for the layer.  A layer with reuses
    becomes a composite of a second, base glyph that holds the path. *)
Definition _create_glyph (ufo : Font.t) (color_glyph : ColorGlyph)
  (painted_layer : PaintedLayer) : result (Font.t * nat) :=
  name ← _next_name ufo
    (fun i => glyph_name_ color_glyph +:+ "." +:+ pretty i);
  '(ufo, glyph) ← Font.newGlyph ufo name;
  let glyph_names := [name] in
  let ufo := Font.update glyph (Glyph.set_width (Font.unitsPerEm ufo)) ufo in
  let svg_units_to_font_units := transform_for_font_space color_glyph in
  '(ufo, glyph_names) ←
    match reuses painted_layer with
    | _ :: _ =>
        base_name ← _next_name ufo
          (fun i => name +:+ ".component." +:+ pretty i);
        '(ufo, base_glyph) ← Font.newGlyph ufo base_name;
        let glyph_names := (glyph_names ++ [base_name])%list in
        let ufo :=
          _draw (path painted_layer) base_glyph svg_units_to_font_units ufo in
        let ufo :=
          Font.update glyph
            (Glyph.append_component (mkComponent base_name Affine2D.identity))
            ufo in
        let ufo :=
          fold_left
            (fun ufo transform =>
               Font.update glyph
                 (Glyph.append_component
                    (reuse_component base_name svg_units_to_font_units
                       transform)) ufo)
            (reuses painted_layer) ufo in
        Ok (ufo, glyph_names)
    | [] =>
        Ok (_draw (path painted_layer) glyph svg_units_to_font_units ufo,
            glyph_names)
    end;
  Ok (Font.set_glyphOrder (Font.glyphOrder ufo ++ glyph_names)%list ufo, glyph).

(** [_draw_glyph_extents]. *)
Definition _draw_glyph_extents (ufo : Font.t) (glyph : nat) : Font.t :=
  Font.update glyph
    (Glyph.draw (OpenLine (0%Z, 0%Z) (Font.unitsPerEm ufo, Font.unitsPerEm ufo)))
    ufo.

(* ===================================================================== *)
(** * The glyf and COLR encoders *)
(* ===================================================================== *)

(** The dict [glyphs] of both encoders: the outline glyph object made for a
    reuse key. *)
Abbreviation GlyphsByKey := (gmap ReuseKey nat).

(** The lines both encoders run for a layer ("if we've seen this shape
    before reuse it"): the glyph registered under the layer's key, made by
    [_create_glyph] when the key is new. *)
Definition glyph_for_layer (ufo : Font.t) (glyphs : GlyphsByKey)
  (color_glyph : ColorGlyph) (painted_layer : PaintedLayer)
  : result (Font.t * GlyphsByKey * nat) :=
  let reuse_key := _inter_glyph_reuse_key painted_layer in
  match glyphs !! reuse_key with
  | None =>
      '(ufo, glyph) ← _create_glyph ufo color_glyph painted_layer;
      Ok (ufo, <[reuse_key := glyph]> glyphs, glyph)
  | Some glyph => Ok (ufo, glyphs, glyph)
  end.

(** The body of the inner loop of [_glyf_ufo].  [parent_glyph] is what
    [ufo.get] returned; appending to [None] raises. *)
Definition _glyf_ufo_layer (color_glyph : ColorGlyph)
  (parent_glyph : option nat) (st : Font.t * GlyphsByKey)
  (painted_layer : PaintedLayer) : result (Font.t * GlyphsByKey) :=
  let '(ufo, glyphs) := st in
  '(ufo, glyphs, glyph) ← glyph_for_layer ufo glyphs color_glyph painted_layer;
  match parent_glyph with
  | None => Raise (AttributeError "components")
  | Some parent =>
      let component :=
        mkComponent (Glyph.name (Font.deref ufo glyph)) Affine2D.identity in
      Ok (Font.update parent (Glyph.append_component component) ufo, glyphs)
  end.

(** The body of the outer loop of [_glyf_ufo]: the layers, then the collapse
    of a parent that has exactly one component. *)
Definition _glyf_ufo_glyph (st : Font.t * GlyphsByKey)
  (color_glyph : ColorGlyph) : result (Font.t * GlyphsByKey) :=
  let '(ufo, glyphs) := st in
  let parent_glyph := Font.get ufo (glyph_name_ color_glyph) in
  '(ufo, glyphs) ←
    foldM (_glyf_ufo_layer color_glyph parent_glyph) (ufo, glyphs)
      (as_painted_layers color_glyph);
  match parent_glyph with
  | None => Raise (AttributeError "components")
  | Some parent =>
      match Glyph.components (Font.deref ufo parent) with
      | [component] =>
          child ← Font.getitem ufo (baseGlyph component);
          Ok (Font.setitem ufo (glyph_name_ color_glyph) child, glyphs)
      | _ => Ok (ufo, glyphs)
      end
  end.

(** [_glyf_ufo], with the dict [glyphs] as it is when the loop ends. *)
Definition _glyf_ufo_run (ufo : Font.t) (color_glyphs : list ColorGlyph)
  : result (Font.t * GlyphsByKey) :=
  foldM _glyf_ufo_glyph (ufo, ∅) color_glyphs.

Definition _glyf_ufo (ufo : Font.t) (color_glyphs : list ColorGlyph)
  : result Font.t :=
  '(ufo, _) ← _glyf_ufo_run ufo color_glyphs; Ok ufo.

(** [_colr_paint]. *)
Definition _colr_paint (colr_version : Z) (paint : Paint)
  (palette : list Color) : result ColrPaint :=
  if decide (colr_version = 0%Z) then
    match Paint_.colors paint with
    | [] => Raise StopIteration
    | color :: _ =>
        match py_index palette color with
        | Some i => Ok (PaletteIndex i)
        | None => Raise (ValueError "color is not in list")
        end
    end
  else if decide (colr_version = 1%Z) then
    p ← Paint_.to_ufo_paint paint palette; Ok (PaintStruct p)
  else
    Raise (ValueError ("Unsupported COLR version: " +:+ pretty colr_version)).

(** The set the palette is sorted from: every color of every glyph, under
    version 0 as it is, else its opaque color. *)
Definition _colr_ufo_color_set (colr_version : Z)
  (color_glyphs : list ColorGlyph) : gset Color :=
  set_map (fun c => if decide (colr_version = 0%Z) then c else opaque c)
    (⋃ (ColorGlyph_colors <$> color_glyphs)).

(** [colors] of [_colr_ufo].  [elements] stands for the order in which
    Python iterates the set; [sorted] makes the palette independent of it. *)
Definition _colr_ufo_colors (colr_version : Z)
  (color_glyphs : list ColorGlyph) : list Color :=
  sorted (elements (_colr_ufo_color_set colr_version color_glyphs)).

(** Modelled from the spec: the palette entry of a color ([to_ufo_color] of
    [nanoemoji/colors.py]) is that color. *)
Definition to_ufo_color (c : Color) : Color := c.

Abbreviation ColorLayers := (gmap string (list (string * ColrPaint))).

(** The body of the inner loop of [_colr_ufo]. *)
Definition _colr_ufo_layer (colr_version : Z) (colors : list Color)
  (color_glyph : ColorGlyph)
  (st : Font.t * GlyphsByKey * list (string * ColrPaint))
  (painted_layer : PaintedLayer)
  : result (Font.t * GlyphsByKey * list (string * ColrPaint)) :=
  let '(ufo, glyphs, glyph_colr_layers) := st in
  '(ufo, glyphs, glyph) ← glyph_for_layer ufo glyphs color_glyph painted_layer;
  paint ← _colr_paint colr_version (paint painted_layer) colors;
  Ok (ufo, glyphs,
      (glyph_colr_layers ++ [(Glyph.name (Font.deref ufo glyph), paint)])%list).

(** The body of the outer loop of [_colr_ufo]. *)
Definition _colr_ufo_glyph (colr_version : Z) (colors : list Color)
  (st : Font.t * GlyphsByKey * ColorLayers) (color_glyph : ColorGlyph)
  : result (Font.t * GlyphsByKey * ColorLayers) :=
  let '(ufo, glyphs, color_layers) := st in
  '(ufo, glyphs, glyph_colr_layers) ←
    foldM (_colr_ufo_layer colr_version colors color_glyph) (ufo, glyphs, [])
      (as_painted_layers color_glyph);
  match Font.get ufo (glyph_name_ color_glyph) with
  | None => Raise (AttributeError "getPen")
  | Some colr_glyph =>
      let ufo := _draw_glyph_extents ufo colr_glyph in
      Ok (ufo, glyphs,
          <[Glyph.name (Font.deref ufo colr_glyph) := glyph_colr_layers]>
            color_layers)
  end.

(** [_colr_ufo] once the palette [colors] is known, with the dict [glyphs]
    as it is when the loop ends. *)
Definition _colr_ufo_with (colors : list Color) (colr_version : Z)
  (ufo : Font.t) (color_glyphs : list ColorGlyph)
  : result (Font.t * GlyphsByKey) :=
  let ufo := Font.set_colorPalettes [to_ufo_color <$> colors] ufo in
  '(ufo, glyphs, color_layers) ←
    foldM (_colr_ufo_glyph colr_version colors) (ufo, ∅, ∅) color_glyphs;
  Ok (Font.set_colorLayers color_layers ufo, glyphs).

Definition _colr_ufo_run (colr_version : Z) (ufo : Font.t)
  (color_glyphs : list ColorGlyph) : result (Font.t * GlyphsByKey) :=
  _colr_ufo_with (_colr_ufo_colors colr_version color_glyphs) colr_version
    ufo color_glyphs.

Definition _colr_ufo (colr_version : Z) (ufo : Font.t)
  (color_glyphs : list ColorGlyph) : result Font.t :=
  '(ufo, _) ← _colr_ufo_run colr_version ufo color_glyphs; Ok ufo.

(* ===================================================================== *)
(** * The SVG encoder *)
(* ===================================================================== *)

(** Modelled from the spec: [nanoemoji/disjoint_set.py] is not under src/.
    [members] lists the members in the order in which [make_set] met them,
    their original position; [sets] holds the disjoint sets.  [make_set]
    adds a singleton for a new member, [union] makes the sets of two members
    one, and [sorted] returns the sets, each sorted, ordered by the original
    position of their minimum member. *)
Module DisjointSet.

Record t : Type := mk { members : list string; sets : list (list string) }.

Definition new : t := mk [] [].

Definition member (e : string) (ds : t) : bool :=
  bool_decide (e ∈ members ds).

Definition make_set (e : string) (ds : t) : t :=
  if member e ds then ds else mk (members ds ++ [e]) (sets ds ++ [[e]]).

(** The set that holds [e]. *)
Definition find (e : string) (ds : t) : list string :=
  concat (filter (fun s => e ∈ s) (sets ds)).

Definition union (x y : string) (ds : t) : t :=
  if bool_decide (Exists (fun s => x ∈ s /\ y ∈ s) (sets ds)) then ds
  else if member x ds && member y ds then
    mk (members ds)
       (filter (fun s => ~ (x ∈ s \/ y ∈ s)) (sets ds)
        ++ [find x ds ++ find y ds])
  else ds.

(** The original position of a member. *)
Definition position (ds : t) (e : string) : Z :=
  match py_index (members ds) e with
  | Some i => Z.of_nat i
  | None => (-1)%Z
  end.

(** The sets, each sorted, in the order of the original position of their
    minimum member, the first of the sorted set. *)
Definition sorted (ds : t) : list (list string) :=
  snd <$> sorted ((fun s => (position ds (hd "" s), s))
                    <$> (sorted <$> sets ds)).

End DisjointSet.

(** The body of the inner loop of [_svg_glyph_groups]: the first glyph to
    present a key owns it, a later one joins the owner's group. *)
Definition _svg_glyph_groups_layer (color_glyph : ColorGlyph)
  (st : gmap ReuseKey string * DisjointSet.t) (painted_layer : PaintedLayer)
  : gmap ReuseKey string * DisjointSet.t :=
  let '(glyphs, reuse_groups) := st in
  let reuse_key := _inter_glyph_reuse_key painted_layer in
  match glyphs !! reuse_key with
  | None => (<[reuse_key := glyph_name_ color_glyph]> glyphs, reuse_groups)
  | Some owner =>
      (glyphs, DisjointSet.union (glyph_name_ color_glyph) owner reuse_groups)
  end.

Definition _svg_glyph_groups_glyph (st : gmap ReuseKey string * DisjointSet.t)
  (color_glyph : ColorGlyph) : gmap ReuseKey string * DisjointSet.t :=
  let '(glyphs, reuse_groups) := st in
  let reuse_groups :=
    DisjointSet.make_set (glyph_name_ color_glyph) reuse_groups in
  fold_left (_svg_glyph_groups_layer color_glyph)
    (as_painted_layers color_glyph) (glyphs, reuse_groups).

(** [_svg_glyph_groups]. *)
Definition _svg_glyph_groups (color_glyphs : list ColorGlyph)
  : list (list string) :=
  DisjointSet.sorted
    (snd (fold_left _svg_glyph_groups_glyph color_glyphs (∅, DisjointSet.new))).

(** The compiled font (fontTools' [TTFont]): the glyph order and the SVG
    table, a list of documents with the first and last glyph id of each. *)
Record SVGTable : Type := mkSVGTable {
  compressed : bool;
  docList : list (string * nat * nat)
}.

Record TTFont : Type := mkTTFont {
  getGlyphOrder : list string;
  svgTable : option SVGTable
}.

Definition setGlyphOrder (ttfont : TTFont) (order : list string) : TTFont :=
  mkTTFont order (svgTable ttfont).

Definition set_svgTable (ttfont : TTFont) (table : SVGTable) : TTFont :=
  mkTTFont (getGlyphOrder ttfont) (Some table).

(** [{c.glyph_name: c for c in color_glyphs}]: a later glyph of the same
    name replaces an earlier one. *)
Definition by_glyph_name (color_glyphs : list ColorGlyph)
  : gmap string ColorGlyph :=
  fold_left (fun m c => <[glyph_name_ c := c]> m) color_glyphs ∅.

(** The body of the inner loop of [_svg_update_glyph_order]. *)
Definition _svg_update_glyph_order_name
  (st : gmap string ColorGlyph * nat) (glyph_name : string)
  : result (gmap string ColorGlyph * nat) :=
  let '(color_glyphs, gid) := st in
  match color_glyphs !! glyph_name with
  | None => Raise (KeyError glyph_name)
  | Some c =>
      Ok (<[glyph_name := replace_glyph_id c gid]> color_glyphs, S gid)
  end.

Definition _svg_update_glyph_order_group
  (st : gmap string ColorGlyph * list string * nat) (group : list string)
  : result (gmap string ColorGlyph * list string * nat) :=
  let '(color_glyphs, glyph_order, gid) := st in
  '(color_glyphs, gid) ←
    foldM _svg_update_glyph_order_name (color_glyphs, gid) group;
  Ok (color_glyphs, (glyph_order ++ group)%list, gid).

(** [_svg_update_glyph_order]: returns the dict and the font it updates. *)
Definition _svg_update_glyph_order (color_glyphs : gmap string ColorGlyph)
  (ttfont : TTFont) (reuse_groups : list (list string))
  : result (gmap string ColorGlyph * TTFont) :=
  let glyph_order :=
    slice_to_neg (getGlyphOrder ttfont) (size color_glyphs) in
  let gid := length glyph_order in
  '(color_glyphs, glyph_order, _) ←
    foldM _svg_update_glyph_order_group (color_glyphs, glyph_order, gid)
      reuse_groups;
  Ok (color_glyphs, setGlyphOrder ttfont glyph_order).

(** The SVG document under construction: the children of its [defs] and
    its [g] elements, one per glyph. *)
Record SVG : Type := mkSVG {
  svg_defs : list Element;
  svg_groups : list Element
}.

(** The keys of [id_updates]: gradient ids ([str]) and serialized gradients
    ([bytes]); Python never takes one for the other. *)
Abbreviation IdUpdates := (gmap (string + string) string).

(** [regex.match(r"url\(#([^)]+)*\)", fill)]: no match, or group 1, which is
    [None] when nothing stands between [#] and [)]. *)
Fixpoint until_rparen (s : string) : option string :=
  match s with
  | EmptyString => None
  | String ch s' =>
      if decide (ch = ")"%char) then Some EmptyString
      else String ch <$> until_rparen s'
  end.

Definition match_fill_url (fill : string) : option (option string) :=
  if String.prefix "url(#" fill then
    match until_rparen (String.substring 5 (String.length fill - 5) fill) with
    | Some EmptyString => Some None
    | Some body => Some (Some body)
    | None => None
    end
  else None.

(** [min(gids)] and [max(gids)]. *)
Definition py_min (l : list nat) : result nat :=
  match l with
  | [] => Raise (ValueError "min() arg is an empty sequence")
  | x :: l' => Ok (fold_left Nat.min l' x)
  end.

Definition py_max (l : list nat) : result nat :=
  match l with
  | [] => Raise (ValueError "max() arg is an empty sequence")
  | x :: l' => Ok (fold_left Nat.max l' x)
  end.

Definition append_child (parent child : Element) : Element :=
  mkElement (tag parent) (attrib parent) (children parent ++ [child]).

Definition set_child (parent : Element) (i : nat) (child : Element) : Element :=
  mkElement (tag parent) (attrib parent) (<[i := child]> (children parent)).

Definition getattr (el : Element) (k : string) : result string :=
  match attrib el !! k with
  | Some v => Ok v
  | None => Raise (KeyError k)
  end.

(** [_ensure_has_id(el)] for the child [el] of [svg_g] at position [i]: the
    position is the number of siblings before it. *)
Definition _ensure_has_id (svg_g : Element) (i : nat) : result Element :=
  match children svg_g !! i with
  | None => Ok svg_g
  | Some el =>
      if bool_decide (is_Some (attrib el !! "id")) then Ok svg_g
      else
        parent_id ← getattr svg_g "id";
        Ok (set_child svg_g i
              (set_attrib el "id" (parent_id +:+ "::" +:+ pretty i)))
  end.

(** ["#" + el.attrib["id"]] for the child at position [i]. *)
Definition href_of (svg_g : Element) (i : nat) : result string :=
  match children svg_g !! i with
  | None => Raise (KeyError "id")
  | Some el => id ← getattr el "id"; Ok ("#" +:+ id)
  end.

Section Collaborators.

(** picosvg's [to_element] and [svg_meta.ntos], lxml's [etree.tostring],
    picosvg's [SVG.tostring], and [glyph_name] of [nanoemoji/glyph.py], which
    the spec only says derives the name from the codepoint. *)
Variable to_element : SVGPath -> Element.
Variable ntos : Z -> string.
Variable etree_tostring : Element -> string.
Variable svg_tostring : SVG -> string.
Variable glyph_name : Z -> string.

(** The body of the loop of [_add_unique_gradients]. *)
Definition _add_unique_gradients_step (color_glyph : ColorGlyph)
  (st : IdUpdates * list Element) (gradient : Element)
  : result (IdUpdates * list Element) :=
  let '(id_updates, svg_defs) := st in
  curr_id ← getattr gradient "id";
  let new_id := glyph_name_ color_glyph +:+ "::" +:+ curr_id in
  let gradient := del_attrib gradient "id" in
  let gradient_xml := etree_tostring gradient in
  match id_updates !! inr gradient_xml with
  | Some known => Ok (<[inl curr_id := known]> id_updates, svg_defs)
  | None =>
      let gradient := set_attrib gradient "id" new_id in
      let id_updates := <[inl curr_id := new_id]> id_updates in
      let id_updates := <[inr gradient_xml := new_id]> id_updates in
      Ok (id_updates, (svg_defs ++ [gradient])%list)
  end.

Definition _add_unique_gradients (id_updates : IdUpdates)
  (svg_defs : list Element) (color_glyph : ColorGlyph)
  : result (IdUpdates * list Element) :=
  foldM (_add_unique_gradients_step color_glyph) (id_updates, svg_defs)
    (picosvg_defs color_glyph).

(** The [use] element of a reuse: it points at the shape and carries the
    translation, a zero coordinate left out. *)
Definition svg_use (href : string) (tx ty : Z) : Element :=
  let svg_use := mkElement "use" {[ "href" := href ]} [] in
  let svg_use :=
    if decide (tx = 0%Z) then svg_use else set_attrib svg_use "x" (ntos tx) in
  if decide (ty = 0%Z) then svg_use else set_attrib svg_use "y" (ntos ty).

(** The body of the loop over [painted_layer.reuses]; [i] is the position of
    the shape [el] in [svg_g]. *)
Definition _add_glyph_to_svg_reuse (i : nat) (svg_g : Element)
  (reuse : Affine2D.t) : result Element :=
  svg_g ← _ensure_has_id svg_g i;
  href ← href_of svg_g i;
  let '(tx, ty) := Affine2D.gettranslate reuse in
  let svg_g := append_child svg_g (svg_use href tx ty) in
  let transform := Affine2D.translate reuse (- tx) (- ty) in
  if decide (transform = Affine2D.identity) then Ok svg_g
  else Raise (NotImplementedError "TODO apply scale & rotation to use").

(** The fill of a new shape, its gradient reference renamed by
    [id_updates]. *)
Definition update_fill (id_updates : IdUpdates) (el : Element) : Element :=
  match match_fill_url (default "" (attrib el !! "fill")) with
  | None => el
  | Some None => set_attrib el "fill" "url(#None)"
  | Some (Some id) =>
      set_attrib el "fill"
        ("url(#" +:+ default id (id_updates !! inl id) +:+ ")")
  end.

(** The body of the loop of [_add_glyph_to_svg]; the dict [glyphs] holds the
    position in [svg_g] of the element drawn for a key. *)
Definition _add_glyph_to_svg_layer (id_updates : IdUpdates)
  (st : Element * gmap ReuseKey nat) (painted_layer : PaintedLayer)
  : result (Element * gmap ReuseKey nat) :=
  let '(svg_g, glyphs) := st in
  let reuse_key := _inter_glyph_reuse_key painted_layer in
  match glyphs !! reuse_key with
  | None =>
      let el := update_fill id_updates (to_element (path painted_layer)) in
      let i := length (children svg_g) in
      let svg_g := append_child svg_g el in
      let glyphs := <[reuse_key := i]> glyphs in
      svg_g ← foldM (_add_glyph_to_svg_reuse i) svg_g (reuses painted_layer);
      Ok (svg_g, glyphs)
  | Some i =>
      svg_g ← _ensure_has_id svg_g i;
      href ← href_of svg_g i;
      Ok (append_child svg_g (mkElement "use" {[ "href" := href ]} []), glyphs)
  end.

(** The group [_add_glyph_to_svg] builds for a glyph. *)
Definition _add_glyph_to_svg_group (color_glyph : ColorGlyph)
  (id_updates : IdUpdates) : result Element :=
  let svg_g := mkElement "g" {[ "id" := glyph_name_ color_glyph ]} [] in
  fst <$> foldM (_add_glyph_to_svg_layer id_updates) (svg_g, ∅)
            (as_painted_layers color_glyph).

(** [_add_glyph_to_svg]: the glyph's group becomes the last child of the
    document. *)
Definition _add_glyph_to_svg (svg : SVG) (color_glyph : ColorGlyph)
  (id_updates : IdUpdates) : result SVG :=
  svg_g ← _add_glyph_to_svg_group color_glyph id_updates;
  Ok (mkSVG (svg_defs svg) (svg_groups svg ++ [svg_g])).

(** The body of the loop over the glyphs of a group in [_svg_ttfont]. *)
Definition _svg_ttfont_glyph (color_glyphs : gmap string ColorGlyph)
  (st : IdUpdates * SVG) (g : string) : result (IdUpdates * SVG) :=
  let '(id_updates, svg) := st in
  match color_glyphs !! g with
  | None => Raise (KeyError g)
  | Some color_glyph =>
      '(id_updates, defs) ←
        _add_unique_gradients id_updates (svg_defs svg) color_glyph;
      svg ← _add_glyph_to_svg (mkSVG defs (svg_groups svg)) color_glyph
              id_updates;
      Ok (id_updates, svg)
  end.

(** [color_glyphs[g].glyph_id for g in group]. *)
Fixpoint group_gids (color_glyphs : gmap string ColorGlyph)
  (group : list string) : result (list nat) :=
  match group with
  | [] => Ok []
  | g :: group' =>
      match color_glyphs !! g with
      | None => Raise (KeyError g)
      | Some c => gids ← group_gids color_glyphs group'; Ok (glyph_id c :: gids)
      end
  end.

(** The body of the loop over the groups in [_svg_ttfont]. *)
Definition _svg_ttfont_group (color_glyphs : gmap string ColorGlyph)
  (st : list (string * nat * nat) * IdUpdates) (group : list string)
  : result (list (string * nat * nat) * IdUpdates) :=
  let '(doc_list, id_updates) := st in
  let svg := mkSVG [] [] in
  '(id_updates, svg) ←
    foldM (_svg_ttfont_glyph color_glyphs) (id_updates, svg) group;
  gids ← group_gids color_glyphs group;
  lo ← py_min gids;
  hi ← py_max gids;
  Ok ((doc_list ++ [(svg_tostring svg, lo, hi)])%list, id_updates).

(** [_svg_ttfont]: returns the font it updates, and with it the dict of
    color glyphs that holds the new glyph ids. *)
Definition _svg_ttfont_run (color_glyphs : list ColorGlyph) (ttfont : TTFont)
  (zip : bool) : result (TTFont * gmap string ColorGlyph) :=
  let reuse_groups := _svg_glyph_groups color_glyphs in
  let color_glyphs := by_glyph_name color_glyphs in
  '(color_glyphs, ttfont) ←
    _svg_update_glyph_order color_glyphs ttfont reuse_groups;
  '(doc_list, _) ←
    foldM (_svg_ttfont_group color_glyphs) ([], ∅) reuse_groups;
  Ok (set_svgTable ttfont (mkSVGTable zip doc_list), color_glyphs).

Definition _svg_ttfont (color_glyphs : list ColorGlyph) (ttfont : TTFont)
  (zip : bool) : result TTFont :=
  fst <$> _svg_ttfont_run color_glyphs ttfont zip.

(* ===================================================================== *)
(** * Ligature rules and blank glyphs *)
(* ===================================================================== *)

(** The rule of one sequence: ["  sub %s by %s;"]. *)
Definition _generate_fea_rule (rgi : list Z) (target : string) : string :=
  let glyphs := glyph_name <$> rgi in
  "  sub " +:+ join " " glyphs +:+ " by " +:+ target +:+ ";".

(** The list [rules] of [_generate_fea] when the function joins it. *)
Definition _generate_fea_rules (rgi_sequences : list (list Z * string))
  : list string :=
  let rules := [] in
  let rules := rules ++ ["languagesystem DFLT dflt;"] in
  let rules := rules ++ ["languagesystem latn dflt;"] in
  let rules := rules ++ ["feature rlig {"] in
  let rules :=
    fold_left
      (fun rules '(rgi, target) =>
         if decide (length rgi = 1) then rules
         else rules ++ [_generate_fea_rule rgi target])
      (sorted rgi_sequences) rules in
  rules ++ ["} rlig;"].

(** The sequences of more than one codepoint, the ones the spec gives a
    rule. *)
Definition ligature_sequences (rgi_sequences : list (list Z * string))
  : list (list Z * string) :=
  filter (fun p => 1 < length (fst p)) rgi_sequences.

(** [_generate_fea]. *)
Definition _generate_fea (rgi_sequences : list (list Z * string)) : string :=
  join newline (_generate_fea_rules rgi_sequences).

(** The artwork of an input, which the glyph-set builder does not read. *)
Record InputGlyph : Type := mkInputGlyph {
  filename : string;
  input_codepoints : list Z;
  picosvg : list PaintedLayer * list Element
}.

(** The two sets of [_ensure_codepoints_will_have_glyphs]. *)
Definition codepoint_sets (glyph_inputs : list InputGlyph)
  : gset Z * gset Z :=
  fold_left
    (fun '(all_codepoints, direct_mapped_codepoints) input =>
       let codepoints := input_codepoints input in
       let direct_mapped_codepoints :=
         if decide (length codepoints = 1)
         then direct_mapped_codepoints ∪ list_to_set codepoints
         else direct_mapped_codepoints in
       (all_codepoints ∪ list_to_set codepoints, direct_mapped_codepoints))
    glyph_inputs (∅, ∅).

Definition need_blanks (glyph_inputs : list InputGlyph) : gset Z :=
  let '(all_codepoints, direct_mapped_codepoints) :=
    codepoint_sets glyph_inputs in
  all_codepoints ∖ direct_mapped_codepoints.

(** The body of the loop over [need_blanks]. *)
Definition _ensure_codepoints_blank (st : Font.t * list string)
  (codepoint : Z) : result (Font.t * list string) :=
  let '(ufo, glyph_names) := st in
  '(ufo, glyph) ← Font.newGlyph ufo (glyph_name codepoint);
  let ufo := Font.update glyph (Glyph.set_unicode codepoint) ufo in
  Ok (ufo, glyph_names ++ [Glyph.name (Font.deref ufo glyph)]).

(** [_ensure_codepoints_will_have_glyphs].  [elements] stands for the order
    in which Python iterates the set [need_blanks]. *)
Definition _ensure_codepoints_will_have_glyphs (ufo : Font.t)
  (glyph_inputs : list InputGlyph) : result Font.t :=
  '(ufo, glyph_names) ←
    foldM _ensure_codepoints_blank (ufo, [])
      (elements (need_blanks glyph_inputs));
  Ok (Font.set_glyphOrder (Font.glyphOrder ufo ++ sorted glyph_names) ufo).

(** The blank glyph names in the order the spec words: by codepoint. *)
Definition blanks_by_codepoint (glyph_inputs : list InputGlyph) : list string :=
  glyph_name <$> sorted (elements (need_blanks glyph_inputs)).

(* ===================================================================== *)
(** * The color formats *)
(* ===================================================================== *)

Record ColorGenerator : Type := mkColorGenerator {
  apply_ufo : Font.t -> list ColorGlyph -> result Font.t;
  apply_ttfont : Font.t -> list ColorGlyph -> TTFont -> result TTFont
}.

(** [FLAGS.color_format], which [_not_impl] puts in its message. *)
Variable FLAGS_color_format : string.

(** [_COLOR_FORMAT_GENERATORS]; a generator that does nothing returns what it
    was given. *)
Definition _COLOR_FORMAT_GENERATORS : gmap string ColorGenerator :=
  list_to_map [
    ("glyf", mkColorGenerator
       (fun ufo color_glyphs => _glyf_ufo ufo color_glyphs)
       (fun _ _ ttfont => Ok ttfont));
    ("colr_0", mkColorGenerator
       (fun ufo color_glyphs => _colr_ufo 0 ufo color_glyphs)
       (fun _ _ ttfont => Ok ttfont));
    ("colr_1", mkColorGenerator
       (fun ufo color_glyphs => _colr_ufo 1 ufo color_glyphs)
       (fun _ _ ttfont => Ok ttfont));
    ("svg", mkColorGenerator
       (fun ufo _ => Ok ufo)
       (fun _ color_glyphs ttfont => _svg_ttfont color_glyphs ttfont false));
    ("svgz", mkColorGenerator
       (fun ufo _ => Ok ufo)
       (fun _ color_glyphs ttfont => _svg_ttfont color_glyphs ttfont true));
    ("cbdt", mkColorGenerator
       (fun _ _ => _not_impl FLAGS_color_format)
       (fun _ _ _ => _not_impl FLAGS_color_format));
    ("sbix", mkColorGenerator
       (fun _ _ => _not_impl FLAGS_color_format)
       (fun _ _ _ => _not_impl FLAGS_color_format))
  ].

End Collaborators.

(** Modelled from the spec: [glyph_name] of [nanoemoji/glyph.py], which is
    not under src/.  The spec fixes only that the name derives from the
    codepoint; this is nanoemoji's naming, the prefix [emoji_] and the
    codepoint in lowercase hexadecimal, at least four digits. *)
Definition hex4 (n : N) : string :=
  let s := NilEmpty.string_of_uint (N.to_hex_uint n) in
  string_of_list_ascii (replicate (4 - String.length s) "0"%char) +:+ s.

Definition glyph_name_hex (codepoint : Z) : string :=
  "emoji_" +:+ hex4 (Z.to_N codepoint).

(** [ColorFontConfig]. *)
Record ColorFontConfig : Type := mkColorFontConfig {
  upem : Z;
  family : string;
  color_format : string;
  output_format : string;
  keep_glyph_names : bool
}.

(** [_make_ttfont].  [compileTTF] and [compileOTF] are ufo2ft's, [truthy] is
    the truth value Python gives a compiled font in [if not ttfont]; the
    other parameters are those of the table of generators.  The result is
    the font the generator of the format has fixed up, or [None]. *)
Definition _make_ttfont (to_element : SVGPath -> Element)
  (ntos : Z -> string) (etree_tostring : Element -> string)
  (svg_tostring : SVG -> string) (FLAGS_color_format : string)
  (compileTTF compileOTF : Font.t -> result TTFont) (truthy : TTFont -> bool)
  (config : ColorFontConfig) (ufo : Font.t) (color_glyphs : list ColorGlyph)
  : result (option TTFont) :=
  if decide (output_format config = ".ufo") then Ok None
  else
    let ttfont : option TTFont := None in
    ttfont ←
      (if decide (output_format config = ".ttf")
       then t ← compileTTF ufo; Ok (Some t) else Ok ttfont);
    ttfont ←
      (if decide (output_format config = ".otf")
       then t ← compileOTF ufo; Ok (Some t) else Ok ttfont);
    match ttfont with
    | Some t =>
        if truthy t then
          match _COLOR_FORMAT_GENERATORS to_element ntos etree_tostring
                  svg_tostring FLAGS_color_format !! color_format config with
          | Some generator =>
              t ← apply_ttfont generator ufo color_glyphs t; Ok (Some t)
          | None => Raise (KeyError (color_format config))
          end
        else
          Raise (ValueError ("Unable to generate " +:+ color_format config
                             +:+ " " +:+ output_format config))
    | None =>
        Raise (ValueError ("Unable to generate " +:+ color_format config
                           +:+ " " +:+ output_format config))
    end.

(* ===================================================================== *)
(** * The input files *)
(* ===================================================================== *)

(** The classes [[0-9a-fA-F]] and [[-_]] of the pattern of
    [_codepoints_from_filename]. *)
Definition is_hex_digit (ch : ascii) : bool :=
  let n := nat_of_ascii ch in
  (Nat.leb 48 n && Nat.leb n 57) || (Nat.leb 65 n && Nat.leb n 70)
  || (Nat.leb 97 n && Nat.leb n 102).

Definition is_separator (ch : ascii) : bool :=
  bool_decide (ch = "-"%char \/ ch = "_"%char).

Arguments is_hex_digit : simpl never.
Arguments is_separator : simpl never.

(** [int(s, 16)] for a string of hexadecimal digits. *)
Definition hex_digit_value (ch : ascii) : Z :=
  let n := Z.of_nat (nat_of_ascii ch) in
  if Z.leb n 57 then (n - 48)%Z
  else if Z.leb n 70 then (n - 55)%Z
  else (n - 87)%Z.

Definition int16 (s : list ascii) : Z :=
  fold_left (fun acc ch => (16 * acc + hex_digit_value ch)%Z) s 0%Z.

(** [[0-9a-fA-F]{1,}] is greedy: it takes the hexadecimal digits up to the
    first other character.  The digits and the rest. *)
Fixpoint hex_run (s : list ascii) : list ascii * list ascii :=
  match s with
  | ch :: s' =>
      if is_hex_digit ch
      then let '(run, rest) := hex_run s' in (ch :: run, rest)
      else ([], s)
  | [] => ([], [])
  end.

(** One round of [(?:[-_]?([0-9a-fA-F]{1,}))]: a separator if there is one,
    then at least one digit.  The capture and the rest. *)
Definition match_group (s : list ascii) : option (list ascii * list ascii) :=
  let body :=
    match s with
    | ch :: s' => if is_separator ch then s' else s
    | [] => s
    end in
  match hex_run body with
  | ([], _) => None
  | (run, rest) => Some (run, rest)
  end.

(** [(?:...)+], greedy: rounds as long as one matches; the captures of
    group 1 in order, none when the first round fails.  A round takes at
    least one character, so [fuel] rounds are enough for a string of [fuel]
    characters. *)
Fixpoint match_groups (fuel : nat) (s : list ascii) : list (list ascii) :=
  match fuel with
  | 0 => []
  | S fuel' =>
      match match_group s with
      | Some (run, rest) => run :: match_groups fuel' rest
      | None => []
      end
  end.

(** The pattern at one position: with [emoji_u] before the rounds where the
    string starts with it, and, when that does not match, without. *)
Definition match_here (at_start : bool) (s : list ascii)
  : list (list ascii) :=
  let emoji_u := list_ascii_of_string "emoji_u" in
  let prefixed :=
    if at_start && bool_decide (take 7 s = emoji_u)
    then match_groups (length s) (drop 7 s) else [] in
  match prefixed with
  | [] => match_groups (length s) s
  | _ :: _ => prefixed
  end.

(** [regex.search]: the match at the first position that has one. *)
Fixpoint search_from (at_start : bool) (s : list ascii)
  : option (list (list ascii)) :=
  match match_here at_start s with
  | [] =>
      match s with
      | [] => None
      | _ :: s' => search_from false s'
      end
  | captures => Some captures
  end.

(** [_codepoints_from_filename]. *)
Definition _codepoints_from_filename (filename : string) : option (list Z) :=
  match search_from true (list_ascii_of_string filename) with
  | Some captures => Some (int16 <$> captures)
  | None => None
  end.

(** [_inputs]; [basename] is [os.path.basename], and [_picosvg] gives the
    artwork of a file, or [None] when it cannot be read. *)
Definition _inputs (basename : string -> string)
  (_picosvg : string -> option (list PaintedLayer * list Element))
  (filenames : list string) : list InputGlyph :=
  omap (fun filename =>
          match _codepoints_from_filename (basename filename),
                _picosvg filename with
          | Some (cp :: cps), Some artwork =>
              Some (mkInputGlyph filename (cp :: cps) artwork)
          | _, _ => None
          end)
    filenames.

(* ===================================================================== *)
(** * Notions the properties use *)
(* ===================================================================== *)

(** Results that are no [ValueError]. *)
Definition no_ValueError {A} (r : result A) : Prop :=
  forall msg, r <> Raise (ValueError msg).

(** The name has a full stop in it, as every name [_create_glyph] makes. *)
Fixpoint has_dot (s : string) : bool :=
  match s with
  | EmptyString => false
  | String ch s' => if Ascii.eqb ch "."%char then true else has_dot s'
  end.

(** Every name of the font denotes a glyph object of the store. *)
Definition names_bound (ufo : Font.t) : Prop :=
  forall n a, Font.glyphs ufo !! n = Some a -> a < length (Font.objects ufo).

(** Every name of the font denotes a glyph object of that name, as in a font
    no glyph of which was rebound. *)
Definition well_named (ufo : Font.t) : Prop :=
  forall n a, Font.glyphs ufo !! n = Some a ->
    a < length (Font.objects ufo) /\ Glyph.name (Font.deref ufo a) = n.


(** The glyph registered under a key is a glyph object, and its name
    denotes it. *)
Definition registered (ufo : Font.t) (glyphs : GlyphsByKey) : Prop :=
  forall k a, glyphs !! k = Some a ->
    a < length (Font.objects ufo)
    /\ Font.glyphs ufo !! Glyph.name (Font.deref ufo a) = Some a.

(** The font [ufo'] has the glyph objects of [ufo] under their names, and
    further objects under new names, each with a full stop. *)
Definition grows (ufo ufo' : Font.t) : Prop :=
  length (Font.objects ufo) <= length (Font.objects ufo')
  /\ (forall a, a < length (Font.objects ufo) ->
        Glyph.name (Font.deref ufo' a) = Glyph.name (Font.deref ufo a))
  /\ (forall n a, Font.glyphs ufo !! n = Some a ->
        Font.glyphs ufo' !! n = Some a)
  /\ (forall n a, Font.glyphs ufo !! n = None ->
        Font.glyphs ufo' !! n = Some a ->
        has_dot n = true
        /\ length (Font.objects ufo) <= a < length (Font.objects ufo')
        /\ Glyph.name (Font.deref ufo' a) = n).

(** The two fonts agree on everything but their glyphs and glyph order. *)
Definition same_lib (ufo ufo' : Font.t) : Prop :=
  Font.familyName ufo' = Font.familyName ufo
  /\ Font.unitsPerEm ufo' = Font.unitsPerEm ufo
  /\ Font.keepGlyphNames ufo' = Font.keepGlyphNames ufo
  /\ Font.colorPalettes ufo' = Font.colorPalettes ufo
  /\ Font.colorLayers ufo' = Font.colorLayers ufo
  /\ Font.features ufo' = Font.features ufo.

(** What the glyf encoder is given by [_generate_color_font]: a font no
    glyph of which was rebound, and color glyphs of distinct names without a
    full stop, each with a glyph of its own in the font that has no
    component yet. *)
Definition glyf_ready (ufo : Font.t) (color_glyphs : list ColorGlyph) : Prop :=
  well_named ufo
  /\ NoDup (glyph_name_ <$> color_glyphs)
  /\ forall g, g ∈ color_glyphs ->
       has_dot (glyph_name_ g) = false
       /\ exists parent,
            Font.glyphs ufo !! glyph_name_ g = Some parent
            /\ Glyph.components (Font.deref ufo parent) = [].

(** The component that stands for a layer in the glyph object [parent]: the
    component at the layer's position names the glyph registered under the
    layer's key. *)
Definition layer_placed (ufo : Font.t) (glyphs : GlyphsByKey)
  (done : list string) (parent i : nat) (layer : PaintedLayer) : Prop :=
  exists glyph comp,
    glyphs !! _inter_glyph_reuse_key layer = Some glyph
    /\ Glyph.components (Font.deref ufo parent) !! i = Some comp
    /\ Font.glyphs ufo !! baseGlyph comp = Some glyph
    /\ (has_dot (baseGlyph comp) = true \/ baseGlyph comp ∈ done).

(** A color glyph the glyf encoder is done with.  [parent] is the glyph
    object the font [ufo0] had under the glyph's name when the encoder
    started. *)
Definition glyph_encoded (ufo0 ufo : Font.t) (glyphs : GlyphsByKey)
  (done : list string) (g : ColorGlyph) : Prop :=
  exists parent,
    Font.glyphs ufo0 !! glyph_name_ g = Some parent
    /\ length (Glyph.components (Font.deref ufo parent))
       = length (as_painted_layers g)
    /\ (forall i layer, as_painted_layers g !! i = Some layer ->
          layer_placed ufo glyphs done parent i layer)
    /\ (forall comp, Glyph.components (Font.deref ufo parent) = [comp] ->
          exists child,
            Font.glyphs ufo !! baseGlyph comp = Some child
            /\ Font.glyphs ufo !! glyph_name_ g = Some child)
    /\ (length (Glyph.components (Font.deref ufo parent)) <> 1 ->
          Font.glyphs ufo !! glyph_name_ g = Some parent).

(** The state of the glyf encoder between two color glyphs, [done] being
    the glyphs it has encoded. *)
Definition glyf_inv (ufo0 : Font.t) (done : list ColorGlyph) (ufo : Font.t)
  (glyphs : GlyphsByKey) : Prop :=
  names_bound ufo
  /\ length (Font.objects ufo0) <= length (Font.objects ufo)
  /\ (forall k a, glyphs !! k = Some a ->
        length (Font.objects ufo0) <= a < length (Font.objects ufo)
        /\ Font.glyphs ufo !! Glyph.name (Font.deref ufo a) = Some a
        /\ (has_dot (Glyph.name (Font.deref ufo a)) = true
            \/ Glyph.name (Font.deref ufo a) ∈ glyph_name_ <$> done))
  /\ (forall n, has_dot n = false -> n ∉ glyph_name_ <$> done ->
        Font.glyphs ufo !! n = Font.glyphs ufo0 !! n)
  /\ (forall a, a < length (Font.objects ufo0) ->
        (forall g, g ∈ done -> Font.glyphs ufo0 !! glyph_name_ g <> Some a) ->
        Font.deref ufo a = Font.deref ufo0 a)
  /\ (forall g, g ∈ done ->
        glyph_encoded ufo0 ufo glyphs (glyph_name_ <$> done) g).

(** The glyph object that stands for layer [i] of the color glyph [g] in
    the font [ufo'] the glyf encoder made of [ufo]: the one the component at
    position [i] of the glyph's parent names. *)
Definition glyf_layer_glyph (ufo ufo' : Font.t) (g : ColorGlyph) (i glyph : nat)
  : Prop :=
  exists parent comp,
    Font.glyphs ufo !! glyph_name_ g = Some parent
    /\ Glyph.components (Font.deref ufo' parent) !! i = Some comp
    /\ Font.glyphs ufo' !! baseGlyph comp = Some glyph.

(** The glyph object that stands for layer [i] of the color glyph [g] in
    the font [ufo'] the COLR encoder made: the one the entry at position [i]
    of the glyph's color layers names. *)
Definition colr_layer_glyph (ufo' : Font.t) (g : ColorGlyph) (i glyph : nat)
  : Prop :=
  exists color_layers entries name p,
    Font.colorLayers ufo' = Some color_layers
    /\ color_layers !! glyph_name_ g = Some entries
    /\ entries !! i = Some (name, p)
    /\ Font.glyphs ufo' !! name = Some glyph.

(** [well_named] and [glyf_ready], computed. *)
Definition well_namedb (ufo : Font.t) : bool :=
  forallb
    (fun na : string * nat =>
       bool_decide (snd na < length (Font.objects ufo))
       && bool_decide (Glyph.name (Font.deref ufo (snd na)) = fst na))
    (map_to_list (Font.glyphs ufo)).

Definition glyf_readyb (ufo : Font.t) (color_glyphs : list ColorGlyph) : bool :=
  well_namedb ufo
  && bool_decide (NoDup (glyph_name_ <$> color_glyphs))
  && forallb
       (fun g =>
          negb (has_dot (glyph_name_ g))
          && match Font.glyphs ufo !! glyph_name_ g with
             | Some parent =>
                 match Glyph.components (Font.deref ufo parent) with
                 | [] => true
                 | _ :: _ => false
                 end
             | None => false
             end)
       color_glyphs.

(** The transform only moves: its matrix is the identity but for the
    translation. *)
Definition pure_translation (t : Affine2D.t) : Prop :=
  t = Affine2D.translation (Affine2D.e t) (Affine2D.f t).


(** [svg_g'] is a later state of the group [svg_g] in which only the child
    at position [i] may have been given an id: the attributes of the group
    stay, no child is removed, and a child is changed only by
    [_ensure_has_id]. *)
Definition later_group (i : nat) (svg_g svg_g' : Element) : Prop :=
  attrib svg_g' = attrib svg_g
  /\ length (children svg_g) <= length (children svg_g')
  /\ forall j el, children svg_g !! j = Some el ->
       exists el', children svg_g' !! j = Some el'
         /\ (el' = el
             \/ j = i /\ attrib el !! "id" = None
                /\ exists id, el' = set_attrib el "id" id).

(** The element [el] is the shape [shape] as it was appended, or with the id
    [_ensure_has_id] gave it. *)
Definition drawn_for (shape el : Element) : Prop :=
  el = shape
  \/ attrib shape !! "id" = None /\ exists id, el = set_attrib shape "id" id.

(** The key under which [_add_unique_gradients] records a gradient: its
    serialization without the id. *)
Definition gradient_xml (etree_tostring : Element -> string)
  (gradient : Element) : string + string :=
  inr (etree_tostring (del_attrib gradient "id")).

(** The gradient as [_add_unique_gradients] appends it for the glyph named
    [name]: under the id made of the name of the glyph and its own id. *)
Definition renamed_gradient (name : string) (gradient : Element)
  (curr_id : string) : Element :=
  set_attrib (del_attrib gradient "id") "id" (name +:+ "::" +:+ curr_id).

(** What the SVG encoder asks of a glyph: every gradient has an id and
    every reuse only moves. *)
Definition svg_encodable (color_glyph : ColorGlyph) : Prop :=
  Forall (fun g => is_Some (attrib g !! "id")) (picosvg_defs color_glyph)
  /\ Forall (fun l => Forall pure_translation (reuses l))
       (as_painted_layers color_glyph).

(** A word of hexadecimal digits. *)
Definition hex_word (h : list ascii) : Prop :=
  h <> [] /\ Forall (fun ch => is_hex_digit ch = true) h.

(** A file name written by the convention: the digits [h0] of the first
    codepoint, then the digits of each further codepoint after its
    separator, then [ext]. *)
Definition hex_groups (groups : list (ascii * list ascii)) : list ascii :=
  concat ((fun g => fst g :: snd g) <$> groups).

Definition codepoint_name (h0 : list ascii)
  (groups : list (ascii * list ascii)) (ext : list ascii) : list ascii :=
  h0 ++ hex_groups groups ++ ext.

(** The glyph order of the font lists no name twice and only names of
    glyphs of the font. *)
Definition order_ok (ufo : Font.t) : Prop :=
  NoDup (Font.glyphOrder ufo)
  /\ forall n, n ∈ Font.glyphOrder ufo -> is_Some (Font.glyphs ufo !! n).

(** The font [ufo'] lists the names of [ufo] first, in their order, and
    still has a glyph under every name [ufo] has one under. *)
Definition order_extends (ufo ufo' : Font.t) : Prop :=
  (exists names, Font.glyphOrder ufo' = Font.glyphOrder ufo ++ names)
  /\ forall n, is_Some (Font.glyphs ufo !! n) ->
       is_Some (Font.glyphs ufo' !! n).

(** The error of a reuse that does more than move. *)
Definition refused_reuse : exn :=
  NotImplementedError "TODO apply scale & rotation to use".

(** The shape [_add_glyph_to_svg] appends for a layer. *)
Definition shape_of (to_element : SVGPath -> Element) (id_updates : IdUpdates)
  (painted_layer : PaintedLayer) : Element :=
  update_fill id_updates (to_element (path painted_layer)).

(** The reuse [reuse] of the shape at position [i] of the group is written
    down: the shape has an id, and a later child, at a position the dict
    [glyphs] does not hold, is the [use] that points at that id and carries
    the translation of [reuse]. *)
Definition reuse_written (ntos : Z -> string) (svg_g : Element)
  (glyphs : gmap ReuseKey nat) (i : nat) (reuse : Affine2D.t) : Prop :=
  exists el id j,
    children svg_g !! i = Some el
    /\ attrib el !! "id" = Some id
    /\ i < j
    /\ (forall k' i', glyphs !! k' = Some i' -> i' <> j)
    /\ children svg_g !! j
       = Some (svg_use ntos ("#" +:+ id) (Affine2D.e reuse) (Affine2D.f reuse)).

(** The group under construction in [_add_glyph_to_svg], [layers] being the
    layers of the glyph: the group has an id; the dict [glyphs] holds
    positions of children, each the shape of a layer with the key; and every
    reuse of every key of the dict only moves and is written down. *)
Definition svg_g_inv (to_element : SVGPath -> Element) (ntos : Z -> string)
  (id_updates : IdUpdates) (layers : list PaintedLayer) (svg_g : Element)
  (glyphs : gmap ReuseKey nat) : Prop :=
  is_Some (attrib svg_g !! "id")
  /\ (forall k i, glyphs !! k = Some i ->
        exists l el,
          l ∈ layers /\ _inter_glyph_reuse_key l = k
          /\ children svg_g !! i = Some el
          /\ drawn_for (shape_of to_element id_updates l) el)
  /\ (forall k i reuse, glyphs !! k = Some i -> reuse ∈ snd k ->
        pure_translation reuse /\ reuse_written ntos svg_g glyphs i reuse).

(* ===================================================================== *)
(** * Sample inputs *)
(* ===================================================================== *)

(** The font [_ufo] makes with the default flags. *)
Definition sample_ufo : Font.t :=
  match _ufo "An Emoji Family" 1024 false with
  | Ok ufo => ufo
  | Raise _ => Font.new "An Emoji Family" 1024 false
  end.

(** The batch of the spec: a face, and the face in a sequence with a zero
    width joiner. *)
Definition sample_inputs : list InputGlyph :=
  [mkInputGlyph "emoji_u1f600.svg" [128512%Z] ([], []);
   mkInputGlyph "emoji_u1f600_200d_1f648.svg" [128512%Z; 8205%Z; 128584%Z]
     ([], [])].

(** A batch of one sequence: man, zero width joiner, computer. *)
Definition sample_sequence : list InputGlyph :=
  [mkInputGlyph "emoji_u1f468_200d_1f4bb.svg" [128104%Z; 8205%Z; 128187%Z]
     ([], [])].

(** Three color glyphs.  The first is a face; the second paints the shape of
    the face in another color under an eye that is placed twice; the third
    is the eye over the face. *)
Definition sample_transform : Affine2D.t :=
  Affine2D.mk 8 0 0 (-8) 0 1024.

Definition sample_face : PaintedLayer :=
  mkPaintedLayer (mkSVGPath "M0,0 L8,0 L8,8 Z" [])
    (PaintSolid (mkColor 255 204 0 255)) [].

Definition sample_face_red : PaintedLayer :=
  mkPaintedLayer (mkSVGPath "M0,0 L8,0 L8,8 Z" [])
    (PaintSolid (mkColor 255 0 0 128)) [].

Definition sample_eye : PaintedLayer :=
  mkPaintedLayer (mkSVGPath "M2,2 L3,2 L3,3 Z" [("fill", "url(#g1)")])
    (PaintGradient [mkColorStop 0 (mkColor 0 0 0 128);
                    mkColorStop 1 (mkColor 255 255 255 255)])
    [Affine2D.translation 3 0].

Definition sample_gradient : Element :=
  mkElement "linearGradient" {[ "id" := "g1" ]} [].

Definition sample_1f600 : ColorGlyph :=
  mkColorGlyph "emoji_1f600" 2 [128512%Z] [sample_face] [] sample_transform.

Definition sample_1f601 : ColorGlyph :=
  mkColorGlyph "emoji_1f601" 3 [128513%Z] [sample_face_red; sample_eye]
    [sample_gradient] sample_transform.

Definition sample_1f602 : ColorGlyph :=
  mkColorGlyph "emoji_1f602" 4 [128514%Z] [sample_eye; sample_face]
    [sample_gradient] sample_transform.

Definition sample_glyphs : list ColorGlyph :=
  [sample_1f600; sample_1f601; sample_1f602].

(** The font [_generate_color_font] hands to an encoder: a glyph for each
    color glyph, after the glyphs of [_ufo]. *)
Definition with_glyphs (ufo : Font.t) (names : list string) : Font.t :=
  fold_left
    (fun ufo name =>
       match Font.newGlyph ufo name with
       | Ok (ufo, _) =>
           Font.set_glyphOrder (Font.glyphOrder ufo ++ [name]) ufo
       | Raise _ => ufo
       end)
    names ufo.

Definition sample_font : Font.t :=
  with_glyphs sample_ufo (glyph_name_ <$> sample_glyphs).

(** A stand-in for picosvg's [to_element]: a [path] element with the
    outline and the other attributes of the shape. *)
Definition sample_to_element (p : SVGPath) : Element :=
  mkElement "path" (<["d" := d p]> (list_to_map (shape_attrib p))) [].


(** The compiled font of the sample glyphs, before it has an SVG table. *)
Definition sample_ttfont : TTFont :=
  mkTTFont [".notdef"; ".space"; "emoji_1f600"; "emoji_1f601"; "emoji_1f602"]
    None.

(* ===================================================================== *)
(** * Properties: orderings and [sorted] *)
(* ===================================================================== *)

Section compare_laws.
Context {A : Type} `{PyCompareLaws A}.

Lemma py_compare_refl (x : A) : py_compare x x = Eq.
Proof. by apply py_compare_eq. Qed.

Lemma py_compare_gt_lt (x y : A) : py_compare x y = Gt <-> py_compare y x = Lt.
Proof.
  rewrite (py_compare_antisym x y).
  destruct (py_compare x y); simpl; split; congruence.
Qed.

Lemma py_compare_trans (c : comparison) (x y z : A) :
  py_compare x y = c -> py_compare y z = c -> py_compare x z = c.
Proof.
  destruct c; intros Hxy Hyz.
  - apply py_compare_eq in Hxy, Hyz. subst. apply py_compare_refl.
  - eauto using py_compare_lt_trans.
  - apply py_compare_gt_lt in Hxy, Hyz. apply py_compare_gt_lt.
    eauto using py_compare_lt_trans.
Qed.

#[global] Instance py_le_total : Total (py_le (A:=A)).
Proof.
  intros x y. unfold py_le. rewrite (py_compare_antisym x y).
  destruct (py_compare x y); simpl; [left | left | right]; congruence.
Qed.

#[global] Instance py_le_trans : Transitive (py_le (A:=A)).
Proof.
  intros x y z. unfold py_le. intros Hxy Hyz Hxz.
  apply py_compare_gt_lt in Hxz.
  destruct (py_compare x y) eqn:E1; [| |done].
  - apply py_compare_eq in E1. subst. apply py_compare_gt_lt in Hxz. done.
  - destruct (py_compare y z) eqn:E2; [| |done].
    + apply py_compare_eq in E2. subst. apply py_compare_gt_lt in Hxz. congruence.
    + pose proof (py_compare_lt_trans _ _ _ E1 E2) as E3.
      apply py_compare_gt_lt in Hxz. congruence.
Qed.

#[global] Instance py_le_antisym : AntiSymm (=) (py_le (A:=A)).
Proof.
  intros x y. unfold py_le. intros Hxy Hyx.
  destruct (py_compare x y) eqn:E; [by apply py_compare_eq | | done].
  apply py_compare_gt_lt in E. done.
Qed.

Lemma sorted_Permutation (l : list A) : sorted l ≡ₚ l.
Proof. apply merge_sort_Permutation. Qed.

Lemma sorted_StronglySorted (l : list A) : StronglySorted py_le (sorted l).
Proof. apply StronglySorted_merge_sort; apply _. Qed.

Lemma sorted_unique (l1 l2 : list A) : l1 ≡ₚ l2 -> sorted l1 = sorted l2.
Proof.
  intros Hp. apply (StronglySorted_unique py_le); auto using sorted_StronglySorted.
  by rewrite !sorted_Permutation.
Qed.

End compare_laws.

#[global] Instance Z_py_compare_laws : PyCompareLaws Z.
Proof.
  split; unfold py_compare, Z_py_compare.
  - intros x y. apply Z.compare_eq_iff.
  - intros x y. apply Z.compare_antisym.
  - intros x y z. rewrite !Z.compare_lt_iff. lia.
Qed.

#[global] Instance ascii_py_compare_laws : PyCompareLaws ascii.
Proof.
  split; unfold py_compare, ascii_py_compare.
  - intros x y. rewrite N.compare_eq_iff. split; [|congruence].
    intros E. rewrite <- (ascii_N_embedding x), <- (ascii_N_embedding y).
    by rewrite E.
  - intros x y. apply N.compare_antisym.
  - intros x y z. rewrite !N.compare_lt_iff. lia.
Qed.

#[global] Instance list_py_compare_laws {A} `{PyCompareLaws A} : PyCompareLaws (list A).
Proof.
  split; unfold py_compare, list_py_compare.
  - induction x as [|x l1 IH]; intros [|y l2]; simpl; try (split; congruence).
    destruct (py_compare x y) eqn:E.
    + apply py_compare_eq in E. subst. rewrite IH. split; congruence.
    + split; [done|]. intros [= -> _]. rewrite py_compare_refl in E. done.
    + split; [done|]. intros [= -> _]. rewrite py_compare_refl in E. done.
  - induction x as [|x l1 IH]; intros [|y l2]; simpl; try done.
    rewrite (py_compare_antisym x y).
    destruct (py_compare x y); simpl; auto.
  - induction x as [|x l1 IH]; intros [|y l2] [|z l3]; simpl; try done.
    destruct (py_compare x y) eqn:E1; try done.
    + apply py_compare_eq in E1. subst.
      destruct (py_compare y z); try done. apply IH.
    + intros _. destruct (py_compare y z) eqn:E2; try done.
      * apply py_compare_eq in E2. subst. by rewrite E1.
      * by rewrite (py_compare_lt_trans _ _ _ E1 E2).
Qed.

#[global] Instance string_py_compare_laws : PyCompareLaws string.
Proof.
  split.
  - intros x y.
    change (py_compare (list_ascii_of_string x) (list_ascii_of_string y) = Eq
            <-> x = y).
    rewrite py_compare_eq. split; [|congruence].
    intros E. rewrite <- (string_of_list_ascii_of_string x),
      <- (string_of_list_ascii_of_string y). by rewrite E.
  - intros x y. apply (py_compare_antisym (A:=list ascii)).
  - intros x y z. apply (py_compare_lt_trans (A:=list ascii)).
Qed.

#[global] Instance prod_py_compare_laws {A B} `{PyCompareLaws A, PyCompareLaws B}
  : PyCompareLaws (A * B).
Proof.
  split; unfold py_compare, prod_py_compare.
  - intros [x1 x2] [y1 y2]; simpl.
    destruct (py_compare x1 y1) eqn:E.
    + apply py_compare_eq in E. subst. rewrite py_compare_eq. split; congruence.
    + split; [done|]. intros [= -> _]. rewrite py_compare_refl in E. done.
    + split; [done|]. intros [= -> _]. rewrite py_compare_refl in E. done.
  - intros [x1 x2] [y1 y2]; simpl. rewrite (py_compare_antisym x1 y1).
    destruct (py_compare x1 y1); simpl; auto using py_compare_antisym.
  - intros [x1 x2] [y1 y2] [z1 z2]; simpl.
    destruct (py_compare x1 y1) eqn:E1; try done.
    + apply py_compare_eq in E1. subst.
      destruct (py_compare y1 z1); try done. apply py_compare_lt_trans.
    + intros _. destruct (py_compare y1 z1) eqn:E2; try done.
      * apply py_compare_eq in E2. subst. by rewrite E1.
      * by rewrite (py_compare_lt_trans _ _ _ E1 E2).
Qed.

#[global] Instance Color_py_compare_laws : PyCompareLaws Color.
Proof.
  split.
  - intros x y.
    change (py_compare (Color_tuple x) (Color_tuple y) = Eq <-> x = y).
    rewrite py_compare_eq. split; [|congruence].
    destruct x, y; unfold Color_tuple; simpl. congruence.
  - intros x y. apply (py_compare_antisym (A:=list Z)).
  - intros x y z. apply (py_compare_lt_trans (A:=list Z)).
Qed.


(* ===================================================================== *)
(** * Properties: ligature rules *)
(* ===================================================================== *)

Lemma result_bind_Ok {A B} (m : result A) (k : A -> result B) (y : B) :
  m ≫= k = Ok y <-> exists x, m = Ok x /\ k x = Ok y.
Proof.
  destruct m as [x|e]; simpl.
  - split; [eauto | intros (? & [= <-] & ?); done].
  - split; [done | intros (? & [=] & _)].
Qed.

Lemma foldM_cons {S A} (body : S -> A -> result S) (s : S) (x : A)
  (l : list A) :
  foldM body s (x :: l) = body s x ≫= fun s' => foldM body s' l.
Proof. reflexivity. Qed.

Lemma bind_Ok_l {A B} (x : A) (k : A -> result B) : Ok x ≫= k = k x.
Proof. reflexivity. Qed.

Lemma bind_Raise_l {A B} (e : exn) (k : A -> result B) :
  Raise e ≫= k = Raise e.
Proof. reflexivity. Qed.

Lemma generate_fea_loop (glyph_name : Z -> string)
  (l : list (list Z * string)) (rules : list string) :
  fold_left
    (fun rules '(rgi, target) =>
       if decide (length rgi = 1) then rules
       else rules ++ [_generate_fea_rule glyph_name rgi target])
    l rules
  = rules ++ ((fun p => _generate_fea_rule glyph_name (fst p) (snd p)) <$>
              filter (fun p => length (fst p) <> 1) l).
Proof.
  revert rules. induction l as [|[rgi target] l IH]; intros rules; simpl.
  - by rewrite app_nil_r.
  - rewrite IH. rewrite filter_cons. simpl.
    destruct (decide (length rgi = 1)), (decide (length rgi <> 1)); try done.
    by rewrite fmap_cons, <- app_assoc.
Qed.

Lemma filter_nonempty_multi (l : list (list Z * string)) :
  Forall (fun p => fst p <> []) l ->
  filter (fun p => length (fst p) <> 1) l = ligature_sequences l.
Proof.
  unfold ligature_sequences.
  induction 1 as [|[rgi t] l Hrgi _ IH]; [done|].
  rewrite !filter_cons, IH. simpl in *.
  destruct rgi as [|cp [|cp' rgi]]; [done| |]; simpl;
    repeat case_decide; done || lia.
Qed.

Lemma py_le_fst {A B} `{PyCompareLaws A, PyCompareLaws B} (p q : A * B) :
  py_le p q -> py_le (fst p) (fst q).
Proof.
  unfold py_le, py_compare at 1, prod_py_compare.
  destruct (py_compare (fst p) (fst q)); done.
Qed.

Lemma StronglySorted_filter {A} (R : relation A) (P : A -> Prop)
  `{forall x, Decision (P x)} (l : list A) :
  StronglySorted R l -> StronglySorted R (filter P l).
Proof.
  induction 1 as [|x l Hl IH Hx]; [constructor|].
  rewrite filter_cons. destruct (decide (P x)); [|done].
  constructor; [done|]. apply Forall_forall. intros y Hy.
  apply list_elem_of_filter in Hy as [_ Hy].
  by eapply Forall_forall in Hx.
Qed.

(** C7: the feature text is the fixed script and language lines, then one
    substitution rule for each sequence of more than one codepoint and no
    other rule, in the sorted order of the codepoint sequences, then the
    closing line.  The inputs are the codepoints of color glyphs, which are
    never empty. *)
Theorem generate_fea_rules_per_ligature (glyph_name : Z -> string)
  (rgi_sequences : list (list Z * string)) :
  Forall (fun p => fst p <> []) rgi_sequences ->
  _generate_fea glyph_name rgi_sequences
  = join newline
      (["languagesystem DFLT dflt;"; "languagesystem latn dflt;";
        "feature rlig {"]
       ++ ((fun p => _generate_fea_rule glyph_name (fst p) (snd p)) <$>
           ligature_sequences (sorted rgi_sequences))
       ++ ["} rlig;"])
  /\ ligature_sequences (sorted rgi_sequences)
     ≡ₚ ligature_sequences rgi_sequences
  /\ (forall p, p ∈ ligature_sequences (sorted rgi_sequences) <->
                p ∈ rgi_sequences /\ 1 < length (fst p))
  /\ StronglySorted py_le (fst <$> ligature_sequences (sorted rgi_sequences)).
Proof.
  intros Hne. split; [|split; [|split]].
  - unfold _generate_fea, _generate_fea_rules. f_equal. simpl.
    rewrite generate_fea_loop. rewrite filter_nonempty_multi; [done|].
    eapply Forall_forall. intros p Hp.
    rewrite sorted_Permutation in Hp. by eapply Forall_forall in Hne.
  - unfold ligature_sequences. by rewrite sorted_Permutation.
  - intros p. unfold ligature_sequences.
    rewrite list_elem_of_filter, sorted_Permutation. tauto.
  - unfold ligature_sequences.
    pose proof (sorted_StronglySorted rgi_sequences) as Hs.
    apply (StronglySorted_filter _ (fun p => 1 < length (fst p))) in Hs.
    apply (StronglySorted_fmap _ (py_le (A:=list Z * string))); [|done].
    intros p q. apply py_le_fst.
Qed.

(** The spec's example: a rule for the three codepoints of g1, none for the
    single codepoint of g2. *)
Lemma generate_fea_rules_per_ligature_witness :
  _generate_fea glyph_name_hex
    [([128104; 8205; 128187]%Z, "g1"); ([128512]%Z, "g2")]
  = join newline
      ["languagesystem DFLT dflt;"; "languagesystem latn dflt;";
       "feature rlig {"; "  sub emoji_1f468 emoji_200d emoji_1f4bb by g1;";
       "} rlig;"].
Proof.
  pose proof (generate_fea_rules_per_ligature glyph_name_hex
    [([128104; 8205; 128187]%Z, "g1"); ([128512]%Z, "g2")]) as H.
  destruct H as [H _]; [repeat constructor; done|].
  rewrite H. vm_compute. reflexivity.
Defined.


(* ===================================================================== *)
(** * Properties: the font store *)
(* ===================================================================== *)

Lemma deref_update_eq (ufo : Font.t) (a : nat) (m : Glyph.t -> Glyph.t) :
  a < length (Font.objects ufo) ->
  Font.deref (Font.update a m ufo) a = m (Font.deref ufo a).
Proof.
  intros Ha. unfold Font.deref, Font.update. simpl.
  rewrite list_lookup_alter_eq.
  destruct (lookup_lt_is_Some_2 _ _ Ha) as [g ->]. done.
Qed.

Lemma deref_update_ne (ufo : Font.t) (a a' : nat) (m : Glyph.t -> Glyph.t) :
  a <> a' -> Font.deref (Font.update a m ufo) a' = Font.deref ufo a'.
Proof.
  intros Ha. unfold Font.deref, Font.update. simpl.
  by rewrite list_lookup_alter_ne.
Qed.

Lemma length_objects_update (ufo : Font.t) (a : nat) (m : Glyph.t -> Glyph.t) :
  length (Font.objects (Font.update a m ufo)) = length (Font.objects ufo).
Proof. unfold Font.update. simpl. apply length_alter. Qed.

Lemma newGlyph_fresh (ufo : Font.t) (name : string) :
  Font.glyphs ufo !! name = None ->
  Font.newGlyph ufo name
  = Ok (Font.set_glyphs (<[name := length (Font.objects ufo)]> (Font.glyphs ufo))
          (Font.set_objects (Font.objects ufo ++ [Glyph.new name]) ufo),
        length (Font.objects ufo)).
Proof.
  intros Hn. unfold Font.newGlyph, Font.contains. rewrite Hn.
  rewrite bool_decide_eq_false_2; [done|]. by intros [? [=]].
Qed.

Lemma alter_app_last {A} (m : A -> A) (l : list A) (x : A) :
  alter m (length l) (l ++ [x]) = l ++ [m x].
Proof.
  induction l as [|y l IH]; [done|]. simpl.
  change (y :: alter m (length l) (l ++ [x]) = y :: l ++ [m x]).
  by rewrite IH.
Qed.

(* ===================================================================== *)
(** * Properties: blank glyphs *)
(* ===================================================================== *)

Lemma codepoint_sets_spec (l : list InputGlyph) (all direct : gset Z) (c : Z) :
  let r := fold_left
    (fun '(all_codepoints, direct_mapped_codepoints) input =>
       let codepoints := input_codepoints input in
       let direct_mapped_codepoints :=
         if decide (length codepoints = 1)
         then direct_mapped_codepoints ∪ list_to_set codepoints
         else direct_mapped_codepoints in
       (all_codepoints ∪ list_to_set codepoints, direct_mapped_codepoints))
    l (all, direct) in
  (c ∈ fst r <-> c ∈ all \/ exists input, input ∈ l /\ c ∈ input_codepoints input)
  /\ (c ∈ snd r <-> c ∈ direct \/ exists input, input ∈ l /\ input_codepoints input = [c]).
Proof.
  revert all direct. induction l as [|input l IH]; intros all direct; simpl.
  - split; (split; [auto | intros [?|(? & Hin & _)]; [done|]; inversion Hin]).
  - destruct (IH (all ∪ list_to_set (input_codepoints input))
      (if decide (length (input_codepoints input) = 1)
       then direct ∪ list_to_set (input_codepoints input) else direct))
      as [IH1 IH2].
    split.
    + rewrite IH1, elem_of_union, elem_of_list_to_set. split.
      * intros [[?|?]|(i & ? & ?)]; [by left| |]; right.
        -- exists input. split; [left|done].
        -- exists i. split; [by right|done].
      * intros [?|(i & Hi & ?)]; [by left; left|].
        apply elem_of_cons in Hi as [->|Hi]; [by left; right|].
        right. eauto.
    + rewrite IH2. split.
      * intros [Hd|(i & ? & ?)].
        -- case_decide as Hlen; [|by left].
           apply elem_of_union in Hd as [?|Hd]; [by left|]. right.
           exists input. split; [left|].
           apply elem_of_list_to_set in Hd.
           destruct (input_codepoints input) as [|c' [|??]]; try done.
           by apply list_elem_of_singleton in Hd as ->.
        -- right. exists i. split; [by right|done].
      * intros [?|(i & Hi & Hc)].
        -- left. case_decide; [|done]. apply elem_of_union. by left.
        -- apply elem_of_cons in Hi as [->|Hi]; [|right; eauto].
           left. rewrite Hc. simpl. set_solver.
Qed.

Lemma need_blanks_spec (glyph_inputs : list InputGlyph) (c : Z) :
  c ∈ need_blanks glyph_inputs <->
  (exists input, input ∈ glyph_inputs /\ c ∈ input_codepoints input)
  /\ ~ (exists input, input ∈ glyph_inputs /\ input_codepoints input = [c]).
Proof.
  unfold need_blanks, codepoint_sets.
  pose proof (codepoint_sets_spec glyph_inputs ∅ ∅ c) as H. simpl in H.
  destruct (fold_left _ glyph_inputs (∅, ∅)) as [all direct]. simpl in H.
  destruct H as [H1 H2].
  rewrite elem_of_difference, H1, H2. set_solver.
Qed.

(** The blank glyph of a codepoint. *)
Lemma ensure_codepoints_loop (glyph_name : Z -> string) (l : list Z)
  (ufo : Font.t) (names : list string) :
  NoDup (glyph_name <$> l) ->
  (forall c, c ∈ l -> Font.glyphs ufo !! glyph_name c = None) ->
  exists ufo',
    foldM (_ensure_codepoints_blank glyph_name) (ufo, names) l
    = Ok (ufo', names ++ (glyph_name <$> l))
    /\ Font.objects ufo'
       = Font.objects ufo
         ++ ((fun c => Glyph.set_unicode c (Glyph.new (glyph_name c))) <$> l)
    /\ (forall i c, l !! i = Some c ->
          Font.glyphs ufo' !! glyph_name c
          = Some (length (Font.objects ufo) + i))
    /\ (forall n, n ∉ glyph_name <$> l ->
          Font.glyphs ufo' !! n = Font.glyphs ufo !! n)
    /\ Font.glyphOrder ufo' = Font.glyphOrder ufo.
Proof.
  revert ufo names. induction l as [|c l IH]; intros ufo names Hnd Hfresh.
  - exists ufo. simpl. rewrite !app_nil_r. repeat split; try done.
  - rewrite fmap_cons in Hnd. apply NoDup_cons in Hnd as [Hc Hnd].
    simpl. rewrite newGlyph_fresh by (apply Hfresh; left). simpl.
    set (ufo1 := Font.update _ _ _).
    assert (Font.objects ufo1
            = Font.objects ufo
              ++ [Glyph.set_unicode c (Glyph.new (glyph_name c))]) as Hobj.
    { unfold ufo1, Font.update. simpl. apply alter_app_last. }
    assert (Font.glyphs ufo1
            = <[glyph_name c := length (Font.objects ufo)]> (Font.glyphs ufo))
      as Hmap by done.
    assert (Glyph.name (Font.deref ufo1 (length (Font.objects ufo)))
            = glyph_name c) as Hname.
    { unfold Font.deref. rewrite Hobj.
      rewrite lookup_app_r, Nat.sub_diag by lia. done. }
    rewrite Hname.
    destruct (IH ufo1 (names ++ [glyph_name c]) Hnd)
      as (ufo' & Hrun & Hobj' & Hnew & Hold & Hord).
    { intros c' Hc'. rewrite Hmap. rewrite lookup_insert_ne.
      - apply Hfresh. by right.
      - intros E. apply Hc. rewrite E. apply list_elem_of_fmap. eauto. }
    exists ufo'. split; [|split; [|split; [|split]]].
    + rewrite Hrun. by rewrite <- app_assoc.
    + rewrite Hobj', Hobj, <- app_assoc. done.
    + intros [|i] c' Hi; simpl in Hi.
      * injection Hi as <-. rewrite Hold by done. rewrite Hmap.
        rewrite lookup_insert_eq. f_equal. lia.
      * rewrite (Hnew i c' Hi). rewrite Hobj, length_app. simpl. f_equal. lia.
    + intros n Hn.
      apply not_elem_of_cons in Hn as [Hn1 Hn2].
      rewrite Hold by done. rewrite Hmap. by rewrite lookup_insert_ne.
    + by rewrite Hord.
Qed.

(** C4, amended: a blank glyph, mapped to its codepoint, is added for
    exactly the codepoints that occur in a sequence and are no sequence of
    their own, and their names are appended to the glyph order sorted as
    glyph names.  The names of the blanks are taken to be distinct and new
    to the font. *)
Theorem ensure_codepoints_blank_glyphs (glyph_name : Z -> string)
  (ufo : Font.t) (glyph_inputs : list InputGlyph) :
  (forall c1 c2, c1 ∈ need_blanks glyph_inputs ->
     c2 ∈ need_blanks glyph_inputs -> glyph_name c1 = glyph_name c2 -> c1 = c2) ->
  (forall c, c ∈ need_blanks glyph_inputs ->
     Font.glyphs ufo !! glyph_name c = None) ->
  exists ufo',
    _ensure_codepoints_will_have_glyphs glyph_name ufo glyph_inputs = Ok ufo'
    /\ (forall c, c ∈ need_blanks glyph_inputs <->
          (exists input, input ∈ glyph_inputs /\ c ∈ input_codepoints input)
          /\ ~ (exists input, input ∈ glyph_inputs
                              /\ input_codepoints input = [c]))
    /\ (forall c, c ∈ need_blanks glyph_inputs ->
          exists addr,
            Font.glyphs ufo' !! glyph_name c = Some addr
            /\ Font.deref ufo' addr = Glyph.mk (glyph_name c) 0 [c] [] [])
    /\ (forall n, (forall c, c ∈ need_blanks glyph_inputs -> n <> glyph_name c) ->
          Font.glyphs ufo' !! n = Font.glyphs ufo !! n)
    /\ Font.glyphOrder ufo'
       = Font.glyphOrder ufo
         ++ sorted (glyph_name <$> elements (need_blanks glyph_inputs))
    /\ sorted (glyph_name <$> elements (need_blanks glyph_inputs))
       ≡ₚ glyph_name <$> elements (need_blanks glyph_inputs)
    /\ StronglySorted py_le
         (sorted (glyph_name <$> elements (need_blanks glyph_inputs))).
Proof.
  intros Hinj Hfresh.
  destruct (ensure_codepoints_loop glyph_name
              (elements (need_blanks glyph_inputs)) ufo [])
    as (ufo1 & Hrun & Hobj & Hnew & Hold & Hord).
  { apply NoDup_fmap_2_strong; [|apply NoDup_elements].
    intros c1 c2 H1 H2. apply Hinj; by apply elem_of_elements. }
  { intros c Hc. apply Hfresh. by apply elem_of_elements. }
  eexists. split; [|split; [|split; [|split; [|split; [|split]]]]].
  - unfold _ensure_codepoints_will_have_glyphs. rewrite Hrun. simpl. done.
  - apply need_blanks_spec.
  - intros c Hc. apply elem_of_elements, list_elem_of_lookup in Hc as [i Hi].
    exists (length (Font.objects ufo) + i). simpl. split; [by apply Hnew|].
    unfold Font.deref. simpl. rewrite Hobj.
    rewrite lookup_app_r by lia.
    replace (length (Font.objects ufo) + i - length (Font.objects ufo))
      with i by lia.
    rewrite list_lookup_fmap, Hi. done.
  - intros n Hn. simpl. apply Hold. intros Hin.
    apply list_elem_of_fmap in Hin as (c & -> & Hc).
    apply elem_of_elements in Hc. by apply (Hn c).
  - simpl. by rewrite Hord.
  - apply sorted_Permutation.
  - apply sorted_StronglySorted.
Qed.

(** The blanks of the spec's batch: the zero width joiner and the second
    face, which is no sequence of its own either; none for the first face. *)
Lemma ensure_codepoints_blank_glyphs_witness :
  exists ufo',
    _ensure_codepoints_will_have_glyphs glyph_name_hex sample_ufo sample_inputs
    = Ok ufo'
    /\ (exists addr, Font.glyphs ufo' !! "emoji_200d" = Some addr
          /\ Font.deref ufo' addr = Glyph.mk "emoji_200d" 0 [8205%Z] [] [])
    /\ (exists addr, Font.glyphs ufo' !! "emoji_1f648" = Some addr
          /\ Font.deref ufo' addr = Glyph.mk "emoji_1f648" 0 [128584%Z] [] [])
    /\ Font.glyphs ufo' !! "emoji_1f600" = None
    /\ Font.glyphOrder ufo'
       = [".notdef"; ".space"; "emoji_1f648"; "emoji_200d"].
Proof.
  assert (need_blanks sample_inputs = {[8205%Z; 128584%Z]}) as Hnb
    by (vm_compute; reflexivity).
  destruct (ensure_codepoints_blank_glyphs glyph_name_hex sample_ufo
              sample_inputs)
    as (ufo' & Hrun & _ & Hblank & Hother & Hord & _).
  - rewrite Hnb. intros c1 c2 H1 H2.
    apply elem_of_union in H1 as [H1|H1], H2 as [H2|H2];
      apply elem_of_singleton in H1 as ->, H2 as ->; vm_compute; congruence.
  - rewrite Hnb. intros c Hc.
    apply elem_of_union in Hc as [Hc|Hc]; apply elem_of_singleton in Hc as ->;
      vm_compute; reflexivity.
  - exists ufo'. split; [done|]. split; [|split; [|split]].
    + apply (Hblank 8205%Z). rewrite Hnb. set_solver.
    + apply (Hblank 128584%Z). rewrite Hnb. set_solver.
    + rewrite Hother; [vm_compute; reflexivity|].
      rewrite Hnb. intros c Hc.
      apply elem_of_union in Hc as [Hc|Hc]; apply elem_of_singleton in Hc as ->;
        vm_compute; congruence.
    + rewrite Hord. vm_compute. reflexivity.
Defined.

(** C4 as the spec states it fails on the spec's own batch: the second face
    occurs only in the sequence, so it gets a blank glyph too, and the two
    blanks are appended in the order of their names, emoji_1f648 before
    emoji_200d, whereas the joiner is the lesser codepoint. *)
Lemma blank_glyphs_of_spec_batch :
  exists ufo',
    _ensure_codepoints_will_have_glyphs glyph_name_hex sample_ufo
      sample_inputs = Ok ufo'
    /\ 128584%Z ∈ need_blanks sample_inputs
    /\ (exists addr, Font.glyphs ufo' !! glyph_name_hex 128584 = Some addr
          /\ Font.deref ufo' addr
             = Glyph.mk (glyph_name_hex 128584) 0 [128584%Z] [] [])
    /\ Font.glyphOrder ufo'
       = Font.glyphOrder sample_ufo ++ ["emoji_1f648"; "emoji_200d"]
    /\ blanks_by_codepoint glyph_name_hex sample_inputs
       = ["emoji_200d"; "emoji_1f648"]
    /\ Font.glyphOrder ufo'
       <> Font.glyphOrder sample_ufo
          ++ blanks_by_codepoint glyph_name_hex sample_inputs.
Proof.
  eexists. split; [vm_compute; reflexivity|].
  split; [by vm_compute|].
  split; [eexists; split; vm_compute; reflexivity|].
  split; [vm_compute; reflexivity|].
  split; [vm_compute; reflexivity|].
  vm_compute. discriminate.
Qed.


(* ===================================================================== *)
(** * Properties: the palette *)
(* ===================================================================== *)

Lemma py_index_Some {A} `{EqDecision A} (l : list A) (x : A) (i : nat) :
  py_index l x = Some i <->
  l !! i = Some x /\ forall j, j < i -> l !! j <> Some x.
Proof.
  revert i. induction l as [|y l IH]; intros i; simpl.
  - split; [done | intros [[=] _]].
  - destruct (decide (y = x)) as [->|Hne].
    + split.
      * intros [= <-]. split; [done | intros; lia].
      * intros [Hi Hmin]. destruct i as [|i]; [done|].
        exfalso. apply (Hmin 0); [lia | done].
    + destruct i as [|i]; simpl.
      * split; [by destruct (py_index l x) | intros [[= ?] _]; done].
      * rewrite fmap_Some. split.
        -- intros (k & Hk & [= <-]). apply IH in Hk as [Hi Hmin].
           split; [done|].
           intros [|j] Hj; simpl; [congruence | apply Hmin; lia].
        -- intros [Hi Hmin]. exists i. split; [|done]. apply IH.
           split; [done|]. intros j Hj. apply (Hmin (S j)). lia.
Qed.

Lemma py_index_elem_of {A} `{EqDecision A} (l : list A) (x : A) :
  x ∈ l -> exists i, py_index l x = Some i.
Proof.
  induction 1 as [x l | x y l _ [i IH]]; simpl.
  - rewrite decide_True by done. eauto.
  - destruct (decide (y = x)); [eauto|]. rewrite IH. simpl. eauto.
Qed.

Lemma elem_of_concat {A} (ls : list (list A)) (x : A) :
  x ∈ concat ls <-> exists l, x ∈ l /\ l ∈ ls.
Proof.
  rewrite list_elem_of_In, in_concat. split.
  - intros (l & ? & ?). exists l. by rewrite !list_elem_of_In.
  - intros (l & ? & ?). exists l. by rewrite <- !list_elem_of_In.
Qed.

Lemma ColorGlyph_colors_spec (g : ColorGlyph) (c : Color) :
  c ∈ ColorGlyph_colors g <->
  exists layer, layer ∈ as_painted_layers g /\ c ∈ Paint_.colors (paint layer).
Proof.
  unfold ColorGlyph_colors. rewrite elem_of_list_to_set, elem_of_concat.
  split.
  - intros (l & Hc & Hl). apply list_elem_of_fmap in Hl as (layer & -> & ?).
    eauto.
  - intros (layer & ? & ?). eexists. split; [done|].
    apply list_elem_of_fmap. eauto.
Qed.

Lemma colr_ufo_color_set_spec (colr_version : Z)
  (color_glyphs : list ColorGlyph) (c : Color) :
  c ∈ _colr_ufo_color_set colr_version color_glyphs <->
  exists g k, g ∈ color_glyphs /\ k ∈ ColorGlyph_colors g
              /\ c = if decide (colr_version = 0%Z) then k else opaque k.
Proof.
  unfold _colr_ufo_color_set. rewrite elem_of_map. split.
  - intros (k & -> & Hk). apply elem_of_union_list in Hk as (X & HX & Hk).
    apply list_elem_of_fmap in HX as (g & -> & Hg). eauto.
  - intros (g & k & Hg & Hk & ->). exists k. split; [done|].
    apply elem_of_union_list. eexists. split; [|done].
    apply list_elem_of_fmap. eauto.
Qed.

Lemma colr_ufo_colors_elem_of (colr_version : Z)
  (color_glyphs : list ColorGlyph) (c : Color) :
  c ∈ _colr_ufo_colors colr_version color_glyphs <->
  c ∈ _colr_ufo_color_set colr_version color_glyphs.
Proof.
  unfold _colr_ufo_colors. by rewrite sorted_Permutation, elem_of_elements.
Qed.

Lemma colr_ufo_colors_NoDup (colr_version : Z) (color_glyphs : list ColorGlyph) :
  NoDup (_colr_ufo_colors colr_version color_glyphs).
Proof.
  unfold _colr_ufo_colors. rewrite sorted_Permutation. apply NoDup_elements.
Qed.

(** Under version 0 a paint whose first color is in the palette becomes the
    position of that color. *)
Lemma colr_paint_v0 (paint : Paint) (palette : list Color) (c : Color)
  (rest : list Color) :
  Paint_.colors paint = c :: rest -> c ∈ palette ->
  exists i, _colr_paint 0 paint palette = Ok (PaletteIndex i)
            /\ py_index palette c = Some i
            /\ palette !! i = Some c
            /\ forall j, j < i -> palette !! j <> Some c.
Proof.
  intros Hc Hin. destruct (py_index_elem_of palette c Hin) as [i Hi].
  exists i. unfold _colr_paint. rewrite decide_True by done.
  rewrite Hc, Hi. apply py_index_Some in Hi as [? ?]. done.
Qed.

Lemma ufo_color_line_spec (palette : list Color) (stops : list ColorStop) :
  Forall (fun s => opaque (stopColor s) ∈ palette) stops ->
  exists line,
    Paint_.ufo_color_line palette stops = Ok line
    /\ Forall2
         (fun s u =>
            Paint_.ufoOffset u = stopOffset s
            /\ Paint_.ufoAlpha (Paint_.ufoStopColor u) = alpha (stopColor s)
            /\ palette !! Paint_.paletteIndex (Paint_.ufoStopColor u)
               = Some (opaque (stopColor s)))
         stops line.
Proof.
  induction 1 as [|s stops Hs _ (line & Hline & IH)]; simpl.
  - eexists. split; [done | constructor].
  - destruct (py_index_elem_of _ _ Hs) as [i Hi].
    unfold Paint_.ufo_color. rewrite Hi. simpl. rewrite Hline. simpl.
    eexists. split; [done|]. constructor; [|done]. simpl.
    apply py_index_Some in Hi as [? _]. done.
Qed.

(** The palette of version 0 holds exactly the colors the glyphs use. *)
Lemma colr_palette_v0 (color_glyphs : list ColorGlyph) (c : Color) :
  c ∈ _colr_ufo_colors 0 color_glyphs <->
  exists g, g ∈ color_glyphs /\ c ∈ ColorGlyph_colors g.
Proof.
  rewrite colr_ufo_colors_elem_of, colr_ufo_color_set_spec.
  split; [intros (g & k & ? & ? & ->); eauto | intros (g & ? & ?); eauto].
Qed.

(** The palette of version 1 holds exactly their opaque colors. *)
Lemma colr_palette_v1 (color_glyphs : list ColorGlyph) (c : Color) :
  c ∈ _colr_ufo_colors 1 color_glyphs <->
  exists g k, g ∈ color_glyphs /\ k ∈ ColorGlyph_colors g /\ c = opaque k.
Proof.
  rewrite colr_ufo_colors_elem_of, colr_ufo_color_set_spec.
  split; intros (g & k & ? & ? & ->); eauto.
Qed.

(** Under version 0 the paint of a layer of a glyph of the list becomes the
    palette position of the first color it mentions. *)
Lemma colr_paint_first_color (color_glyphs : list ColorGlyph) (g : ColorGlyph)
  (layer : PaintedLayer) (c : Color) (rest : list Color) :
  g ∈ color_glyphs -> layer ∈ as_painted_layers g ->
  Paint_.colors (paint layer) = c :: rest ->
  exists i,
    _colr_paint 0 (paint layer) (_colr_ufo_colors 0 color_glyphs)
    = Ok (PaletteIndex i)
    /\ _colr_ufo_colors 0 color_glyphs !! i = Some c.
Proof.
  intros Hg Hl Hc.
  destruct (colr_paint_v0 (paint layer) (_colr_ufo_colors 0 color_glyphs)
              c rest Hc) as (i & ? & _ & ? & _); [|eauto].
  apply colr_palette_v0. exists g. split; [done|].
  apply ColorGlyph_colors_spec. exists layer. split; [done|].
  rewrite Hc. left.
Qed.

(** Under version 1 the opaque color of every color of a layer of a glyph of
    the list is in the palette. *)
Lemma colr_palette_v1_opaque (color_glyphs : list ColorGlyph) (g : ColorGlyph)
  (layer : PaintedLayer) (k : Color) :
  g ∈ color_glyphs -> layer ∈ as_painted_layers g ->
  k ∈ Paint_.colors (paint layer) ->
  opaque k ∈ _colr_ufo_colors 1 color_glyphs.
Proof.
  intros Hg Hl Hk. apply colr_palette_v1. exists g, k.
  split; [done|]. split; [|done].
  apply ColorGlyph_colors_spec. eauto.
Qed.

(** Under version 1 a gradient becomes a color line: stop by stop the
    offset, the alpha and the palette position of the opaque color. *)
Lemma colr_paint_gradient_line (color_glyphs : list ColorGlyph)
  (g : ColorGlyph) (layer : PaintedLayer) (stops : list ColorStop) :
  g ∈ color_glyphs -> layer ∈ as_painted_layers g ->
  paint layer = PaintGradient stops ->
  exists line,
    _colr_paint 1 (paint layer) (_colr_ufo_colors 1 color_glyphs)
    = Ok (PaintStruct (Paint_.UfoGradient line))
    /\ Forall2
         (fun s u =>
            Paint_.ufoOffset u = stopOffset s
            /\ Paint_.ufoAlpha (Paint_.ufoStopColor u) = alpha (stopColor s)
            /\ _colr_ufo_colors 1 color_glyphs
                 !! Paint_.paletteIndex (Paint_.ufoStopColor u)
               = Some (opaque (stopColor s)))
         stops line.
Proof.
  intros Hg Hl Hp.
  destruct (ufo_color_line_spec (_colr_ufo_colors 1 color_glyphs) stops)
    as (line & Hline & Hrel).
  { apply Forall_forall. intros s Hs.
    apply (colr_palette_v1_opaque color_glyphs g layer); [done..|].
    rewrite Hp. simpl. apply list_elem_of_fmap. eauto. }
  exists line. split; [|done].
  unfold _colr_paint. rewrite decide_False by done.
  rewrite decide_True by done. rewrite Hp. simpl. rewrite Hline. done.
Qed.

(** Under version 1 every paint of the list is encoded. *)
Lemma colr_paint_v1_Ok (color_glyphs : list ColorGlyph) (g : ColorGlyph)
  (layer : PaintedLayer) :
  g ∈ color_glyphs -> layer ∈ as_painted_layers g ->
  exists p,
    _colr_paint 1 (paint layer) (_colr_ufo_colors 1 color_glyphs) = Ok p.
Proof.
  intros Hg Hl. destruct (paint layer) as [color|stops] eqn:Hp.
  - destruct (py_index_elem_of (_colr_ufo_colors 1 color_glyphs)
                (opaque color)) as [i Hi].
    { apply (colr_palette_v1_opaque color_glyphs g layer); [done..|].
      rewrite Hp. left. }
    unfold _colr_paint. rewrite decide_False by done.
    rewrite decide_True by done. simpl. unfold Paint_.ufo_color.
    rewrite Hi. simpl. eauto.
  - destruct (colr_paint_gradient_line color_glyphs g layer stops Hg Hl Hp)
      as (line & Hline & _).
    rewrite <- Hp. eauto.
Qed.

Lemma no_ValueError_Ok {A} (x : A) : no_ValueError (Ok x).
Proof. intros msg. discriminate. Qed.

Lemma no_ValueError_bind {A B} (m : result A) (k : A -> result B) :
  no_ValueError m -> (forall x, m = Ok x -> no_ValueError (k x)) ->
  no_ValueError (m ≫= k).
Proof.
  intros Hm Hk. destruct m as [x|e]; simpl; [by apply Hk|].
  intros msg [= ->]. by apply (Hm msg).
Qed.

Lemma no_ValueError_foldM {S A} (body : S -> A -> result S) (l : list A) (s : S) :
  (forall s x, x ∈ l -> no_ValueError (body s x)) ->
  no_ValueError (foldM body s l).
Proof.
  revert s. induction l as [|x l IH]; intros s Hbody; simpl.
  - apply no_ValueError_Ok.
  - apply no_ValueError_bind; [apply Hbody; left|].
    intros s' _. apply IH. intros s'' y Hy. apply Hbody. by right.
Qed.

Lemma no_ValueError_next_name (ufo : Font.t) (name_fn : nat -> string) :
  no_ValueError (_next_name ufo name_fn).
Proof.
  unfold _next_name. destruct (_next_name_from _ _ _ _); intros msg; done.
Qed.

Lemma no_ValueError_newGlyph (ufo : Font.t) (name : string) :
  no_ValueError (Font.newGlyph ufo name).
Proof.
  unfold Font.newGlyph. destruct (Font.contains _ _); intros msg; done.
Qed.

Lemma no_ValueError_create_glyph (ufo : Font.t) (color_glyph : ColorGlyph)
  (painted_layer : PaintedLayer) :
  no_ValueError (_create_glyph ufo color_glyph painted_layer).
Proof.
  unfold _create_glyph.
  apply no_ValueError_bind; [apply no_ValueError_next_name|]. intros name _.
  apply no_ValueError_bind; [apply no_ValueError_newGlyph|].
  intros [ufo1 glyph] _.
  apply no_ValueError_bind; [|intros [??] _; apply no_ValueError_Ok].
  destruct (reuses painted_layer); [apply no_ValueError_Ok|].
  apply no_ValueError_bind; [apply no_ValueError_next_name|]. intros base _.
  apply no_ValueError_bind; [apply no_ValueError_newGlyph|].
  intros [??] _. apply no_ValueError_Ok.
Qed.

Lemma no_ValueError_glyph_for_layer (ufo : Font.t) (glyphs : GlyphsByKey)
  (color_glyph : ColorGlyph) (painted_layer : PaintedLayer) :
  no_ValueError (glyph_for_layer ufo glyphs color_glyph painted_layer).
Proof.
  unfold glyph_for_layer. destruct (glyphs !! _); [apply no_ValueError_Ok|].
  apply no_ValueError_bind; [apply no_ValueError_create_glyph|].
  intros [??] _. apply no_ValueError_Ok.
Qed.

Lemma no_ValueError_colr_paint_v0 (paint : Paint) (palette : list Color) :
  (forall c rest, Paint_.colors paint = c :: rest -> c ∈ palette) ->
  no_ValueError (_colr_paint 0 paint palette).
Proof.
  intros Hin. destruct (Paint_.colors paint) as [|c rest] eqn:Hc.
  - unfold _colr_paint. rewrite decide_True by done. rewrite Hc.
    intros msg; done.
  - destruct (colr_paint_v0 paint palette c rest Hc) as (i & -> & _);
      [by eapply Hin | done].
Qed.

(** C10: under version 0 the first color of the paint of every layer of
    every glyph of the list is in the palette made from the list, so the
    index lookup finds it, and no run of the encoder ends in the lookup's
    [ValueError]. *)
Theorem colr_v0_palette_lookup_never_fails (ufo : Font.t)
  (color_glyphs : list ColorGlyph) :
  (forall g layer c rest,
     g ∈ color_glyphs -> layer ∈ as_painted_layers g ->
     Paint_.colors (paint layer) = c :: rest ->
     c ∈ _colr_ufo_colors 0 color_glyphs
     /\ exists i,
          py_index (_colr_ufo_colors 0 color_glyphs) c = Some i
          /\ _colr_paint 0 (paint layer) (_colr_ufo_colors 0 color_glyphs)
             = Ok (PaletteIndex i))
  /\ forall msg, _colr_ufo 0 ufo color_glyphs <> Raise (ValueError msg).
Proof.
  assert (forall g layer c rest,
            g ∈ color_glyphs -> layer ∈ as_painted_layers g ->
            Paint_.colors (paint layer) = c :: rest ->
            c ∈ _colr_ufo_colors 0 color_glyphs) as Hin.
  { intros g layer c rest Hg Hl Hc.
    apply colr_ufo_colors_elem_of, colr_ufo_color_set_spec.
    exists g, c. split; [done|]. split; [|done].
    apply ColorGlyph_colors_spec. exists layer. split; [done|].
    rewrite Hc. left. }
  split.
  - intros g layer c rest Hg Hl Hc. split; [by eapply Hin|].
    destruct (colr_paint_v0 (paint layer) (_colr_ufo_colors 0 color_glyphs)
                c rest Hc) as (i & ? & ? & _); [by eapply Hin | eauto].
  - change (no_ValueError (_colr_ufo 0 ufo color_glyphs)).
    unfold _colr_ufo, _colr_ufo_run, _colr_ufo_with.
    apply no_ValueError_bind; [|intros [??] _; apply no_ValueError_Ok].
    apply no_ValueError_bind; [|intros [[??]?] _; apply no_ValueError_Ok].
    apply no_ValueError_foldM. intros [[ufo1 glyphs] layers] g Hg.
    unfold _colr_ufo_glyph.
    apply no_ValueError_bind.
    + apply no_ValueError_foldM. intros [[ufo2 glyphs2] acc] layer Hl.
      unfold _colr_ufo_layer.
      apply no_ValueError_bind; [apply no_ValueError_glyph_for_layer|].
      intros [[??]?] _.
      apply no_ValueError_bind; [|intros ? _; apply no_ValueError_Ok].
      apply no_ValueError_colr_paint_v0. intros c rest Hc. by eapply Hin.
    + intros [[??]?] _.
      destruct (Font.get _ _); [apply no_ValueError_Ok | intros msg; done].
Qed.

(** C8: the palette does not depend on the order in which the set of
    colors is iterated, so two runs of the encoder on the same list and
    version, whatever order each iterates the set in, return the same font:
    the same palette in the same order and the same layer lists. *)
Theorem colr_ufo_deterministic (colr_version : Z) (ufo : Font.t)
  (color_glyphs : list ColorGlyph) (run1 run2 : list Color) :
  run1 ≡ₚ elements (_colr_ufo_color_set colr_version color_glyphs) ->
  run2 ≡ₚ elements (_colr_ufo_color_set colr_version color_glyphs) ->
  sorted run1 = sorted run2
  /\ sorted run1 = _colr_ufo_colors colr_version color_glyphs
  /\ StronglySorted py_le (sorted run1)
  /\ _colr_ufo_with (sorted run1) colr_version ufo color_glyphs
     = _colr_ufo_with (sorted run2) colr_version ufo color_glyphs
  /\ _colr_ufo_with (sorted run1) colr_version ufo color_glyphs
     = _colr_ufo_run colr_version ufo color_glyphs.
Proof.
  intros H1 H2.
  assert (sorted run1 = _colr_ufo_colors colr_version color_glyphs) as E1
    by (by apply sorted_unique).
  assert (sorted run2 = _colr_ufo_colors colr_version color_glyphs) as E2
    by (by apply sorted_unique).
  repeat split.
  - congruence.
  - done.
  - apply sorted_StronglySorted.
  - by rewrite E1, E2.
  - by rewrite E1.
Qed.

(** Two runs on the sample glyphs, the second iterating the set of colors
    in the reverse order of the first. *)
Lemma colr_ufo_deterministic_witness :
  sorted (elements (_colr_ufo_color_set 0 sample_glyphs))
  = sorted (reverse (elements (_colr_ufo_color_set 0 sample_glyphs)))
  /\ _colr_ufo_with (sorted (elements (_colr_ufo_color_set 0 sample_glyphs)))
       0 sample_font sample_glyphs
     = _colr_ufo_with
         (sorted (reverse (elements (_colr_ufo_color_set 0 sample_glyphs))))
         0 sample_font sample_glyphs.
Proof.
  destruct (colr_ufo_deterministic 0 sample_font sample_glyphs
              (elements (_colr_ufo_color_set 0 sample_glyphs))
              (reverse (elements (_colr_ufo_color_set 0 sample_glyphs))))
    as (H1 & _ & _ & H2 & _).
  - reflexivity.
  - apply reverse_Permutation.
  - split; [exact H1 | exact H2].
Defined.


(* ===================================================================== *)
(** * Properties: new glyph names *)
(* ===================================================================== *)

Lemma has_dot_app_r (s t : string) : has_dot t = true -> has_dot (s +:+ t) = true.
Proof.
  intros Ht. induction s as [|ch s IH]; simpl; [done|].
  by destruct (Ascii.eqb ch "."%char).
Qed.

Lemma has_dot_app_l (s t : string) : has_dot s = true -> has_dot (s +:+ t) = true.
Proof.
  induction s as [|ch s IH]; simpl; [done|].
  by destruct (Ascii.eqb ch "."%char).
Qed.

Lemma next_name_from_None (fuel : nat) (ufo : Font.t) (name_fn : nat -> string)
  (i : nat) :
  _next_name_from fuel ufo name_fn i = None ->
  forall j, j < fuel -> is_Some (Font.glyphs ufo !! name_fn (i + j)).
Proof.
  revert i. induction fuel as [|fuel IH]; intros i Hnone j Hj; [lia|].
  simpl in Hnone. unfold Font.contains in Hnone.
  case_bool_decide as Hi; [|done].
  destruct j as [|j]; [by rewrite Nat.add_0_r|].
  replace (i + S j) with (S i + j) by lia. apply IH; [done | lia].
Qed.

Lemma next_name_from_Some (fuel : nat) (ufo : Font.t) (name_fn : nat -> string)
  (i : nat) (name : string) :
  _next_name_from fuel ufo name_fn i = Some name ->
  Font.glyphs ufo !! name = None /\ exists j, name = name_fn j.
Proof.
  revert i. induction fuel as [|fuel IH]; intros i; simpl; [done|].
  unfold Font.contains. case_bool_decide as Hi; [apply IH|].
  intros [= <-]. split; [|eauto].
  destruct (Font.glyphs ufo !! name_fn i) eqn:E; [|done].
  exfalso. apply Hi. eauto.
Qed.

(** [_next_name] ends: among one more candidate than the font has glyphs,
    one is free. *)
Lemma next_name_spec (ufo : Font.t) (name_fn : nat -> string) :
  Inj (=) (=) name_fn ->
  exists name,
    _next_name ufo name_fn = Ok name
    /\ Font.glyphs ufo !! name = None
    /\ exists j, name = name_fn j.
Proof.
  intros Hinj. unfold _next_name.
  destruct (_next_name_from _ _ _ _) as [name|] eqn:E.
  - exists name. split; [done|]. by eapply next_name_from_Some.
  - exfalso.
    pose proof (next_name_from_None _ _ _ _ E) as Hall.
    set (n := size (Font.glyphs ufo)) in *.
    assert (name_fn <$> seq 0 (S n) ⊆+ (map_to_list (Font.glyphs ufo)).*1)
      as Hsub.
    { apply NoDup_submseteq.
      - apply NoDup_fmap_2; [done | apply NoDup_seq].
      - intros x Hx. apply list_elem_of_fmap in Hx as (j & -> & Hj).
        apply elem_of_seq in Hj.
        destruct (Hall j) as [a Ha]; [lia|]. simpl in Ha.
        apply list_elem_of_fmap. exists (name_fn j, a). split; [done|].
        by apply elem_of_map_to_list. }
    apply submseteq_length in Hsub.
    rewrite !length_fmap, length_seq, length_map_to_list in Hsub.
    unfold n in Hsub. lia.
Qed.

Lemma name_fn_inj (prefix : string) :
  Inj (=) (=) (fun i : nat => prefix +:+ pretty i).
Proof. intros i j E. apply String.app_inj in E. by apply (inj pretty). Qed.

Lemma dotted_name (prefix : string) (i : nat) :
  has_dot (prefix +:+ "." +:+ pretty i) = true.
Proof. apply has_dot_app_r. done. Qed.

Lemma dotted_component_name (prefix : string) (i : nat) :
  has_dot (prefix +:+ ".component." +:+ pretty i) = true.
Proof. apply has_dot_app_r. done. Qed.

(* ===================================================================== *)
(** * Properties: the glyph made for a layer *)
(* ===================================================================== *)

Lemma update_update (ufo : Font.t) (a : nat) (m1 m2 : Glyph.t -> Glyph.t) :
  Font.update a m2 (Font.update a m1 ufo) = Font.update a (m2 ∘ m1) ufo.
Proof.
  unfold Font.update, Font.set_objects. simpl. f_equal.
  by rewrite list_alter_alter_eq.
Qed.

Lemma fold_update (ufo : Font.t) (a : nat) {X} (m : X -> Glyph.t -> Glyph.t)
  (l : list X) :
  fold_left (fun ufo x => Font.update a (m x) ufo) l ufo
  = Font.update a (fun g => fold_left (fun g x => m x g) l g) ufo.
Proof.
  revert ufo. induction l as [|x l IH]; intros ufo; simpl.
  - unfold Font.update, Font.set_objects. destruct ufo; simpl. f_equal.
    symmetry. apply list_alter_id. done.
  - rewrite IH, update_update. done.
Qed.

Lemma fold_append_component {X} (mk_c : X -> Component) (g : Glyph.t) (l : list X) :
  fold_left (fun g x => Glyph.append_component (mk_c x) g) l g
  = Glyph.mk (Glyph.name g) (Glyph.width g) (Glyph.unicodes g)
      (Glyph.components g ++ (mk_c <$> l)) (Glyph.contours g).
Proof.
  revert g. induction l as [|c l IH]; intros g; simpl.
  - rewrite app_nil_r. by destruct g.
  - rewrite IH. simpl. by rewrite <- app_assoc.
Qed.

Local Opaque fold_left.
Lemma create_glyph_spec (ufo : Font.t) (cg : ColorGlyph) (layer : PaintedLayer) :
  exists name base,
    has_dot name = true /\ has_dot base = true /\ name <> base
    /\ Font.glyphs ufo !! name = None /\ Font.glyphs ufo !! base = None
    /\ _create_glyph ufo cg layer
       = Ok (match reuses layer with
             | [] =>
                 Font.mk (Font.familyName ufo) (Font.unitsPerEm ufo)
                   (Font.objects ufo
                    ++ [Glyph.mk name (Font.unitsPerEm ufo) [] []
                          [DrawnPath (path layer)
                             (transform_for_font_space cg)]])
                   (<[name := length (Font.objects ufo)]> (Font.glyphs ufo))
                   (Font.glyphOrder ufo ++ [name])
                   (Font.keepGlyphNames ufo) (Font.colorPalettes ufo)
                   (Font.colorLayers ufo) (Font.features ufo)
             | _ :: _ =>
                 Font.mk (Font.familyName ufo) (Font.unitsPerEm ufo)
                   (Font.objects ufo
                    ++ [Glyph.mk name (Font.unitsPerEm ufo) []
                          (mkComponent base Affine2D.identity
                           :: (reuse_component base
                                 (transform_for_font_space cg)
                               <$> reuses layer)) [];
                        Glyph.mk base 0 [] []
                          [DrawnPath (path layer)
                             (transform_for_font_space cg)]])
                   (<[base := S (length (Font.objects ufo))]>
                      (<[name := length (Font.objects ufo)]> (Font.glyphs ufo)))
                   (Font.glyphOrder ufo ++ [name; base])
                   (Font.keepGlyphNames ufo) (Font.colorPalettes ufo)
                   (Font.colorLayers ufo) (Font.features ufo)
             end, length (Font.objects ufo)).
Proof.
  unfold _create_glyph.
  destruct (next_name_spec ufo (fun i => glyph_name_ cg +:+ "." +:+ pretty i))
    as (name & -> & Hfresh & i & Hname).
  { intros i j E. apply String.app_inj, String.app_inj in E.
    by apply (inj pretty). }
  simpl. rewrite newGlyph_fresh by done. simpl.
  destruct (next_name_spec
    (Font.update (length (Font.objects ufo))
       (Glyph.set_width (Font.unitsPerEm ufo))
       (Font.set_glyphs
          (<[name := length (Font.objects ufo)]> (Font.glyphs ufo))
          (Font.set_objects (Font.objects ufo ++ [Glyph.new name]) ufo)))
    (fun i => name +:+ ".component." +:+ pretty i))
    as (base & Hbase & Hbfresh & j & Hbname).
  { intros i1 i2 E. apply String.app_inj, String.app_inj in E.
    by apply (inj pretty). }
  simpl in Hbfresh.
  assert (name <> base) as Hne.
  { intros <-. by rewrite lookup_insert_eq in Hbfresh. }
  rewrite lookup_insert_ne in Hbfresh by done.
  exists name, base.
  split; [subst name; apply dotted_name|].
  split; [subst base; apply dotted_component_name|].
  do 3 (split; [done|]).
  clear Hname Hbname.
  destruct (reuses layer) as [|r rs] eqn:Hr.
  - clear Hbase. destruct ufo as [fam upem objs gl order keep pal lay feat].
    cbn [mbind result_bind].
    cbv [_draw Font.update Font.set_glyphOrder Font.set_glyphs
         Font.set_objects Font.objects Font.glyphs Font.glyphOrder
         Font.familyName Font.unitsPerEm Font.keepGlyphNames
         Font.colorPalettes Font.colorLayers Font.features].
    rewrite list_alter_alter_eq, alter_app_last. done.
  - rewrite Hbase. cbn [mbind result_bind]. rewrite newGlyph_fresh.
    2:{ simpl. by rewrite lookup_insert_ne. }
    cbn [mbind result_bind]. rewrite fold_update.
    clear Hbase. destruct ufo as [fam upem objs gl order keep pal lay feat].
    cbv [_draw Font.update Font.set_glyphOrder Font.set_glyphs
         Font.set_objects Font.objects Font.glyphs Font.glyphOrder
         Font.familyName Font.unitsPerEm Font.keepGlyphNames
         Font.colorPalettes Font.colorLayers Font.features].
    rewrite !list_alter_alter_eq.
    rewrite !alter_app_last.
    rewrite length_app, Nat.add_1_r. cbn [length].
    do 2 f_equal.
    rewrite <- app_assoc. cbn [app].
    rewrite (alter_app_r_alt _ _ _ (length objs)) by lia.
    rewrite Nat.sub_diag. cbn [alter list_alter].
    do 2 f_equal. unfold compose.
    rewrite (fold_append_component
               (reuse_component base (transform_for_font_space cg))).
    done.
Qed.
Local Transparent fold_left.

Lemma grows_refl (ufo : Font.t) : grows ufo ufo.
Proof.
  split; [done|]. split; [done|]. split; [done|]. intros n a H1 H2. congruence.
Qed.

Lemma deref_app_l (ufo ufo' : Font.t) (news : list Glyph.t) (a : nat) :
  Font.objects ufo' = Font.objects ufo ++ news ->
  a < length (Font.objects ufo) -> Font.deref ufo' a = Font.deref ufo a.
Proof.
  intros Hobj Ha. unfold Font.deref. rewrite Hobj. by rewrite lookup_app_l.
Qed.

Lemma grows_trans (ufo1 ufo2 ufo3 : Font.t) :
  grows ufo1 ufo2 -> grows ufo2 ufo3 -> grows ufo1 ufo3.
Proof.
  intros (Hl1 & Hn1 & Hm1 & Hf1) (Hl2 & Hn2 & Hm2 & Hf2).
  split; [lia|]. split; [|split].
  - intros a Ha. rewrite Hn2 by lia. by apply Hn1.
  - intros n a Hn. by apply Hm2, Hm1.
  - intros n a Hnone Hsome.
    destruct (Font.glyphs ufo2 !! n) as [a2|] eqn:E2.
    + pose proof (Hm2 _ _ E2) as E3. rewrite E3 in Hsome.
      injection Hsome as ->.
      destruct (Hf1 _ _ Hnone E2) as (? & ? & ?).
      split; [done|]. split; [lia|]. rewrite Hn2 by lia. done.
    + destruct (Hf2 _ _ E2 Hsome) as (? & ? & ?).
      split; [done|]. split; [lia | done].
Qed.

Lemma registered_grows (ufo ufo' : Font.t) (glyphs : GlyphsByKey) :
  grows ufo ufo' -> registered ufo glyphs -> registered ufo' glyphs.
Proof.
  intros (Hl & Hn & Hm & _) Hreg k a Hk.
  destruct (Hreg k a Hk) as [Ha Hname].
  split; [lia|]. rewrite Hn by done. by apply Hm.
Qed.

Lemma names_bound_grows (ufo ufo' : Font.t) :
  grows ufo ufo' -> names_bound ufo -> names_bound ufo'.
Proof.
  intros (Hl & _ & Hm & Hf) Hb n a Hn.
  destruct (Font.glyphs ufo !! n) as [a0|] eqn:E.
  - pose proof (Hm _ _ E) as E'. rewrite E' in Hn. injection Hn as ->.
    apply Hb in E. lia.
  - destruct (Hf _ _ E Hn) as (_ & ? & _). lia.
Qed.

Lemma well_named_grows (ufo ufo' : Font.t) :
  grows ufo ufo' -> well_named ufo -> well_named ufo'.
Proof.
  intros (Hl & Hnm & Hm & Hf) Hw n a Hn.
  destruct (Font.glyphs ufo !! n) as [a0|] eqn:E.
  - pose proof (Hm _ _ E) as E'. rewrite E' in Hn. injection Hn as ->.
    destruct (Hw _ _ E) as [? ?]. split; [lia|]. by rewrite Hnm.
  - destruct (Hf _ _ E Hn) as (_ & ? & ?). split; [lia | done].
Qed.

Lemma well_named_names_bound (ufo : Font.t) : well_named ufo -> names_bound ufo.
Proof. intros Hw n a Hn. by destruct (Hw n a Hn). Qed.

(** What [_create_glyph] leaves: the new objects after the old ones, under
    new names with a full stop, and the glyph it returns under its name. *)
Lemma create_glyph_grows (ufo : Font.t) (cg : ColorGlyph) (layer : PaintedLayer) :
  exists ufo',
    _create_glyph ufo cg layer = Ok (ufo', length (Font.objects ufo))
    /\ (exists news, Font.objects ufo' = Font.objects ufo ++ news)
    /\ grows ufo ufo'
    /\ same_lib ufo ufo'
    /\ length (Font.objects ufo) < length (Font.objects ufo')
    /\ has_dot (Glyph.name (Font.deref ufo' (length (Font.objects ufo)))) = true
    /\ Font.glyphs ufo' !! Glyph.name (Font.deref ufo' (length (Font.objects ufo)))
       = Some (length (Font.objects ufo)).
Proof.
  destruct (create_glyph_spec ufo cg layer)
    as (name & base & Hdn & Hdb & Hne & Hfn & Hfb & Hrun).
  eexists. split; [exact Hrun|].
  set (len := length (Font.objects ufo)) in *.
  destruct (reuses layer) as [|r rs]; simpl.
  - split; [eauto|]. unfold Font.deref. simpl.
    rewrite lookup_app_r by done. fold len. rewrite Nat.sub_diag. simpl.
    rewrite lookup_insert_eq.
    split; [|split; [done|]; split; [|done]].
    2:{ rewrite length_app. simpl. lia. }
    split; [simpl; rewrite length_app; lia|]. split; [|split]; simpl.
    + intros a Ha. unfold Font.deref. simpl. by rewrite lookup_app_l.
    + intros n a Hn. rewrite lookup_insert_ne; [done|]. congruence.
    + intros n a Hn. rewrite lookup_insert.
      case_decide as E; [|congruence]. subst n. intros [= <-].
      split; [done|]. rewrite length_app. simpl. fold len.
      split; [lia|]. unfold Font.deref. simpl.
      rewrite lookup_app_r by done. fold len. by rewrite Nat.sub_diag.
  - split; [eauto|]. unfold Font.deref. simpl.
    rewrite lookup_app_r by done. fold len. rewrite Nat.sub_diag. simpl.
    rewrite lookup_insert_ne by done. rewrite lookup_insert_eq.
    split; [|split; [done|]; split; [|done]].
    2:{ rewrite length_app. simpl. lia. }
    split; [simpl; rewrite length_app; lia|]. split; [|split]; simpl.
    + intros a Ha. unfold Font.deref. simpl. by rewrite lookup_app_l.
    + intros n a Hn. rewrite !lookup_insert_ne; [done| |]; congruence.
    + intros n a Hn. rewrite length_app. simpl. fold len.
      rewrite lookup_insert. case_decide as E1.
      * subst n. intros [= <-]. split; [done|]. split; [lia|].
        unfold Font.deref. simpl. rewrite lookup_app_r by (fold len; lia).
        fold len. replace (S len - len) with 1 by lia. done.
      * rewrite lookup_insert. case_decide as E2; [|congruence].
        subst n. intros [= <-]. split; [done|]. split; [lia|].
        unfold Font.deref. simpl. rewrite lookup_app_r by done.
        fold len. by rewrite Nat.sub_diag.
Qed.

(** The glyph of a layer: the one registered under its key, left as it is,
    or a new one, registered from then on. *)
Lemma glyph_for_layer_spec (ufo : Font.t) (glyphs : GlyphsByKey)
  (cg : ColorGlyph) (layer : PaintedLayer) :
  registered ufo glyphs ->
  exists ufo' glyphs' glyph,
    glyph_for_layer ufo glyphs cg layer = Ok (ufo', glyphs', glyph)
    /\ (exists news, Font.objects ufo' = Font.objects ufo ++ news)
    /\ grows ufo ufo'
    /\ same_lib ufo ufo'
    /\ registered ufo' glyphs'
    /\ glyphs' !! _inter_glyph_reuse_key layer = Some glyph
    /\ (forall a, glyphs !! _inter_glyph_reuse_key layer = Some a ->
          ufo' = ufo /\ glyphs' = glyphs /\ glyph = a)
    /\ (glyphs !! _inter_glyph_reuse_key layer = None ->
          glyphs' = <[_inter_glyph_reuse_key layer := glyph]> glyphs
          /\ glyph = length (Font.objects ufo)
          /\ has_dot (Glyph.name (Font.deref ufo' glyph)) = true).
Proof.
  intros Hreg. unfold glyph_for_layer.
  destruct (glyphs !! _inter_glyph_reuse_key layer) as [a|] eqn:Hk.
  - exists ufo, glyphs, a. split; [done|].
    split; [exists []; by rewrite app_nil_r|].
    split; [apply grows_refl|]. split; [done|].
    split; [done|]. split; [done|]. split; [|done].
    intros ? [= <-]. done.
  - destruct (create_glyph_grows ufo cg layer)
      as (ufo' & -> & Hnews & Hgrows & Hlib & Hlen & Hdot & Hname).
    simpl. eexists _, _, _. split; [done|].
    split; [done|]. split; [done|]. split; [done|].
    split; [|split; [apply lookup_insert_eq | split; [done|done]]].
    intros k a. rewrite lookup_insert. case_decide as E.
    + intros [= <-]. done.
    + intros Ha. eapply registered_grows; eauto.
Qed.


(* ===================================================================== *)
(** * Properties: the run of the COLR encoder *)
(* ===================================================================== *)

Lemma deref_update (ufo : Font.t) (a a' : nat) (m : Glyph.t -> Glyph.t) :
  Font.deref (Font.update a m ufo) a'
  = if decide (a = a' /\ a < length (Font.objects ufo))
    then m (Font.deref ufo a') else Font.deref ufo a'.
Proof.
  case_decide as H.
  - destruct H as [<- Ha]. by apply deref_update_eq.
  - destruct (decide (a = a')) as [<-|Hne]; [|by apply deref_update_ne].
    unfold Font.deref, Font.update. simpl. rewrite list_lookup_alter_eq.
    rewrite (lookup_ge_None_2 (Font.objects ufo) a); [done|]. lia.
Qed.

Lemma name_deref_update (ufo : Font.t) (a a' : nat) (m : Glyph.t -> Glyph.t) :
  (forall g, Glyph.name (m g) = Glyph.name g) ->
  Glyph.name (Font.deref (Font.update a m ufo) a') = Glyph.name (Font.deref ufo a').
Proof. intros Hm. rewrite deref_update. by case_decide. Qed.

Lemma grows_update (ufo : Font.t) (a : nat) (m : Glyph.t -> Glyph.t) :
  (forall g, Glyph.name (m g) = Glyph.name g) ->
  grows ufo (Font.update a m ufo).
Proof.
  intros Hm. split; [by rewrite length_objects_update|].
  split; [intros; by apply name_deref_update|].
  split; [done|]. simpl. intros n a' H1 H2. congruence.
Qed.

Lemma same_lib_trans (ufo1 ufo2 ufo3 : Font.t) :
  same_lib ufo1 ufo2 -> same_lib ufo2 ufo3 -> same_lib ufo1 ufo3.
Proof.
  unfold same_lib. intros (?&?&?&?&?&?) (?&?&?&?&?&?).
  repeat split; congruence.
Qed.

Lemma same_lib_update (ufo : Font.t) (a : nat) (m : Glyph.t -> Glyph.t) :
  same_lib ufo (Font.update a m ufo).
Proof. done. Qed.

Lemma result_bind_Ok_inv {A B} (m : result A) (k : A -> result B) (y : B) :
  m ≫= k = Ok y -> exists x, m = Ok x /\ k x = Ok y.
Proof. apply result_bind_Ok. Qed.

(** The layers of one glyph. *)
Lemma colr_ufo_layers_spec (v : Z) (colors : list Color) (cg : ColorGlyph)
  (layers : list PaintedLayer) (ufo : Font.t) (glyphs : GlyphsByKey)
  (acc : list (string * ColrPaint)) (ufo' : Font.t) (glyphs' : GlyphsByKey)
  (acc' : list (string * ColrPaint)) :
  registered ufo glyphs ->
  foldM (_colr_ufo_layer v colors cg) (ufo, glyphs, acc) layers
  = Ok (ufo', glyphs', acc') ->
  grows ufo ufo' /\ same_lib ufo ufo' /\ registered ufo' glyphs'
  /\ (forall k a, glyphs !! k = Some a -> glyphs' !! k = Some a)
  /\ exists entries,
       acc' = acc ++ entries /\ length entries = length layers
       /\ forall i layer, layers !! i = Some layer ->
            exists glyph p,
              glyphs' !! _inter_glyph_reuse_key layer = Some glyph
              /\ entries !! i = Some (Glyph.name (Font.deref ufo' glyph), p)
              /\ _colr_paint v (paint layer) colors = Ok p.
Proof.
  revert ufo glyphs acc.
  induction layers as [|layer layers IH]; intros ufo glyphs acc Hreg Hrun.
  - simpl in Hrun. injection Hrun as <- <- <-.
    split; [apply grows_refl|]. split; [done|]. split; [done|].
    split; [done|]. exists []. rewrite app_nil_r. split; [done|].
    split; [done|]. intros i layer Hi. done.
  - simpl in Hrun.
    apply result_bind_Ok_inv in Hrun as ([[ufo1 glyphs1] acc1] & Hstep & Hrun).
    unfold _colr_ufo_layer in Hstep.
    destruct (glyph_for_layer_spec ufo glyphs cg layer Hreg)
      as (ufo1' & glyphs1' & glyph & Hg & _ & Hgrow1 & Hlib1 & Hreg1 & Hkey
          & Hold & Hnew).
    rewrite Hg in Hstep. simpl in Hstep.
    destruct (_colr_paint v (paint layer) colors) as [p|] eqn:Hp; [|done].
    simpl in Hstep. injection Hstep as <- <- <-.
    destruct (IH _ _ _ Hreg1 Hrun)
      as (Hgrow2 & Hlib2 & Hreg2 & Hmono2 & entries & -> & Hlen & Hent).
    split; [by eapply grows_trans|]. split; [by eapply same_lib_trans|].
    split; [done|]. split.
    { intros k a Hk. apply Hmono2.
      destruct (glyphs !! _inter_glyph_reuse_key layer) as [a0|] eqn:E.
      - destruct (Hold a0 eq_refl) as (_ & -> & _). done.
      - destruct (Hnew eq_refl) as (-> & _). rewrite lookup_insert_ne; [done|].
        congruence. }
    exists ((Glyph.name (Font.deref ufo1' glyph), p) :: entries).
    split; [by rewrite <- app_assoc|]. split; [simpl; lia|].
    intros [|i] layer' Hi; simpl in Hi.
    + injection Hi as <-. exists glyph, p.
      split; [by apply Hmono2|]. split; [|done]. simpl. do 2 f_equal.
      destruct Hgrow2 as (_ & Hnm & _). symmetry. apply Hnm.
      by destruct (Hreg1 _ _ Hkey).
    + destruct (Hent i layer' Hi) as (g' & p' & ? & ? & ?).
      exists g', p'. done.
Qed.

(** The glyphs of the list. *)
Lemma colr_ufo_glyphs_spec (v : Z) (colors : list Color)
  (cgs : list ColorGlyph) (ufo : Font.t) (glyphs : GlyphsByKey)
  (cl : ColorLayers) (ufo' : Font.t) (glyphs' : GlyphsByKey)
  (cl' : ColorLayers) :
  well_named ufo -> registered ufo glyphs ->
  foldM (_colr_ufo_glyph v colors) (ufo, glyphs, cl) cgs
  = Ok (ufo', glyphs', cl') ->
  grows ufo ufo' /\ same_lib ufo ufo' /\ well_named ufo'
  /\ registered ufo' glyphs'
  /\ (forall k a, glyphs !! k = Some a -> glyphs' !! k = Some a)
  /\ (forall n, n ∉ glyph_name_ <$> cgs -> cl' !! n = cl !! n)
  /\ (NoDup (glyph_name_ <$> cgs) ->
      forall g, g ∈ cgs ->
        exists entries,
          cl' !! glyph_name_ g = Some entries
          /\ length entries = length (as_painted_layers g)
          /\ forall i layer, as_painted_layers g !! i = Some layer ->
               exists glyph p,
                 glyphs' !! _inter_glyph_reuse_key layer = Some glyph
                 /\ entries !! i
                    = Some (Glyph.name (Font.deref ufo' glyph), p)
                 /\ _colr_paint v (paint layer) colors = Ok p).
Proof.
  revert ufo glyphs cl.
  induction cgs as [|g cgs IH]; intros ufo glyphs cl Hwn Hreg Hrun.
  - simpl in Hrun. injection Hrun as <- <- <-.
    split; [apply grows_refl|]. do 5 (split; [done|]).
    intros _ g Hg. inversion Hg.
  - simpl in Hrun.
    apply result_bind_Ok_inv in Hrun as ([[ufo2 glyphs2] cl2] & Hstep & Hrun).
    unfold _colr_ufo_glyph in Hstep.
    apply result_bind_Ok_inv in Hstep as ([[ufo1 glyphs1] entries] & Hlayers & Hstep).
    destruct (colr_ufo_layers_spec _ _ _ _ _ _ _ _ _ _ Hreg Hlayers)
      as (Hgrow1 & Hlib1 & Hreg1 & Hmono1 & entries' & Hacc & Hlen & Hent).
    simpl in Hacc. subst entries'.
    destruct (Font.get ufo1 (glyph_name_ g)) as [colr_glyph|] eqn:Hget; [|done].
    injection Hstep as <- <- <-.
    assert (grows ufo1 (_draw_glyph_extents ufo1 colr_glyph)) as Hgrow1'
      by (by apply grows_update).
    pose proof (well_named_grows _ _ Hgrow1 Hwn) as Hwn1.
    pose proof (well_named_grows _ _ Hgrow1' Hwn1) as Hwn1'.
    pose proof (registered_grows _ _ _ Hgrow1' Hreg1) as Hreg1'.
    assert (Glyph.name (Font.deref (_draw_glyph_extents ufo1 colr_glyph)
                          colr_glyph) = glyph_name_ g) as Hname.
    { by destruct (Hwn1' (glyph_name_ g) colr_glyph Hget). }
    rewrite Hname in Hrun.
    destruct (IH _ _ _ Hwn1' Hreg1' Hrun)
      as (Hgrow2 & Hlib2 & Hwn2 & Hreg2 & Hmono2 & Hcl2 & Hall).
    split; [eauto using grows_trans|].
    split; [eauto using same_lib_trans, same_lib_update|].
    split; [done|]. split; [done|]. split; [eauto|]. split.
    { intros n Hn. rewrite fmap_cons in Hn.
      apply not_elem_of_cons in Hn as [Hn1 Hn2].
      rewrite Hcl2 by done. by rewrite lookup_insert_ne. }
    intros Hnd g' Hg'. rewrite fmap_cons in Hnd.
    apply NoDup_cons in Hnd as [Hg Hnd].
    apply elem_of_cons in Hg' as [->|Hg']; [|by apply Hall].
    exists entries. rewrite Hcl2 by done. rewrite lookup_insert_eq.
    split; [done|]. split; [done|].
    intros i layer Hi. destruct (Hent i layer Hi) as (glyph & p & Hk & He & Hp).
    exists glyph, p. split; [by apply Hmono2|]. split; [|done].
    rewrite He. do 2 f_equal.
    destruct (Hreg1 _ _ Hk) as [Hlt _].
    destruct Hgrow2 as (_ & Hnm2 & _). destruct Hgrow1' as (Hl1 & Hnm1 & _).
    rewrite Hnm2 by lia. by rewrite Hnm1.
Qed.


(* ===================================================================== *)
(** * Properties: the run of the glyf encoder *)
(* ===================================================================== *)

Lemma components_append (ufo : Font.t) (parent : nat) (comp : Component) :
  parent < length (Font.objects ufo) ->
  Glyph.components
    (Font.deref (Font.update parent (Glyph.append_component comp) ufo) parent)
  = Glyph.components (Font.deref ufo parent) ++ [comp].
Proof. intros Hp. by rewrite deref_update_eq. Qed.

(** The layers of one glyph: every layer adds to the parent a component
    that names the glyph registered under the layer's key; no other old
    glyph object changes. *)
Lemma glyf_ufo_layers_spec (cg : ColorGlyph) (parent : nat)
  (layers : list PaintedLayer) (ufo : Font.t) (glyphs : GlyphsByKey) :
  registered ufo glyphs ->
  parent < length (Font.objects ufo) ->
  exists ufo' glyphs',
    foldM (_glyf_ufo_layer cg (Some parent)) (ufo, glyphs) layers
    = Ok (ufo', glyphs')
    /\ grows ufo ufo' /\ same_lib ufo ufo' /\ registered ufo' glyphs'
    /\ (forall k a, glyphs !! k = Some a -> glyphs' !! k = Some a)
    /\ (forall k a, glyphs' !! k = Some a ->
          glyphs !! k = Some a
          \/ (length (Font.objects ufo) <= a
              /\ has_dot (Glyph.name (Font.deref ufo' a)) = true))
    /\ (forall a, a < length (Font.objects ufo) -> a <> parent ->
          Font.deref ufo' a = Font.deref ufo a)
    /\ exists comps,
         Glyph.components (Font.deref ufo' parent)
         = Glyph.components (Font.deref ufo parent) ++ comps
         /\ length comps = length layers
         /\ forall i layer, layers !! i = Some layer ->
              exists glyph comp,
                glyphs' !! _inter_glyph_reuse_key layer = Some glyph
                /\ comps !! i = Some comp
                /\ baseGlyph comp = Glyph.name (Font.deref ufo' glyph).
Proof.
  revert ufo glyphs.
  induction layers as [|layer layers IH]; intros ufo glyphs Hreg Hp.
  - exists ufo, glyphs. split; [done|]. split; [apply grows_refl|].
    split; [done|]. split; [done|]. split; [done|]. split; [auto|].
    split; [done|]. exists []. rewrite app_nil_r. split; [done|].
    split; [done|]. intros i layer Hi. done.
  - destruct (glyph_for_layer_spec ufo glyphs cg layer Hreg)
      as (ufo1 & glyphs1 & glyph & Hg & (news & Hnews) & Hgrow1 & Hlib1
          & Hreg1 & Hkey & Hold & Hnew).
    set (comp := mkComponent (Glyph.name (Font.deref ufo1 glyph))
                   Affine2D.identity).
    set (ufo2 := Font.update parent (Glyph.append_component comp) ufo1).
    assert (grows ufo1 ufo2) as Hgrow12 by (by apply grows_update).
    assert (length (Font.objects ufo) <= length (Font.objects ufo1)) as Hlen1
      by (by destruct Hgrow1).
    assert (length (Font.objects ufo2) = length (Font.objects ufo1)) as Hlen2
      by apply length_objects_update.
    destruct (IH ufo2 glyphs1) as (ufo' & glyphs' & Hrun & Hgrow2 & Hlib2
      & Hreg2 & Hmono2 & Horigin2 & Hframe2 & comps & Hcomps & Hclen & Hplaced).
    { by eapply registered_grows. }
    { lia. }
    exists ufo', glyphs'. split.
    { simpl. unfold _glyf_ufo_layer at 1. rewrite Hg. simpl. exact Hrun. }
    split; [eauto using grows_trans|].
    split; [eauto using same_lib_trans, same_lib_update|].
    split; [done|].
    assert (forall k a, glyphs !! k = Some a -> glyphs1 !! k = Some a) as Hmono1.
    { intros k a Hk.
      destruct (glyphs !! _inter_glyph_reuse_key layer) as [a0|] eqn:E.
      - destruct (Hold a0 eq_refl) as (_ & -> & _). done.
      - destruct (Hnew eq_refl) as (-> & _). rewrite lookup_insert_ne; [done|].
        congruence. }
    split; [eauto|]. split.
    { intros k a Hk. destruct (Horigin2 k a Hk) as [Hk1|[Hge Hdot]].
      - destruct (glyphs !! _inter_glyph_reuse_key layer) as [a0|] eqn:E.
        + destruct (Hold a0 eq_refl) as (_ & -> & _). by left.
        + destruct (Hnew eq_refl) as (-> & -> & Hdot).
          rewrite lookup_insert in Hk1. case_decide as Ek.
          * injection Hk1 as <-. right. split; [done|].
            destruct Hgrow2 as (_ & Hnm2 & _). destruct Hgrow12 as (_ & Hnm12 & _).
            destruct (Hreg1 _ _ Hkey) as [Hlt _].
            rewrite Hnm2 by lia. rewrite Hnm12 by lia. done.
          * by left.
      - right. split; [lia | done]. }
    split.
    { intros a Ha Hne. rewrite Hframe2 by lia.
      unfold ufo2. rewrite deref_update_ne by done.
      by eapply deref_app_l. }
    exists (comp :: comps). split.
    { rewrite Hcomps. unfold ufo2. rewrite components_append by lia.
      rewrite (deref_app_l ufo ufo1 news) by done.
      by rewrite <- app_assoc. }
    split; [simpl; lia|].
    intros [|i] layer' Hi; simpl in Hi.
    + injection Hi as <-. exists glyph, comp.
      split; [by apply Hmono2|]. split; [done|]. simpl.
      destruct Hgrow2 as (_ & Hnm2 & _). destruct Hgrow12 as (_ & Hnm12 & _).
      destruct (Hreg1 _ _ Hkey) as [Hlt _].
      rewrite Hnm2 by lia. rewrite Hnm12 by lia. done.
    + apply (Hplaced i layer' Hi).
Qed.

Lemma deref_setitem (ufo : Font.t) (name : string) (glyph a : nat) :
  Font.deref (Font.setitem ufo name glyph) a
  = if decide (glyph = a /\ glyph < length (Font.objects ufo))
    then Glyph.set_name name (Font.deref ufo a) else Font.deref ufo a.
Proof. unfold Font.setitem. apply (deref_update ufo glyph a). Qed.

Lemma components_deref_setitem (ufo : Font.t) (name : string) (glyph a : nat) :
  Glyph.components (Font.deref (Font.setitem ufo name glyph) a)
  = Glyph.components (Font.deref ufo a).
Proof. rewrite deref_setitem. by case_decide. Qed.

Lemma glyphs_setitem (ufo : Font.t) (name : string) (glyph : nat) :
  Font.glyphs (Font.setitem ufo name glyph) = <[name := glyph]> (Font.glyphs ufo).
Proof. done. Qed.

Lemma length_objects_setitem (ufo : Font.t) (name : string) (glyph : nat) :
  length (Font.objects (Font.setitem ufo name glyph))
  = length (Font.objects ufo).
Proof. unfold Font.setitem. apply (length_objects_update ufo glyph). Qed.

(** A glyph that is done stays done while the font keeps the components of
    its parent, the registered glyphs and the names its components use. *)
Lemma glyph_encoded_frame (ufo0 ufo ufo' : Font.t) (glyphs glyphs' : GlyphsByKey)
  (done done' : list string) (g : ColorGlyph) :
  glyph_encoded ufo0 ufo glyphs done g ->
  (forall p, Font.glyphs ufo0 !! glyph_name_ g = Some p ->
     Glyph.components (Font.deref ufo' p) = Glyph.components (Font.deref ufo p)) ->
  (forall k a, glyphs !! k = Some a -> glyphs' !! k = Some a) ->
  (forall n a, Font.glyphs ufo !! n = Some a ->
     has_dot n = true \/ n ∈ done \/ n = glyph_name_ g ->
     Font.glyphs ufo' !! n = Some a) ->
  (forall n, n ∈ done -> n ∈ done') ->
  glyph_encoded ufo0 ufo' glyphs' done' g.
Proof.
  intros (parent & Hp & Hlen & Hplaced & Hone & Hmany) Hcomps Hmono Hnames Hdone.
  pose proof (Hcomps parent Hp) as Hc.
  exists parent. split; [done|]. split; [by rewrite Hc|]. split; [|split].
  - intros i layer Hi.
    destruct (Hplaced i layer Hi) as (glyph & comp & Hk & Hci & Hb & Hd).
    exists glyph, comp. split; [by apply Hmono|]. split; [by rewrite Hc|].
    split; [apply Hnames; [done|]; destruct Hd; auto|].
    destruct Hd; auto.
  - intros comp Hcomp. rewrite Hc in Hcomp.
    destruct (Hone comp Hcomp) as (child & Hb & Hg).
    exists child. split; [|apply Hnames; auto].
    apply Hnames; [done|].
    assert (exists layer, as_painted_layers g !! 0 = Some layer) as [layer Hl].
    { apply lookup_lt_is_Some. rewrite <- Hlen, Hcomp. simpl. lia. }
    destruct (Hplaced 0 layer Hl) as (glyph & comp' & _ & Hc0 & _ & Hd).
    rewrite Hcomp in Hc0. injection Hc0 as <-. destruct Hd; auto.
  - intros Hne. rewrite Hc in Hne. apply Hnames; auto.
Qed.

(** One color glyph: the encoder does not fail and keeps its invariant. *)
Lemma glyf_ufo_glyph_spec (ufo0 : Font.t) (cgs done : list ColorGlyph)
  (g : ColorGlyph) (ufo : Font.t) (glyphs : GlyphsByKey) :
  glyf_ready ufo0 cgs -> g ∈ cgs -> (forall g', g' ∈ done -> g' ∈ cgs) ->
  glyph_name_ g ∉ glyph_name_ <$> done ->
  glyf_inv ufo0 done ufo glyphs ->
  exists ufo' glyphs',
    _glyf_ufo_glyph (ufo, glyphs) g = Ok (ufo', glyphs')
    /\ glyf_inv ufo0 (done ++ [g]) ufo' glyphs'
    /\ same_lib ufo ufo'.
Proof.
  intros (Hwn0 & Hnd & Hcg) Hg Hdone Hfresh (Hb & Hlen & HR & HM & HO & HF).
  destruct (Hcg g Hg) as (Hnodot & parent & Hparent0 & Hcomps0).
  destruct (Hwn0 _ _ Hparent0) as [Hplt Hpname].
  assert (forall g', g' ∈ done -> Font.glyphs ufo0 !! glyph_name_ g' <> Some parent)
    as Hothers.
  { intros g' Hg' E. destruct (Hwn0 _ _ E) as [_ En].
    apply Hfresh. rewrite <- Hpname, En. apply list_elem_of_fmap. eauto. }
  assert (Font.glyphs ufo !! glyph_name_ g = Some parent) as Hparent
    by (by rewrite HM).
  assert (Font.deref ufo parent = Font.deref ufo0 parent) as Hpobj
    by (by apply HO).
  assert (registered ufo glyphs) as Hreg.
  { intros k a Hk. destruct (HR k a Hk) as (? & ? & _). split; [lia | done]. }
  destruct (glyf_ufo_layers_spec g parent (as_painted_layers g) ufo glyphs Hreg)
    as (ufo1 & glyphs1 & Hrun & Hgrow & Hlib & Hreg1 & Hmono & Horigin & Hframe
        & comps & Hcomps & Hclen & Hplaced); [lia|].
  rewrite Hpobj, Hcomps0 in Hcomps. simpl in Hcomps.
  pose proof Hgrow as (Hlen1 & Hnm1 & Hm1 & Hf1).
  (* the registered glyphs after the layers *)
  assert (forall k a, glyphs1 !! k = Some a ->
            length (Font.objects ufo0) <= a < length (Font.objects ufo1)
            /\ Font.glyphs ufo1 !! Glyph.name (Font.deref ufo1 a) = Some a
            /\ (has_dot (Glyph.name (Font.deref ufo1 a)) = true
                \/ Glyph.name (Font.deref ufo1 a) ∈ glyph_name_ <$> done))
    as HR1.
  { intros k a Hk. destruct (Hreg1 k a Hk) as [Hlt Hname].
    split; [|split; [done|]].
    - destruct (Horigin k a Hk) as [Hk0|[Hge _]]; [|lia].
      destruct (HR k a Hk0) as (? & _). lia.
    - destruct (Horigin k a Hk) as [Hk0|[_ Hdot]]; [|by left].
      destruct (HR k a Hk0) as (? & _ & Hd). rewrite Hnm1 by lia. done. }
  (* names without a full stop are as before the layers *)
  assert (forall n, has_dot n = false ->
            Font.glyphs ufo1 !! n = Font.glyphs ufo !! n) as HD.
  { intros n Hn. destruct (Font.glyphs ufo !! n) as [a|] eqn:E; [by apply Hm1|].
    destruct (Font.glyphs ufo1 !! n) as [a|] eqn:E1; [|done].
    destruct (Hf1 n a E E1) as (Hdot & _). congruence. }
  (* the components of the glyph name registered glyphs *)
  assert (forall i layer, as_painted_layers g !! i = Some layer ->
            exists glyph comp,
              glyphs1 !! _inter_glyph_reuse_key layer = Some glyph
              /\ comps !! i = Some comp
              /\ Font.glyphs ufo1 !! baseGlyph comp = Some glyph
              /\ (has_dot (baseGlyph comp) = true
                  \/ baseGlyph comp ∈ glyph_name_ <$> done)) as Hplaced1.
  { intros i layer Hi. destruct (Hplaced i layer Hi) as (glyph & comp & Hk & Hc & Hbn).
    exists glyph, comp. destruct (HR1 _ _ Hk) as (_ & Hname & Hd).
    rewrite Hbn. done. }
  assert (forall n : string, n ∈ glyph_name_ <$> done ->
            n ∈ glyph_name_ <$> (done ++ [g])) as Hsub.
  { intros n Hn. rewrite fmap_app. apply elem_of_app. by left. }
  assert (glyph_name_ g ∈ glyph_name_ <$> (done ++ [g])) as Hgin.
  { rewrite fmap_app. apply elem_of_app. right. simpl. left. }
  assert (forall n, has_dot n = true \/ n ∈ glyph_name_ <$> done ->
            n <> glyph_name_ g) as Hneq.
  { intros n [Hd|Hd] ->; [congruence | done]. }
  assert (forall g', g' ∈ done -> forall p,
            Font.glyphs ufo0 !! glyph_name_ g' = Some p ->
            p < length (Font.objects ufo) /\ p <> parent
            /\ Font.deref ufo1 p = Font.deref ufo p) as Hdoneparent.
  { intros g' Hg' p Hp. destruct (Hwn0 _ _ Hp) as [Hlt _].
    assert (p <> parent) by (intros ->; by eapply Hothers).
    split; [lia|]. split; [done|]. apply Hframe; [lia | done]. }
  unfold _glyf_ufo_glyph. unfold Font.get. rewrite Hparent, Hrun. simpl.
  rewrite Hcomps.
  destruct comps as [|comp [|comp2 comps]].
  - (* no layer: the parent stays *)
    eexists _, _. split; [done|]. split; [|done].
    split; [by eapply names_bound_grows|]. split; [lia|].
    split; [|split; [|split]].
    + intros k a Hk. destruct (HR1 k a Hk) as (? & ? & Hd).
      split; [done|]. split; [done|]. destruct Hd; auto.
    + intros n Hn Hnin. rewrite HD by done. apply HM; [done|].
      intros Hin. apply Hnin. by apply Hsub.
    + intros a Ha Hnone. rewrite Hframe.
      * apply HO; [done|]. intros g' Hg'. apply Hnone.
        apply elem_of_app. by left.
      * lia.
      * intros ->. apply (Hnone g); [|done]. apply elem_of_app. right. left.
    + intros g' Hg'. apply elem_of_app in Hg' as [Hg'|Hg'].
      * eapply (glyph_encoded_frame ufo0 ufo ufo1); [by apply HF| | | |done].
        -- intros p Hp. by destruct (Hdoneparent g' Hg' p Hp) as (_ & _ & ->).
        -- done.
        -- intros n a Hn _. by apply Hm1.
      * apply list_elem_of_singleton in Hg' as ->.
        exists parent. split; [done|]. rewrite Hcomps.
        split; [done|]. split; [|split].
        -- intros i layer Hi. apply lookup_lt_Some in Hi.
           simpl in Hclen. lia.
        -- intros comp [=].
        -- intros _. by apply Hm1.
  - (* one layer: the name is bound to the one component's glyph *)
    destruct (as_painted_layers g) as [|layer [|??]] eqn:Hlayers; try done.
    destruct (Hplaced1 0 layer eq_refl) as (child & comp' & Hk & Hc & Hchild & Hd).
    injection Hc as <-.
    unfold Font.getitem. rewrite Hchild. simpl.
    destruct (HR1 _ _ Hk) as (Hcrange & Hcname & Hcd).
    assert (child <> parent) as Hcp by lia.
    eexists _, _. split; [done|]. split; [|done].
    split; [|split; [|split; [|split; [|split]]]].
    + intros n a. rewrite glyphs_setitem, length_objects_setitem.
      rewrite lookup_insert. case_decide.
      * intros [= <-]. lia.
      * apply (names_bound_grows _ _ Hgrow Hb).
    + rewrite length_objects_setitem. lia.
    + intros k a Hka. destruct (HR1 k a Hka) as (Harange & Haname & Had).
      rewrite length_objects_setitem, glyphs_setitem, deref_setitem.
      split; [done|]. case_decide as E.
      * destruct E as [<- _]. simpl. rewrite lookup_insert_eq.
        split; [done|]. by right.
      * assert (a <> child) by (intros ->; apply E; split; [done | lia]).
        rewrite lookup_insert_ne by (symmetry; by apply Hneq).
        split; [done|]. destruct Had; auto.
    + intros n Hn Hnin. rewrite glyphs_setitem.
      rewrite lookup_insert_ne by (intros <-; by apply Hnin).
      rewrite HD by done. apply HM; [done|].
      intros Hin. apply Hnin. by apply Hsub.
    + intros a Ha Hnone. rewrite deref_setitem.
      rewrite decide_False by (intros [<- _]; lia).
      rewrite Hframe.
      * apply HO; [done|]. intros g' Hg'. apply Hnone.
        apply elem_of_app. by left.
      * lia.
      * intros ->. apply (Hnone g); [|done]. apply elem_of_app. right. left.
    + intros g' Hg'. apply elem_of_app in Hg' as [Hg'|Hg'].
      * eapply (glyph_encoded_frame ufo0 ufo); [by apply HF| | | |done].
        -- intros p Hp. rewrite components_deref_setitem.
           by destruct (Hdoneparent g' Hg' p Hp) as (_ & _ & ->).
        -- done.
        -- intros n a Hn Hor. rewrite glyphs_setitem.
           rewrite lookup_insert_ne; [by apply Hm1|].
           destruct Hor as [? | [? | ->]].
           ++ symmetry. apply Hneq. by left.
           ++ symmetry. apply Hneq. by right.
           ++ intros E. apply Hfresh. rewrite E.
              apply list_elem_of_fmap. eauto.
      * apply list_elem_of_singleton in Hg' as ->.
        exists parent. split; [done|].
        rewrite components_deref_setitem, Hcomps, Hlayers.
        split; [done|]. split; [|split].
        -- intros [|i] layer' Hi; [|done]. injection Hi as <-.
           exists child, comp.
           rewrite components_deref_setitem, Hcomps, glyphs_setitem.
           rewrite lookup_insert_ne by (symmetry; by apply Hneq).
           do 3 (split; [done|]). destruct Hd; auto.
        -- intros comp' [= <-]. exists child. rewrite glyphs_setitem.
           rewrite lookup_insert_eq.
           rewrite lookup_insert_ne by (symmetry; by apply Hneq). done.
        -- simpl. done.
  - (* several layers: the parent stays, with its components *)
    eexists _, _. split; [done|]. split; [|done].
    split; [by eapply names_bound_grows|]. split; [lia|].
    split; [|split; [|split]].
    + intros k a Hk. destruct (HR1 k a Hk) as (? & ? & Hd).
      split; [done|]. split; [done|]. destruct Hd; auto.
    + intros n Hn Hnin. rewrite HD by done. apply HM; [done|].
      intros Hin. apply Hnin. by apply Hsub.
    + intros a Ha Hnone. rewrite Hframe.
      * apply HO; [done|]. intros g' Hg'. apply Hnone.
        apply elem_of_app. by left.
      * lia.
      * intros ->. apply (Hnone g); [|done]. apply elem_of_app. right. left.
    + intros g' Hg'. apply elem_of_app in Hg' as [Hg'|Hg'].
      * eapply (glyph_encoded_frame ufo0 ufo ufo1); [by apply HF| | | |done].
        -- intros p Hp. by destruct (Hdoneparent g' Hg' p Hp) as (_ & _ & ->).
        -- done.
        -- intros n a Hn _. by apply Hm1.
      * apply list_elem_of_singleton in Hg' as ->.
        exists parent. split; [done|]. rewrite Hcomps.
        split; [done|]. split; [|split].
        -- intros i layer Hi.
           destruct (Hplaced1 i layer Hi) as (glyph & c & ? & ? & ? & Hd').
           exists glyph, c. rewrite Hcomps. do 3 (split; [done|]).
           destruct Hd'; auto.
        -- intros c [=].
        -- intros _. by apply Hm1.
Qed.

Lemma glyf_inv_start (ufo0 : Font.t) :
  well_named ufo0 -> glyf_inv ufo0 [] ufo0 ∅.
Proof.
  intros Hwn. split; [by apply well_named_names_bound|]. split; [done|].
  split; [intros k a Hk; by rewrite lookup_empty in Hk|].
  split; [done|]. split; [done|]. intros g Hg. inversion Hg.
Qed.

(** The run of the glyf encoder from any state between two glyphs. *)
Lemma glyf_ufo_run_from (ufo0 : Font.t) (cgs todo done : list ColorGlyph)
  (ufo : Font.t) (glyphs : GlyphsByKey) :
  glyf_ready ufo0 cgs -> cgs = done ++ todo ->
  glyf_inv ufo0 done ufo glyphs ->
  exists ufo' glyphs',
    foldM _glyf_ufo_glyph (ufo, glyphs) todo = Ok (ufo', glyphs')
    /\ glyf_inv ufo0 cgs ufo' glyphs'
    /\ same_lib ufo ufo'.
Proof.
  intros Hready. revert done ufo glyphs.
  induction todo as [|g todo IH]; intros done ufo glyphs Hcgs Hinv.
  - rewrite app_nil_r in Hcgs. subst done. by exists ufo, glyphs.
  - pose proof Hready as (_ & Hnd & _).
    destruct (glyf_ufo_glyph_spec ufo0 cgs done g ufo glyphs Hready)
      as (ufo1 & glyphs1 & Hstep & Hinv1 & Hlib1); [| | |done|].
    { rewrite Hcgs. apply elem_of_app. right. left. }
    { intros g' Hg'. rewrite Hcgs. apply elem_of_app. by left. }
    { rewrite Hcgs, fmap_app, fmap_cons in Hnd.
      apply NoDup_app in Hnd as (_ & Hnd & _).
      intros Hin. apply (Hnd _ Hin). left. }
    destruct (IH (done ++ [g]) ufo1 glyphs1) as (ufo' & glyphs' & Hrun & ? & ?).
    { by rewrite <- app_assoc. }
    { done. }
    exists ufo', glyphs'. split; [|split; [done|by eapply same_lib_trans]].
    change (foldM _glyf_ufo_glyph (ufo, glyphs) (g :: todo))
      with (_glyf_ufo_glyph (ufo, glyphs) g ≫= fun s => foldM _glyf_ufo_glyph s todo).
    rewrite Hstep. done.
Qed.

(** The glyf encoder does not fail on what it is given, and ends with every
    color glyph encoded. *)
Lemma glyf_ufo_run_spec (ufo : Font.t) (cgs : list ColorGlyph) :
  glyf_ready ufo cgs ->
  exists ufo' glyphs,
    _glyf_ufo_run ufo cgs = Ok (ufo', glyphs)
    /\ _glyf_ufo ufo cgs = Ok ufo'
    /\ glyf_inv ufo cgs ufo' glyphs
    /\ same_lib ufo ufo'.
Proof.
  intros Hready.
  destruct (glyf_ufo_run_from ufo cgs cgs [] ufo ∅ Hready eq_refl)
    as (ufo' & glyphs & Hrun & Hinv & Hlib).
  { apply glyf_inv_start. by destruct Hready. }
  exists ufo', glyphs. unfold _glyf_ufo, _glyf_ufo_run. rewrite Hrun. done.
Qed.

Lemma well_namedb_sound (ufo : Font.t) : well_namedb ufo = true -> well_named ufo.
Proof.
  unfold well_namedb. rewrite forallb_forall. intros H n a Hn.
  apply elem_of_map_to_list, list_elem_of_In, H in Hn. simpl in Hn.
  apply andb_prop in Hn as [H1 H2].
  apply bool_decide_eq_true in H1, H2. done.
Qed.

Lemma glyf_readyb_sound (ufo : Font.t) (cgs : list ColorGlyph) :
  glyf_readyb ufo cgs = true -> glyf_ready ufo cgs.
Proof.
  unfold glyf_readyb. intros H.
  apply andb_prop in H as [H H3]. apply andb_prop in H as [H1 H2].
  split; [by apply well_namedb_sound|].
  split; [by apply bool_decide_eq_true in H2|].
  rewrite forallb_forall in H3. intros g Hg.
  apply list_elem_of_In, H3 in Hg. apply andb_prop in Hg as [Hd Hp].
  split; [by destruct (has_dot (glyph_name_ g))|].
  destruct (Font.glyphs ufo !! glyph_name_ g) as [parent|]; [|done].
  exists parent. split; [done|].
  by destruct (Glyph.components (Font.deref ufo parent)).
Qed.


(* ===================================================================== *)
(** * Properties: shape reuse and the collapse of single components *)
(* ===================================================================== *)

Lemma is_Ok_inv {A} (r : result A) : is_Ok r -> exists x, r = Ok x.
Proof. destruct r as [x|e]; [eauto | done]. Qed.

Lemma Ok_elim {A} (r : result A) (x : A) (P : A -> Prop) :
  r = Ok x -> match r with Ok y => P y | Raise _ => True end -> P x.
Proof. by intros ->. Qed.

Lemma registered_empty (ufo : Font.t) : registered ufo ∅.
Proof. intros k a Hk. by rewrite lookup_empty in Hk. Qed.

(** The COLR encoder, when it returns: every layer of every glyph has an
    entry that names the glyph registered under the layer's key. *)
Lemma colr_ufo_run_spec (v : Z) (ufo : Font.t) (cgs : list ColorGlyph)
  (ufo' : Font.t) (glyphs : GlyphsByKey) :
  well_named ufo -> NoDup (glyph_name_ <$> cgs) ->
  _colr_ufo_run v ufo cgs = Ok (ufo', glyphs) ->
  well_named ufo'
  /\ Font.colorPalettes ufo' = Some [to_ufo_color <$> _colr_ufo_colors v cgs]
  /\ exists color_layers,
       Font.colorLayers ufo' = Some color_layers
       /\ forall g, g ∈ cgs ->
            exists entries,
              color_layers !! glyph_name_ g = Some entries
              /\ length entries = length (as_painted_layers g)
              /\ forall i layer, as_painted_layers g !! i = Some layer ->
                   exists glyph p,
                     glyphs !! _inter_glyph_reuse_key layer = Some glyph
                     /\ entries !! i
                        = Some (Glyph.name (Font.deref ufo' glyph), p)
                     /\ Font.glyphs ufo' !! Glyph.name (Font.deref ufo' glyph)
                        = Some glyph
                     /\ _colr_paint v (paint layer) (_colr_ufo_colors v cgs)
                        = Ok p.
Proof.
  intros Hwn Hnd Hrun. unfold _colr_ufo_run, _colr_ufo_with in Hrun.
  apply result_bind_Ok_inv in Hrun as ([[ufo1 glyphs1] cl] & Hloop & Hret).
  injection Hret as <- <-.
  assert (well_named
            (Font.set_colorPalettes [to_ufo_color <$> _colr_ufo_colors v cgs]
               ufo)) as Hwn' by exact Hwn.
  destruct (colr_ufo_glyphs_spec _ _ _ _ _ _ _ _ _ Hwn'
              (registered_empty _) Hloop)
    as (Hgrow & Hlib & Hwn1 & Hreg1 & _ & _ & Hall).
  split; [exact Hwn1|]. split.
  { destruct Hlib as (_ & _ & _ & Hpal & _). simpl. rewrite Hpal. done. }
  exists cl. split; [done|]. intros g Hg.
  destruct (Hall Hnd g Hg) as (entries & Hcl & Hlen & Hent).
  exists entries. split; [done|]. split; [done|].
  intros i layer Hi. destruct (Hent i layer Hi) as (glyph & p & Hk & He & Hp).
  exists glyph, p. split; [done|]. split; [done|]. split; [|done].
  by destruct (Hreg1 _ _ Hk).
Qed.

(** The layers of one glyph are all encoded when each paint is. *)
Lemma colr_ufo_layers_Ok (v : Z) (colors : list Color) (cg : ColorGlyph)
  (layers : list PaintedLayer) : forall ufo glyphs acc,
  registered ufo glyphs ->
  (forall layer, layer ∈ layers ->
     exists p, _colr_paint v (paint layer) colors = Ok p) ->
  exists st,
    foldM (_colr_ufo_layer v colors cg) (ufo, glyphs, acc) layers = Ok st.
Proof.
  induction layers as [|layer layers IH]; intros ufo glyphs acc Hreg Hp.
  - eexists. reflexivity.
  - destruct (glyph_for_layer_spec ufo glyphs cg layer Hreg)
      as (ufo1 & glyphs1 & glyph & Hg & _ & _ & _ & Hreg1 & _).
    destruct (Hp layer) as [p Hpl]; [left|].
    destruct (IH ufo1 glyphs1
                (acc ++ [(Glyph.name (Font.deref ufo1 glyph), p)]) Hreg1)
      as [st Hst].
    { intros l Hl. apply Hp. by right. }
    exists st. rewrite foldM_cons.
    assert (_colr_ufo_layer v colors cg (ufo, glyphs, acc) layer
            = Ok (ufo1, glyphs1,
                  acc ++ [(Glyph.name (Font.deref ufo1 glyph), p)])) as ->.
    { unfold _colr_ufo_layer. rewrite Hg. simpl. rewrite Hpl. done. }
    by rewrite bind_Ok_l.
Qed.

(** The loop of the COLR encoder ends without an error when every color
    glyph has its glyph in the font and every paint is encoded. *)
Lemma colr_ufo_glyphs_Ok (v : Z) (colors : list Color)
  (cgs : list ColorGlyph) : forall ufo glyphs cl,
  well_named ufo -> registered ufo glyphs ->
  (forall g, g ∈ cgs -> is_Some (Font.get ufo (glyph_name_ g))) ->
  (forall g layer, g ∈ cgs -> layer ∈ as_painted_layers g ->
     exists p, _colr_paint v (paint layer) colors = Ok p) ->
  exists st, foldM (_colr_ufo_glyph v colors) (ufo, glyphs, cl) cgs = Ok st.
Proof.
  induction cgs as [|g cgs IH]; intros ufo glyphs cl Hwn Hreg Hin Hp.
  - eexists. reflexivity.
  - destruct (colr_ufo_layers_Ok v colors g (as_painted_layers g) ufo glyphs
                [] Hreg) as [[[ufo1 glyphs1] entries] Hlayers].
    { intros layer Hl. apply (Hp g layer); [left | done]. }
    destruct (colr_ufo_layers_spec _ _ _ _ _ _ _ _ _ _ Hreg Hlayers)
      as (Hgrow1 & _ & Hreg1 & _).
    destruct (Hin g) as [a Ha]; [left|].
    assert (Font.get ufo1 (glyph_name_ g) = Some a) as Hget.
    { destruct Hgrow1 as (_ & _ & Hb & _). by apply Hb. }
    assert (grows ufo1 (_draw_glyph_extents ufo1 a)) as Hgrow2
      by (by apply grows_update).
    pose proof (well_named_grows _ _ Hgrow1 Hwn) as Hwn1.
    pose proof (well_named_grows _ _ Hgrow2 Hwn1) as Hwn2.
    pose proof (registered_grows _ _ _ Hgrow2 Hreg1) as Hreg2.
    destruct (IH (_draw_glyph_extents ufo1 a) glyphs1
                (<[Glyph.name (Font.deref (_draw_glyph_extents ufo1 a) a)
                   := entries]> cl) Hwn2 Hreg2) as [st Hst].
    { intros g' Hg'. destruct (Hin g') as [a' Ha']; [by right|].
      exists a'. destruct Hgrow1 as (_ & _ & Hb1 & _).
      destruct Hgrow2 as (_ & _ & Hb2 & _). by apply Hb2, Hb1. }
    { intros g' layer Hg' Hl. apply (Hp g' layer); [by right | done]. }
    exists st. rewrite foldM_cons.
    assert (_colr_ufo_glyph v colors (ufo, glyphs, cl) g
            = Ok (_draw_glyph_extents ufo1 a, glyphs1,
                  <[Glyph.name (Font.deref (_draw_glyph_extents ufo1 a) a)
                    := entries]> cl)) as ->.
    { unfold _colr_ufo_glyph. rewrite Hlayers, bind_Ok_l. rewrite Hget.
      done. }
    by rewrite bind_Ok_l.
Qed.

(** C5: the COLR encoder, given a font that has a glyph for every color
    glyph of a list of distinct names, and under version 0 paints that all
    mention a color, returns.  The palette it writes into the font holds,
    each once, under version 0 exactly the colors the glyphs use and under
    version 1 exactly their opaque colors.  The color layers it writes hold
    one entry for every layer of every glyph, in z-order, with the name of
    a glyph of the font and the paint: under version 0 the palette position
    of the first color the paint mentions, for a gradient the color of its
    first stop; under version 1, for a gradient, a color line with, stop by
    stop, the offset, the alpha and the palette position of the opaque
    color of the stop. *)
Theorem colr_palette_and_paints (colr_version : Z) (ufo : Font.t)
  (color_glyphs : list ColorGlyph) :
  let palette := _colr_ufo_colors colr_version color_glyphs in
  well_named ufo ->
  NoDup (glyph_name_ <$> color_glyphs) ->
  (forall g, g ∈ color_glyphs -> is_Some (Font.get ufo (glyph_name_ g))) ->
  (colr_version = 0%Z
   /\ forall g layer, g ∈ color_glyphs -> layer ∈ as_painted_layers g ->
        Paint_.colors (paint layer) <> [])
  \/ colr_version = 1%Z ->
  exists ufo' color_layers,
    _colr_ufo colr_version ufo color_glyphs = Ok ufo'
    /\ Font.colorPalettes ufo' = Some [to_ufo_color <$> palette]
    /\ NoDup palette
    /\ (colr_version = 0%Z ->
        forall c, c ∈ palette <->
          exists g, g ∈ color_glyphs /\ c ∈ ColorGlyph_colors g)
    /\ (colr_version = 1%Z ->
        forall c, c ∈ palette <->
          exists g k, g ∈ color_glyphs /\ k ∈ ColorGlyph_colors g
                      /\ c = opaque k)
    /\ Font.colorLayers ufo' = Some color_layers
    /\ forall g, g ∈ color_glyphs ->
         exists entries,
           color_layers !! glyph_name_ g = Some entries
           /\ length entries = length (as_painted_layers g)
           /\ forall i layer, as_painted_layers g !! i = Some layer ->
                exists name p,
                  entries !! i = Some (name, p)
                  /\ is_Some (Font.get ufo' name)
                  /\ _colr_paint colr_version (paint layer) palette = Ok p
                  /\ (colr_version = 0%Z ->
                      forall c rest,
                        Paint_.colors (paint layer) = c :: rest ->
                        exists k, p = PaletteIndex k
                                  /\ palette !! k = Some c)
                  /\ (colr_version = 0%Z ->
                      forall s stops,
                        paint layer = PaintGradient (s :: stops) ->
                        exists k, p = PaletteIndex k
                                  /\ palette !! k = Some (stopColor s))
                  /\ (colr_version = 1%Z ->
                      forall stops, paint layer = PaintGradient stops ->
                        exists line,
                          p = PaintStruct (Paint_.UfoGradient line)
                          /\ Forall2
                               (fun s u =>
                                  Paint_.ufoOffset u = stopOffset s
                                  /\ Paint_.ufoAlpha (Paint_.ufoStopColor u)
                                     = alpha (stopColor s)
                                  /\ palette
                                       !! Paint_.paletteIndex
                                            (Paint_.ufoStopColor u)
                                     = Some (opaque (stopColor s)))
                               stops line).
Proof.
  intros palette Hwn Hnd Hin Hv.
  assert (forall g layer, g ∈ color_glyphs -> layer ∈ as_painted_layers g ->
            exists p, _colr_paint colr_version (paint layer) palette = Ok p)
    as Hpaint.
  { intros g layer Hg Hl. destruct Hv as [[-> Hcol] | ->].
    - destruct (Paint_.colors (paint layer)) as [|c rest] eqn:Hc.
      + by destruct (Hcol g layer Hg Hl).
      + destruct (colr_paint_first_color color_glyphs g layer c rest Hg Hl Hc)
          as (i & Hi & _). eauto.
    - by apply (colr_paint_v1_Ok color_glyphs g layer). }
  destruct (colr_ufo_glyphs_Ok colr_version palette color_glyphs
              (Font.set_colorPalettes [to_ufo_color <$> palette] ufo) ∅ ∅)
    as [[[ufo1 glyphs1] cl] Hloop];
    [exact Hwn | apply registered_empty | exact Hin | exact Hpaint |].
  assert (_colr_ufo_run colr_version ufo color_glyphs
          = Ok (Font.set_colorLayers cl ufo1, glyphs1)) as Hrun.
  { unfold _colr_ufo_run, _colr_ufo_with. fold palette.
    rewrite Hloop, bind_Ok_l. done. }
  destruct (colr_ufo_run_spec _ _ _ _ _ Hwn Hnd Hrun)
    as (_ & Hpal & color_layers & Hcl & Hall).
  exists (Font.set_colorLayers cl ufo1), color_layers.
  split; [unfold _colr_ufo; rewrite Hrun; done|].
  split; [exact Hpal|].
  split; [apply colr_ufo_colors_NoDup|].
  split; [intros -> c; apply colr_palette_v0|].
  split; [intros -> c; apply colr_palette_v1|].
  split; [exact Hcl|].
  intros g Hg. destruct (Hall g Hg) as (entries & He & Hlen & Hent).
  exists entries. split; [exact He|]. split; [exact Hlen|].
  intros i layer Hi.
  destruct (Hent i layer Hi) as (glyph & p & _ & Hei & Hname & Hp).
  assert (layer ∈ as_painted_layers g) as Hl
    by (by eapply list_elem_of_lookup_2).
  exists (Glyph.name (Font.deref (Font.set_colorLayers cl ufo1) glyph)), p.
  split; [exact Hei|]. split; [by eexists|]. split; [exact Hp|].
  assert (colr_version = 0%Z ->
          forall c rest, Paint_.colors (paint layer) = c :: rest ->
            exists k, p = PaletteIndex k /\ palette !! k = Some c) as Hv0.
  { intros E c rest Hc. unfold palette in *. subst colr_version.
    destruct (colr_paint_first_color color_glyphs g layer c rest Hg Hl Hc)
      as (k & Hk & Hpos).
    exists k. split; [congruence | exact Hpos]. }
  split; [exact Hv0|]. split.
  - intros E s stops Hgrad. apply (Hv0 E (stopColor s) (stopColor <$> stops)).
    rewrite Hgrad. done.
  - intros E stops Hgrad. unfold palette in *. subst colr_version.
    destruct (colr_paint_gradient_line color_glyphs g layer stops Hg Hl Hgrad)
      as (line & Hline & Hrel).
    exists line. split; [congruence | exact Hrel].
Qed.

(** The sample glyphs under both versions: the gradient of the eye, the
    second layer of the second glyph, becomes the position of the color of
    its first stop under version 0 and a color line of two stops under
    version 1. *)
Lemma colr_palette_and_paints_witness :
  (exists ufo' color_layers entries name k,
     _colr_ufo 0 sample_font sample_glyphs = Ok ufo'
     /\ Font.colorLayers ufo' = Some color_layers
     /\ color_layers !! "emoji_1f601" = Some entries
     /\ entries !! 1 = Some (name, PaletteIndex k)
     /\ _colr_ufo_colors 0 sample_glyphs !! k = Some (mkColor 0 0 0 128))
  /\ (exists ufo' color_layers entries name line,
        _colr_ufo 1 sample_font sample_glyphs = Ok ufo'
        /\ Font.colorLayers ufo' = Some color_layers
        /\ color_layers !! "emoji_1f601" = Some entries
        /\ entries !! 1 = Some (name, PaintStruct (Paint_.UfoGradient line))
        /\ length line = 2).
Proof.
  assert (well_named sample_font) as Hwn
    by (apply well_namedb_sound; vm_compute; reflexivity).
  assert (NoDup (glyph_name_ <$> sample_glyphs)) as Hnd
    by (apply (bool_decide_unpack _); vm_compute; exact I).
  assert (forall g, g ∈ sample_glyphs ->
            is_Some (Font.get sample_font (glyph_name_ g))) as Hin.
  { intros g Hg. apply list_elem_of_In in Hg. simpl in Hg.
    destruct Hg as [<-|[<-|[<-|[]]]]; vm_compute; eauto. }
  split.
  - destruct (colr_palette_and_paints 0 sample_font sample_glyphs Hwn Hnd Hin)
      as (ufo' & color_layers & Hrun & _ & _ & _ & _ & Hcl & Hall).
    { left. split; [reflexivity|]. intros g layer Hg Hl.
      apply list_elem_of_In in Hg. simpl in Hg.
      destruct Hg as [<-|[<-|[<-|[]]]]; apply list_elem_of_In in Hl;
        simpl in Hl; intuition (subst; discriminate). }
    destruct (Hall sample_1f601) as (entries & He & _ & Hent);
      [right; left|].
    destruct (Hent 1 sample_eye) as (name & p & Hei & _ & _ & _ & Hgrad & _);
      [reflexivity|].
    destruct (Hgrad eq_refl (mkColorStop 0 (mkColor 0 0 0 128))
                [mkColorStop 1 (mkColor 255 255 255 255)])
      as (k & Hp & Hk); [reflexivity|].
    exists ufo', color_layers, entries, name, k.
    split; [exact Hrun|]. split; [exact Hcl|]. split; [exact He|].
    split; [by rewrite <- Hp | exact Hk].
  - destruct (colr_palette_and_paints 1 sample_font sample_glyphs Hwn Hnd Hin)
      as (ufo' & color_layers & Hrun & _ & _ & _ & _ & Hcl & Hall);
      [by right|].
    destruct (Hall sample_1f601) as (entries & He & _ & Hent);
      [right; left|].
    destruct (Hent 1 sample_eye) as (name & p & Hei & _ & _ & _ & _ & Hgrad);
      [reflexivity|].
    destruct (Hgrad eq_refl
                [mkColorStop 0 (mkColor 0 0 0 128);
                 mkColorStop 1 (mkColor 255 255 255 255)])
      as (line & Hp & Hrel); [reflexivity|].
    exists ufo', color_layers, entries, name, line.
    split; [exact Hrun|]. split; [exact Hcl|]. split; [exact He|].
    split; [by rewrite <- Hp|].
    apply Forall2_length in Hrel. symmetry. exact Hrel.
Defined.

(** C1: in the fonts of the glyf and of the COLR encoder, two layers with
    equal reuse keys stand for one and the same glyph object, the one
    registered under the key: the components, respectively the color layer
    entries, of both name it.  A layer whose key is registered leaves the
    font as it is and takes the registered glyph; only a layer whose key is
    new adds a glyph object, and registers it. *)
Theorem equal_reuse_keys_share_one_glyph :
  (forall ufo cgs,
     glyf_ready ufo cgs ->
     exists ufo' glyphs,
       _glyf_ufo_run ufo cgs = Ok (ufo', glyphs)
       /\ forall g1 i1 layer1 g2 i2 layer2,
            g1 ∈ cgs -> as_painted_layers g1 !! i1 = Some layer1 ->
            g2 ∈ cgs -> as_painted_layers g2 !! i2 = Some layer2 ->
            _inter_glyph_reuse_key layer1 = _inter_glyph_reuse_key layer2 ->
            exists glyph,
              glyphs !! _inter_glyph_reuse_key layer1 = Some glyph
              /\ glyf_layer_glyph ufo ufo' g1 i1 glyph
              /\ glyf_layer_glyph ufo ufo' g2 i2 glyph)
  /\ (forall v ufo cgs ufo' glyphs,
        well_named ufo -> NoDup (glyph_name_ <$> cgs) ->
        _colr_ufo_run v ufo cgs = Ok (ufo', glyphs) ->
        forall g1 i1 layer1 g2 i2 layer2,
          g1 ∈ cgs -> as_painted_layers g1 !! i1 = Some layer1 ->
          g2 ∈ cgs -> as_painted_layers g2 !! i2 = Some layer2 ->
          _inter_glyph_reuse_key layer1 = _inter_glyph_reuse_key layer2 ->
          exists glyph,
            glyphs !! _inter_glyph_reuse_key layer1 = Some glyph
            /\ colr_layer_glyph ufo' g1 i1 glyph
            /\ colr_layer_glyph ufo' g2 i2 glyph)
  /\ (forall ufo glyphs cg layer glyph,
        glyphs !! _inter_glyph_reuse_key layer = Some glyph ->
        glyph_for_layer ufo glyphs cg layer = Ok (ufo, glyphs, glyph))
  /\ (forall ufo glyphs cg layer,
        glyphs !! _inter_glyph_reuse_key layer = None ->
        exists ufo' news,
          glyph_for_layer ufo glyphs cg layer
          = Ok (ufo',
                <[_inter_glyph_reuse_key layer := length (Font.objects ufo)]>
                  glyphs,
                length (Font.objects ufo))
          /\ Font.objects ufo' = Font.objects ufo ++ news
          /\ news <> []).
Proof.
  split; [|split; [|split]].
  - intros ufo cgs Hready.
    destruct (glyf_ufo_run_spec ufo cgs Hready)
      as (ufo' & glyphs & Hrun & _ & Hinv & _).
    exists ufo', glyphs. split; [done|].
    destruct Hinv as (_ & _ & _ & _ & _ & HF).
    assert (forall g i layer,
              g ∈ cgs -> as_painted_layers g !! i = Some layer ->
              exists glyph,
                glyphs !! _inter_glyph_reuse_key layer = Some glyph
                /\ glyf_layer_glyph ufo ufo' g i glyph) as Hone.
    { intros g i layer Hg Hi.
      destruct (HF g Hg) as (parent & Hp & _ & Hplaced & _).
      destruct (Hplaced i layer Hi) as (glyph & comp & ? & ? & ? & _).
      exists glyph. split; [done|]. by exists parent, comp. }
    intros g1 i1 layer1 g2 i2 layer2 Hg1 Hi1 Hg2 Hi2 Hkey.
    destruct (Hone g1 i1 layer1 Hg1 Hi1) as (glyph & Hk1 & H1).
    destruct (Hone g2 i2 layer2 Hg2 Hi2) as (glyph2 & Hk2 & H2).
    rewrite <- Hkey, Hk1 in Hk2. injection Hk2 as <-.
    exists glyph. done.
  - intros v ufo cgs ufo' glyphs Hwn Hnd Hrun.
    destruct (colr_ufo_run_spec v ufo cgs ufo' glyphs Hwn Hnd Hrun)
      as (_ & _ & cl & Hcl & Hall).
    assert (forall g i layer,
              g ∈ cgs -> as_painted_layers g !! i = Some layer ->
              exists glyph,
                glyphs !! _inter_glyph_reuse_key layer = Some glyph
                /\ colr_layer_glyph ufo' g i glyph) as Hone.
    { intros g i layer Hg Hi.
      destruct (Hall g Hg) as (entries & He & _ & Hent).
      destruct (Hent i layer Hi) as (glyph & p & ? & ? & ? & _).
      exists glyph. split; [done|].
      by exists cl, entries, (Glyph.name (Font.deref ufo' glyph)), p. }
    intros g1 i1 layer1 g2 i2 layer2 Hg1 Hi1 Hg2 Hi2 Hkey.
    destruct (Hone g1 i1 layer1 Hg1 Hi1) as (glyph & Hk1 & H1).
    destruct (Hone g2 i2 layer2 Hg2 Hi2) as (glyph2 & Hk2 & H2).
    rewrite <- Hkey, Hk1 in Hk2. injection Hk2 as <-.
    exists glyph. done.
  - intros ufo glyphs cg layer glyph Hk. unfold glyph_for_layer. by rewrite Hk.
  - intros ufo glyphs cg layer Hk. unfold glyph_for_layer. rewrite Hk.
    destruct (create_glyph_grows ufo cg layer)
      as (ufo' & -> & (news & Hnews) & _ & _ & Hlen & _).
    exists ufo', news. split; [done|]. split; [done|].
    intros ->. rewrite app_nil_r in Hnews. rewrite Hnews in Hlen. lia.
Qed.

(** The face is the one layer of the first sample glyph and the first layer
    of the second, in another color: in both encodings the two glyphs name
    one glyph object for it. *)
Lemma equal_reuse_keys_share_one_glyph_witness :
  (exists ufo' glyphs glyph,
     _glyf_ufo_run sample_font sample_glyphs = Ok (ufo', glyphs)
     /\ glyf_layer_glyph sample_font ufo' sample_1f600 0 glyph
     /\ glyf_layer_glyph sample_font ufo' sample_1f601 0 glyph)
  /\ (exists ufo' glyphs glyph,
        _colr_ufo_run 1 sample_font sample_glyphs = Ok (ufo', glyphs)
        /\ colr_layer_glyph ufo' sample_1f600 0 glyph
        /\ colr_layer_glyph ufo' sample_1f601 0 glyph).
Proof.
  destruct equal_reuse_keys_share_one_glyph as (Hglyf & Hcolr & _).
  split.
  - destruct (Hglyf sample_font sample_glyphs) as (ufo' & glyphs & Hrun & Hsame).
    { apply glyf_readyb_sound. vm_compute. reflexivity. }
    destruct (Hsame sample_1f600 0 sample_face sample_1f601 0 sample_face_red)
      as (glyph & _ & H1 & H2);
      [left | reflexivity | right; left | reflexivity | reflexivity |].
    exists ufo', glyphs, glyph. split; [exact Hrun | split; [exact H1 | exact H2]].
  - destruct (is_Ok_inv (_colr_ufo_run 1 sample_font sample_glyphs))
      as ([ufo' glyphs] & Hrun); [by vm_compute|].
    destruct (Hcolr 1%Z sample_font sample_glyphs ufo' glyphs) with
      (g1 := sample_1f600) (i1 := 0) (layer1 := sample_face)
      (g2 := sample_1f601) (i2 := 0) (layer2 := sample_face_red)
      as (glyph & _ & H1 & H2);
      [apply well_namedb_sound; vm_compute; reflexivity
      | apply (bool_decide_unpack _); vm_compute; exact I
      | exact Hrun
      | left | reflexivity | right; left | reflexivity | reflexivity |].
    exists ufo', glyphs, glyph. split; [exact Hrun | split; [exact H1 | exact H2]].
Defined.

(** C6: after the glyf encoder, a color glyph whose parent glyph object has
    exactly one component is the glyph object that component names: the
    name of the color glyph is bound to that object, so to its contents; a
    parent with another number of components stays bound to the name, with
    a component for every layer. *)
Theorem glyf_single_component_collapses (ufo : Font.t) (cgs : list ColorGlyph) :
  glyf_ready ufo cgs ->
  exists ufo',
    _glyf_ufo ufo cgs = Ok ufo'
    /\ forall g, g ∈ cgs ->
         exists parent,
           Font.glyphs ufo !! glyph_name_ g = Some parent
           /\ length (Glyph.components (Font.deref ufo' parent))
              = length (as_painted_layers g)
           /\ (forall comp,
                 Glyph.components (Font.deref ufo' parent) = [comp] ->
                 exists child,
                   Font.glyphs ufo' !! baseGlyph comp = Some child
                   /\ Font.glyphs ufo' !! glyph_name_ g = Some child
                   /\ child <> parent)
           /\ (length (Glyph.components (Font.deref ufo' parent)) <> 1 ->
                 Font.glyphs ufo' !! glyph_name_ g = Some parent).
Proof.
  intros Hready.
  destruct (glyf_ufo_run_spec ufo cgs Hready)
    as (ufo' & glyphs & _ & Hrun & Hinv & _).
  exists ufo'. split; [done|]. intros g Hg.
  destruct Hinv as (_ & _ & HR & _ & _ & HF).
  destruct (HF g Hg) as (parent & Hp & Hlen & Hplaced & Hone & Hmany).
  exists parent. split; [done|]. split; [done|]. split; [|done].
  intros comp Hcomp. destruct (Hone comp Hcomp) as (child & Hb & Hn).
  exists child. split; [done|]. split; [done|].
  assert (exists layer, as_painted_layers g !! 0 = Some layer) as [layer Hl].
  { apply lookup_lt_is_Some. rewrite <- Hlen, Hcomp. simpl. lia. }
  destruct (Hplaced 0 layer Hl) as (glyph & comp' & Hk & Hc0 & Hb' & _).
  rewrite Hcomp in Hc0. injection Hc0 as <-.
  rewrite Hb in Hb'. injection Hb' as <-.
  destruct (HR _ _ Hk) as (Hrange & _).
  destruct Hready as (Hwn & _). destruct (Hwn _ _ Hp) as [Hlt _]. lia.
Qed.

(** The first sample glyph has one layer and becomes the outline of the
    face; the second has two and keeps its two components. *)
Lemma glyf_single_component_collapses_witness :
  exists ufo',
    _glyf_ufo sample_font sample_glyphs = Ok ufo'
    /\ Font.glyphs sample_font !! "emoji_1f600" = Some 2
    /\ Font.glyphs ufo' !! "emoji_1f600" = Some 5
    /\ Glyph.contours (Font.deref ufo' 5)
       = [DrawnPath (path sample_face) sample_transform]
    /\ Font.glyphs ufo' !! "emoji_1f601" = Some 3
    /\ length (Glyph.components (Font.deref ufo' 3)) = 2.
Proof.
  destruct (glyf_single_component_collapses sample_font sample_glyphs)
    as (ufo' & Hrun & _).
  { apply glyf_readyb_sound. vm_compute. reflexivity. }
  exists ufo'. split; [exact Hrun|].
  apply (Ok_elim _ _
           (fun u =>
              Font.glyphs sample_font !! "emoji_1f600" = Some 2
              /\ Font.glyphs u !! "emoji_1f600" = Some 5
              /\ Glyph.contours (Font.deref u 5)
                 = [DrawnPath (path sample_face) sample_transform]
              /\ Font.glyphs u !! "emoji_1f601" = Some 3
              /\ length (Glyph.components (Font.deref u 3)) = 2) Hrun).
  vm_compute. repeat split.
Defined.


(* ===================================================================== *)
(** * Properties: formats and versions that are refused *)
(* ===================================================================== *)

Lemma colr_paint_unsupported (v : Z) (paint : Paint) (palette : list Color) :
  v <> 0%Z -> v <> 1%Z ->
  _colr_paint v paint palette
  = Raise (ValueError ("Unsupported COLR version: " +:+ pretty v)).
Proof. intros H0 H1. unfold _colr_paint. by rewrite !decide_False. Qed.

(** C9: the generators of both bitmap formats raise [NotImplementedError],
    for the font of glyphs and for the compiled font alike; a paint under a
    version other than 0 and 1 raises the unsupported-version [ValueError],
    and so does the COLR encoder at the first layer it meets. *)
Theorem bitmap_formats_and_versions_refused
  (to_element : SVGPath -> Element) (ntos : Z -> string)
  (etree_tostring : Element -> string) (svg_tostring : SVG -> string)
  (FLAGS_color_format : string) :
  (forall color_format, color_format = "cbdt" \/ color_format = "sbix" ->
     exists generator,
       _COLOR_FORMAT_GENERATORS to_element ntos etree_tostring svg_tostring
         FLAGS_color_format !! color_format = Some generator
       /\ (forall ufo color_glyphs,
             apply_ufo generator ufo color_glyphs
             = Raise (NotImplementedError
                        (FLAGS_color_format +:+ " not implemented")))
       /\ (forall ufo color_glyphs ttfont,
             apply_ttfont generator ufo color_glyphs ttfont
             = Raise (NotImplementedError
                        (FLAGS_color_format +:+ " not implemented"))))
  /\ (forall v paint palette, v <> 0%Z -> v <> 1%Z ->
        _colr_paint v paint palette
        = Raise (ValueError ("Unsupported COLR version: " +:+ pretty v)))
  /\ (forall v ufo g color_glyphs, v <> 0%Z -> v <> 1%Z ->
        as_painted_layers g <> [] ->
        _colr_ufo v ufo (g :: color_glyphs)
        = Raise (ValueError ("Unsupported COLR version: " +:+ pretty v))).
Proof.
  split; [|split].
  - intros color_format [-> | ->]; eexists; (split; [reflexivity|]); done.
  - apply colr_paint_unsupported.
  - intros v ufo g cgs H0 H1 Hlayers.
    unfold _colr_ufo, _colr_ufo_run, _colr_ufo_with.
    set (colors := _colr_ufo_colors v (g :: cgs)).
    set (ufo1 := Font.set_colorPalettes _ ufo).
    change (foldM (_colr_ufo_glyph v colors) (ufo1, ∅, ∅) (g :: cgs))
      with (_colr_ufo_glyph v colors (ufo1, ∅, ∅) g
            ≫= fun s => foldM (_colr_ufo_glyph v colors) s cgs).
    unfold _colr_ufo_glyph.
    destruct (as_painted_layers g) as [|layer layers]; [done|].
    change (foldM (_colr_ufo_layer v colors g) (ufo1, ∅, []) (layer :: layers))
      with (_colr_ufo_layer v colors g (ufo1, ∅, []) layer
            ≫= fun s => foldM (_colr_ufo_layer v colors g) s layers).
    unfold _colr_ufo_layer.
    destruct (glyph_for_layer_spec ufo1 ∅ g layer (registered_empty _))
      as (ufo2 & glyphs2 & glyph & -> & _).
    simpl. rewrite colr_paint_unsupported by done. done.
Qed.

(** Version 2, and the formats with the flag set to the format asked for. *)
Lemma bitmap_formats_and_versions_refused_witness :
  (exists generator,
     _COLOR_FORMAT_GENERATORS (fun p => mkElement "path" ∅ []) pretty
       (fun _ => "") (fun _ => "") "cbdt" !! "cbdt" = Some generator
     /\ apply_ufo generator sample_font sample_glyphs
        = Raise (NotImplementedError "cbdt not implemented"))
  /\ _colr_paint 2 (paint sample_face) []
     = Raise (ValueError "Unsupported COLR version: 2")
  /\ _colr_ufo 2 sample_font sample_glyphs
     = Raise (ValueError "Unsupported COLR version: 2").
Proof.
  destruct (bitmap_formats_and_versions_refused
              (fun p => mkElement "path" ∅ []) pretty (fun _ => "")
              (fun _ => "") "cbdt") as (Hfmt & Hpaint & Hufo).
  split; [|split].
  - destruct (Hfmt "cbdt") as (generator & Hg & Hu & _); [by left|].
    exists generator. split; [exact Hg|]. apply Hu.
  - apply (Hpaint 2%Z); discriminate.
  - apply (Hufo 2%Z); discriminate.
Defined.


(* ===================================================================== *)
(** * Properties: reuse transforms in the SVG encoder *)
(* ===================================================================== *)

Lemma translate_back_identity (t : Affine2D.t) :
  Affine2D.translate t (- Affine2D.e t) (- Affine2D.f t) = Affine2D.identity
  <-> pure_translation t.
Proof.
  unfold pure_translation, Affine2D.translate, Affine2D.translation,
    Affine2D.identity.
  destruct t as [a b c d e f]; simpl. case_decide as E.
  - injection E as E1 E2.
    assert (e = 0%Z) as -> by lia. assert (f = 0%Z) as -> by lia.
    done.
  - unfold Affine2D.product; simpl. split.
    + intros H. injection H as H1 H2 H3 H4 H5 H6. f_equal; lia.
    + intros H. injection H as H1 H2 H3 H4. f_equal; lia.
Qed.


Lemma later_group_refl (i : nat) (g : Element) : later_group i g g.
Proof. split; [done|]. split; [done|]. intros j el H. exists el. auto. Qed.

Lemma later_group_trans (i : nat) (g1 g2 g3 : Element) :
  later_group i g1 g2 -> later_group i g2 g3 -> later_group i g1 g3.
Proof.
  intros (Ha & Hl & Hc) (Ha' & Hl' & Hc').
  split; [congruence|]. split; [lia|].
  intros j el Hel.
  destruct (Hc j el Hel) as (el1 & Hel1 & Hcase).
  destruct (Hc' j el1 Hel1) as (el2 & Hel2 & Hcase').
  exists el2. split; [done|].
  destruct Hcase as [-> | (-> & Hno & id & ->)]; [done|].
  destruct Hcase' as [-> | (_ & Hno' & _)].
  - right. eauto.
  - exfalso. simpl in Hno'. by rewrite lookup_insert_eq in Hno'.
Qed.

Lemma later_group_append (i : nat) (g el : Element) :
  later_group i g (append_child g el).
Proof.
  split; [done|]. split; [simpl; rewrite length_app; lia|].
  intros j el0 H. exists el0. split; [|by left].
  simpl. by apply lookup_app_l_Some.
Qed.

(** A child of the earlier group that has an id, or stands elsewhere than
    at [i], is the same child of the later group. *)
Lemma later_group_keeps (i : nat) (g g' : Element) (j : nat) (el : Element) :
  later_group i g g' -> children g !! j = Some el ->
  is_Some (attrib el !! "id") \/ j <> i -> children g' !! j = Some el.
Proof.
  intros (_ & _ & Hc) Hel Hcase.
  destruct (Hc j el Hel) as (el' & Hel' & [-> | (-> & Hno & _)]); [done|].
  destruct Hcase as [[id Hid] | ?]; [congruence | done].
Qed.

Lemma ensure_has_id_spec (svg_g : Element) (i : nat) :
  i < length (children svg_g) -> is_Some (attrib svg_g !! "id") ->
  exists svg_g' el' id,
    _ensure_has_id svg_g i = Ok svg_g'
    /\ later_group i svg_g svg_g'
    /\ length (children svg_g') = length (children svg_g)
    /\ children svg_g' !! i = Some el'
    /\ attrib el' !! "id" = Some id.
Proof.
  intros Hi [pid Hpid]. unfold _ensure_has_id.
  destruct (lookup_lt_is_Some_2 _ _ Hi) as [el Hel]. rewrite Hel.
  case_bool_decide as Hid.
  - destruct Hid as [id Hid]. exists svg_g, el, id.
    split; [done|]. split; [apply later_group_refl|]. done.
  - unfold getattr. rewrite Hpid. simpl.
    eexists _, _, _. split; [done|].
    split; [|split; [simpl; by rewrite length_insert|
             split; [simpl; by apply list_lookup_insert_eq
                    | simpl; apply lookup_insert_eq]]].
    split; [done|]. split; [simpl; by rewrite length_insert|].
    intros j el0 Hel0. simpl. destruct (decide (j = i)) as [->|Hj].
    + rewrite list_lookup_insert_eq by done. eexists. split; [done|].
      right. assert (el0 = el) as -> by congruence.
      split; [done|]. split; [|eauto].
      destruct (attrib el !! "id") eqn:E; [|done].
      exfalso. apply Hid. eauto.
    + rewrite list_lookup_insert_ne by done. eauto.
Qed.

Lemma href_of_spec (svg_g : Element) (i : nat) (el : Element) (id : string) :
  children svg_g !! i = Some el -> attrib el !! "id" = Some id ->
  href_of svg_g i = Ok ("#" +:+ id).
Proof. intros Hel Hid. unfold href_of, getattr. by rewrite Hel, Hid. Qed.

(** One reuse: the [use] is appended, and a transform that does more than
    move is refused. *)
Lemma add_glyph_to_svg_reuse_spec (ntos : Z -> string) (i : nat)
  (svg_g : Element) (reuse : Affine2D.t) :
  i < length (children svg_g) -> is_Some (attrib svg_g !! "id") ->
  exists svg_g1 el id,
    later_group i svg_g svg_g1
    /\ length (children svg_g1) = length (children svg_g)
    /\ children svg_g1 !! i = Some el /\ attrib el !! "id" = Some id
    /\ _add_glyph_to_svg_reuse ntos i svg_g reuse
       = if decide (pure_translation reuse)
         then Ok (append_child svg_g1
                    (svg_use ntos ("#" +:+ id) (Affine2D.e reuse)
                       (Affine2D.f reuse)))
         else Raise (NotImplementedError "TODO apply scale & rotation to use").
Proof.
  intros Hi Hpid.
  destruct (ensure_has_id_spec svg_g i Hi Hpid)
    as (svg_g1 & el & id & Hens & Hlater & Hlen & Hel & Hid).
  exists svg_g1, el, id. do 4 (split; [done|]).
  unfold _add_glyph_to_svg_reuse. rewrite Hens. simpl.
  rewrite (href_of_spec _ _ _ _ Hel Hid). simpl.
  destruct (decide (pure_translation reuse)) as [Hp|Hp].
  - rewrite decide_True by (by apply translate_back_identity). done.
  - rewrite decide_False; [done|]. intros E. by apply Hp, translate_back_identity.
Qed.

(** The loop over the reuses of a new shape, when every reuse only moves. *)
Lemma add_glyph_to_svg_reuses_ok (ntos : Z -> string) (i : nat)
  (reuses : list Affine2D.t) : forall svg_g,
  i < length (children svg_g) -> is_Some (attrib svg_g !! "id") ->
  Forall pure_translation reuses ->
  exists svg_g',
    foldM (_add_glyph_to_svg_reuse ntos i) svg_g reuses = Ok svg_g'
    /\ later_group i svg_g svg_g'
    /\ length (children svg_g') = length (children svg_g) + length reuses
    /\ forall t, t ∈ reuses -> exists el id j,
         children svg_g' !! i = Some el /\ attrib el !! "id" = Some id
         /\ length (children svg_g) <= j
         /\ children svg_g' !! j
            = Some (svg_use ntos ("#" +:+ id) (Affine2D.e t) (Affine2D.f t)).
Proof.
  induction reuses as [|t reuses IH]; intros g Hi Hid Hall.
  - exists g. split; [done|]. split; [apply later_group_refl|].
    split; [simpl; lia|]. intros t Ht. by apply elem_of_nil in Ht.
  - apply Forall_cons in Hall as [Ht Hall].
    destruct (add_glyph_to_svg_reuse_spec ntos i g t Hi Hid)
      as (g1 & el & id & Hlater & Hlen & Hel & Hidel & Hres).
    rewrite decide_True in Hres by done.
    set (u := svg_use ntos ("#" +:+ id) (Affine2D.e t) (Affine2D.f t)) in *.
    assert (attrib g1 = attrib g) as Hattr by apply Hlater.
    destruct (IH (append_child g1 u)) as (g' & Hfold & Hlater' & Hlen' & Huses).
    { simpl. rewrite length_app. lia. }
    { simpl. by rewrite Hattr. }
    { done. }
    exists g'. split; [simpl; by rewrite Hres|].
    split.
    { eapply later_group_trans; [exact Hlater|].
      eapply later_group_trans; [apply later_group_append | exact Hlater']. }
    split.
    { rewrite Hlen'. simpl. rewrite length_app. simpl. lia. }
    intros t' Ht'. apply elem_of_cons in Ht' as [-> | Ht'].
    + exists el, id, (length (children g1)).
      split.
      { eapply later_group_keeps; [exact Hlater' | | left; eauto].
        simpl. by apply lookup_app_l_Some. }
      split; [done|]. split; [lia|].
      eapply later_group_keeps; [exact Hlater' | | right; lia].
      simpl. by apply list_lookup_middle.
    + destruct (Huses t' Ht') as (el' & id' & j & H1 & H2 & H3 & H4).
      exists el', id', j. split; [done|]. split; [done|]. split; [|done].
      simpl in H3. rewrite length_app in H3. lia.
Qed.

(** The loop over the reuses of a new shape, when a reuse does more than
    move. *)
Lemma add_glyph_to_svg_reuses_raise (ntos : Z -> string) (i : nat)
  (reuses : list Affine2D.t) : forall svg_g,
  i < length (children svg_g) -> is_Some (attrib svg_g !! "id") ->
  ~ Forall pure_translation reuses ->
  foldM (_add_glyph_to_svg_reuse ntos i) svg_g reuses = Raise refused_reuse.
Proof.
  induction reuses as [|t reuses IH]; intros g Hi Hid Hex.
  - exfalso. apply Hex. constructor.
  - destruct (add_glyph_to_svg_reuse_spec ntos i g t Hi Hid)
      as (g1 & el & id & Hlater & Hlen & Hel & Hidel & Hres).
    simpl. rewrite Hres. destruct (decide (pure_translation t)) as [Ht|Ht].
    + simpl. apply IH.
      * simpl. rewrite length_app. lia.
      * simpl. destruct Hlater as (-> & _). done.
      * intros Hall. apply Hex. by constructor.
    + done.
Qed.

Lemma drawn_for_later (i : nat) (g g' : Element) (j : nat)
  (shape el : Element) :
  later_group i g g' -> children g !! j = Some el -> drawn_for shape el ->
  exists el', children g' !! j = Some el' /\ drawn_for shape el'.
Proof.
  intros (_ & _ & Hc) Hel Hd.
  destruct (Hc j el Hel) as (el' & Hel' & [-> | (-> & Hno & id & ->)]).
  - eauto.
  - exists (set_attrib el "id" id). split; [done|].
    destruct Hd as [-> | (_ & id' & ->)].
    + right. eauto.
    + exfalso. simpl in Hno. by rewrite lookup_insert_eq in Hno.
Qed.

Lemma reuse_written_later (ntos : Z -> string) (i : nat) (g g' : Element)
  (glyphs : gmap ReuseKey nat) (k : ReuseKey) (i0 : nat) (t : Affine2D.t) :
  later_group i g g' -> glyphs !! k = Some i ->
  reuse_written ntos g glyphs i0 t -> reuse_written ntos g' glyphs i0 t.
Proof.
  intros Hlater Hk (el & id & j & Hel & Hid & Hij & Hfree & Hu).
  exists el, id, j. split.
  { eapply later_group_keeps; [exact Hlater | exact Hel | left; eauto]. }
  split; [done|]. split; [done|]. split; [done|].
  eapply later_group_keeps; [exact Hlater | exact Hu | right].
  intros ->. by apply (Hfree k i).
Qed.

(** One layer of [_add_glyph_to_svg]: it keeps the invariant of the group,
    or it is refused for a reuse that does more than move. *)
Lemma add_glyph_to_svg_layer_spec (to_element : SVGPath -> Element)
  (ntos : Z -> string) (id_updates : IdUpdates) (layers : list PaintedLayer)
  (g : Element) (glyphs : gmap ReuseKey nat) (l : PaintedLayer) :
  l ∈ layers ->
  svg_g_inv to_element ntos id_updates layers g glyphs ->
  if decide (Forall pure_translation (reuses l)) then
    exists g' glyphs',
      _add_glyph_to_svg_layer to_element ntos id_updates (g, glyphs) l
      = Ok (g', glyphs')
      /\ svg_g_inv to_element ntos id_updates layers g' glyphs'
      /\ is_Some (glyphs' !! _inter_glyph_reuse_key l)
      /\ glyphs ⊆ glyphs'
  else
    _add_glyph_to_svg_layer to_element ntos id_updates (g, glyphs) l
    = Raise refused_reuse.
Proof.
  intros Hl (Hid & Hshape & Hreuse).
  unfold _add_glyph_to_svg_layer.
  destruct (glyphs !! _inter_glyph_reuse_key l) as [i|] eqn:Hk.
  - (* the key was seen *)
    assert (Forall pure_translation (reuses l)) as Hall.
    { apply Forall_forall. intros t Ht. by apply (Hreuse _ i t Hk). }
    rewrite decide_True by done.
    destruct (Hshape _ _ Hk) as (l0 & el0 & _ & _ & Hel0 & _).
    apply lookup_lt_Some in Hel0.
    destruct (ensure_has_id_spec g i Hel0 Hid)
      as (g1 & el & id & Hens & Hlater & Hlen & Hel & Hidel).
    rewrite Hens. simpl. rewrite (href_of_spec _ _ _ _ Hel Hidel). simpl.
    eexists _, glyphs. split; [done|].
    set (g' := append_child g1 _).
    assert (later_group i g g') as Hlater'.
    { eapply later_group_trans; [exact Hlater | apply later_group_append]. }
    split; [|split; [by rewrite Hk | done]].
    split. { destruct Hlater' as (-> & _). done. }
    split.
    + intros k0 i0 Hk0.
      destruct (Hshape _ _ Hk0) as (l1 & el1 & Hl1 & Hkey & Hel1 & Hd).
      destruct (drawn_for_later _ _ _ _ _ _ Hlater' Hel1 Hd) as (el' & ? & ?).
      eauto 10.
    + intros k0 i0 t Hk0 Ht. destruct (Hreuse _ _ _ Hk0 Ht) as [Hp Hw].
      split; [done|]. by eapply reuse_written_later.
  - (* a new key *)
    set (i := length (children g)).
    set (el0 := update_fill id_updates (to_element (path l))).
    set (g0 := append_child g el0).
    assert (i < length (children g0)) as Hi.
    { subst g0 i. simpl. rewrite length_app. simpl. lia. }
    assert (is_Some (attrib g0 !! "id")) as Hid0 by done.
    destruct (decide (Forall pure_translation (reuses l))) as [Hall|Hall].
    + destruct (add_glyph_to_svg_reuses_ok ntos i (reuses l) g0 Hi Hid0 Hall)
        as (g' & Hfold & Hlater & Hlen & Huses).
      rewrite Hfold. simpl. eexists _, _. split; [done|].
      assert (later_group i g g') as Hlater'.
      { eapply later_group_trans; [apply later_group_append | exact Hlater]. }
      assert (forall k' i', glyphs !! k' = Some i' -> i' < i) as Hlt.
      { intros k' i' Hk'.
        destruct (Hshape _ _ Hk') as (_ & ? & _ & _ & Hel & _).
        by apply lookup_lt_Some in Hel. }
      split; [|split; [by rewrite lookup_insert_eq
                      | by apply insert_subseteq]].
      split. { destruct Hlater' as (-> & _). done. }
      split.
      * intros k0 i0 Hk0. apply lookup_insert_Some in Hk0
          as [[<- <-] | [Hne Hk0]].
        -- assert (children g0 !! i = Some el0) as Hel0
             by (subst g0 i; simpl; by apply list_lookup_middle).
           destruct (drawn_for_later i g0 g' i el0 el0 Hlater Hel0)
             as (el' & ? & ?); [by left|].
           exists l, el'. done.
        -- destruct (Hshape _ _ Hk0) as (l1 & el1 & Hl1 & Hkey & Hel1 & Hd).
           destruct (drawn_for_later _ _ _ _ _ _ Hlater' Hel1 Hd)
             as (el' & ? & ?).
           eauto 10.
      * intros k0 i0 t Hk0 Ht. apply lookup_insert_Some in Hk0
          as [[<- <-] | [Hne Hk0]].
        -- simpl in Ht. split.
           { revert Ht. by apply Forall_forall. }
           destruct (Huses t Ht) as (el & id & j & H1 & H2 & H3 & H4).
           exists el, id, j. split; [done|]. split; [done|].
           subst g0. simpl in H3. rewrite length_app in H3. simpl in H3.
           split; [subst i; lia|]. split; [|done].
           intros k' i' Hk'. apply lookup_insert_Some in Hk'
             as [[_ <-] | [_ Hk']]; [subst i; lia|].
           apply Hlt in Hk'. subst i. lia.
        -- destruct (Hreuse _ _ _ Hk0 Ht)
             as [Hp (el & id & j & H1 & H2 & H3 & H4 & H5)].
           split; [done|]. exists el, id, j.
           split.
           { eapply later_group_keeps; [exact Hlater' | exact H1 | left; eauto]. }
           split; [done|]. split; [done|].
           assert (j < i) as Hj by (by apply lookup_lt_Some in H5).
           split.
           { intros k' i' Hk'. apply lookup_insert_Some in Hk'
               as [[_ <-] | [_ Hk']]; [lia|]. by apply (H4 k'). }
           eapply later_group_keeps; [exact Hlater' | exact H5 | right; lia].
    + rewrite (add_glyph_to_svg_reuses_raise ntos i (reuses l) g0 Hi Hid0 Hall).
      done.
Qed.

(** The loop of [_add_glyph_to_svg] over the layers [todo]. *)
Lemma add_glyph_to_svg_layers_spec (to_element : SVGPath -> Element)
  (ntos : Z -> string) (id_updates : IdUpdates) (layers : list PaintedLayer)
  (todo : list PaintedLayer) : forall g glyphs,
  (forall l, l ∈ todo -> l ∈ layers) ->
  svg_g_inv to_element ntos id_updates layers g glyphs ->
  if decide (Forall (fun l => Forall pure_translation (reuses l)) todo) then
    exists g' glyphs',
      foldM (_add_glyph_to_svg_layer to_element ntos id_updates) (g, glyphs)
        todo = Ok (g', glyphs')
      /\ svg_g_inv to_element ntos id_updates layers g' glyphs'
      /\ (forall l, l ∈ todo -> is_Some (glyphs' !! _inter_glyph_reuse_key l))
      /\ glyphs ⊆ glyphs'
  else
    foldM (_add_glyph_to_svg_layer to_element ntos id_updates) (g, glyphs) todo
    = Raise refused_reuse.
Proof.
  induction todo as [|l todo IH]; intros g glyphs Hin Hinv.
  - rewrite decide_True by constructor.
    exists g, glyphs. split; [done|]. split; [done|].
    split; [|done]. intros l Hl. by apply elem_of_nil in Hl.
  - assert (l ∈ layers) as Hl by (apply Hin; left).
    assert (forall l', l' ∈ todo -> l' ∈ layers) as Hin'
      by (intros l' ?; apply Hin; by right).
    pose proof (add_glyph_to_svg_layer_spec to_element ntos id_updates layers
                  g glyphs l Hl Hinv) as Hstep.
    rewrite foldM_cons.
    destruct (decide (Forall pure_translation (reuses l))) as [Hpl|Hpl].
    + destruct Hstep as (g1 & glyphs1 & -> & Hinv1 & Hkey & Hsub).
      rewrite bind_Ok_l. specialize (IH g1 glyphs1 Hin' Hinv1).
      destruct (decide (Forall (fun l => Forall pure_translation (reuses l))
                          todo)) as [Hpt|Hpt].
      * rewrite decide_True by (by constructor).
        destruct IH as (g' & glyphs' & Hfold & Hinv' & Hkeys & Hsub').
        exists g', glyphs'. split; [done|]. split; [done|].
        split; [|by etrans].
        intros l' Hl'. apply elem_of_cons in Hl' as [-> | Hl'].
        -- destruct Hkey as [i Hi]. exists i.
           by apply (lookup_weaken _ _ _ _ Hi Hsub').
        -- by apply Hkeys.
      * rewrite decide_False; [done|].
        intros Hall. apply Forall_cons in Hall as [_ ?]. done.
    + rewrite Hstep, bind_Raise_l. rewrite decide_False; [done|].
      intros Hall. apply Forall_cons in Hall as [? _]. done.
Qed.




(* ===================================================================== *)
(** * Properties: ids of shapes and gradients in the SVG encoder *)
(* ===================================================================== *)

Lemma generated_id_inj (pid : string) (i j : nat) :
  pid +:+ "::" +:+ pretty i = pid +:+ "::" +:+ pretty j -> i = j.
Proof.
  intros E. apply String.app_inj in E. apply String.app_inj in E.
  by apply (inj pretty).
Qed.

(** X4: [_ensure_has_id] leaves a child that has an id alone; a child
    without one gets the id of the group, [::] and its position, nothing
    else changes, and a second call changes nothing more; ids given at two
    positions differ; without an id on the group the call raises
    [KeyError]. *)
Theorem ensure_has_id_gives_stable_ids (svg_g : Element) (i : nat)
  (el : Element) :
  children svg_g !! i = Some el ->
  (forall id, attrib el !! "id" = Some id -> _ensure_has_id svg_g i = Ok svg_g)
  /\ (attrib el !! "id" = None -> attrib svg_g !! "id" = None ->
      _ensure_has_id svg_g i = Raise (KeyError "id"))
  /\ (forall pid, attrib el !! "id" = None -> attrib svg_g !! "id" = Some pid ->
      exists svg_g',
        _ensure_has_id svg_g i = Ok svg_g'
        /\ tag svg_g' = tag svg_g /\ attrib svg_g' = attrib svg_g
        /\ children svg_g'
           = <[i := set_attrib el "id" (pid +:+ "::" +:+ pretty i)]>
               (children svg_g)
        /\ _ensure_has_id svg_g' i = Ok svg_g'
        /\ forall j el_j svg_g'',
             j <> i -> children svg_g !! j = Some el_j ->
             attrib el_j !! "id" = None ->
             _ensure_has_id svg_g' j = Ok svg_g'' ->
             exists id_i id_j el_i' el_j',
               children svg_g'' !! i = Some el_i'
               /\ children svg_g'' !! j = Some el_j'
               /\ attrib el_i' !! "id" = Some id_i
               /\ attrib el_j' !! "id" = Some id_j
               /\ id_i <> id_j).
Proof.
  intros Hel. split; [|split].
  - intros id Hid. unfold _ensure_has_id. rewrite Hel.
    rewrite bool_decide_eq_true_2 by eauto. done.
  - intros Hno Hpno. unfold _ensure_has_id, getattr. rewrite Hel.
    rewrite bool_decide_eq_false_2 by (rewrite Hno; by intros [? ?]).
    by rewrite Hpno.
  - intros pid Hno Hpid. unfold _ensure_has_id at 1. unfold getattr.
    rewrite Hel.
    rewrite bool_decide_eq_false_2 by (rewrite Hno; by intros [? ?]).
    rewrite Hpid. simpl. eexists. split; [done|].
    assert (i < length (children svg_g)) as Hi by (by eapply lookup_lt_Some).
    split; [done|]. split; [done|]. split; [done|]. split.
    + unfold _ensure_has_id. simpl. rewrite list_lookup_insert_eq by done.
      rewrite bool_decide_eq_true_2; [done|].
      simpl. rewrite lookup_insert_eq. eauto.
    + intros j el_j svg_g'' Hj Hel_j Hno_j Hens.
      unfold _ensure_has_id, getattr in Hens. simpl in Hens.
      rewrite list_lookup_insert_ne in Hens by done.
      rewrite Hel_j in Hens.
      rewrite bool_decide_eq_false_2 in Hens
        by (rewrite Hno_j; by intros [? ?]).
      rewrite Hpid in Hens. simpl in Hens. injection Hens as <-.
      assert (j < length (children svg_g)) as Hjlt
        by (by eapply lookup_lt_Some).
      eexists _, _, _, _. simpl.
      split.
      { rewrite list_lookup_insert_ne by done.
        by apply list_lookup_insert_eq. }
      split.
      { apply list_lookup_insert_eq. by rewrite length_insert. }
      split; [simpl; apply lookup_insert_eq|].
      split; [simpl; apply lookup_insert_eq|].
      intros E. apply generated_id_inj in E. done.
Qed.

(** A group of two shapes without ids. *)
Lemma ensure_has_id_gives_stable_ids_witness :
  exists svg_g',
    _ensure_has_id
      (mkElement "g" {[ "id" := "emoji_1f600" ]}
         [mkElement "path" ∅ []; mkElement "path" ∅ []]) 1
    = Ok svg_g'
    /\ children svg_g'
       = [mkElement "path" ∅ [];
          mkElement "path" {[ "id" := "emoji_1f600::1" ]} []]
    /\ _ensure_has_id svg_g' 1 = Ok svg_g'.
Proof.
  destruct (ensure_has_id_gives_stable_ids
              (mkElement "g" {[ "id" := "emoji_1f600" ]}
                 [mkElement "path" ∅ []; mkElement "path" ∅ []]) 1
              (mkElement "path" ∅ []) eq_refl) as (_ & _ & H).
  destruct (H "emoji_1f600" eq_refl eq_refl)
    as (svg_g' & Hens & _ & _ & Hch & Hagain & _).
  exists svg_g'. split; [exact Hens|]. split; [|exact Hagain].
  rewrite Hch. reflexivity.
Defined.

Lemma add_unique_gradients_step_eq (etree_tostring : Element -> string)
  (cg : ColorGlyph) (iu : IdUpdates) (defs : list Element) (g : Element)
  (curr : string) :
  attrib g !! "id" = Some curr ->
  _add_unique_gradients_step etree_tostring cg (iu, defs) g
  = match iu !! gradient_xml etree_tostring g with
    | Some known => Ok (<[inl curr := known]> iu, defs)
    | None =>
        Ok (<[gradient_xml etree_tostring g
              := glyph_name_ cg +:+ "::" +:+ curr]>
              (<[inl curr := glyph_name_ cg +:+ "::" +:+ curr]> iu),
            defs ++ [renamed_gradient (glyph_name_ cg) g curr])
    end.
Proof.
  intros Hcurr. unfold _add_unique_gradients_step, getattr. by rewrite Hcurr.
Qed.

(** The loop of [_add_unique_gradients] over gradients that all have an
    id. *)
Lemma add_unique_gradients_loop (etree_tostring : Element -> string)
  (cg : ColorGlyph) (gradients : list Element) : forall iu defs,
  Forall (fun g => is_Some (attrib g !! "id")) gradients ->
  exists iu' news,
    foldM (_add_unique_gradients_step etree_tostring cg) (iu, defs) gradients
    = Ok (iu', defs ++ news)
    /\ (forall x v, iu !! inr x = Some v -> iu' !! inr x = Some v)
    /\ (forall k v, iu !! inl k = Some v ->
          (forall g, g ∈ gradients -> attrib g !! "id" <> Some k) ->
          iu' !! inl k = Some v)
    /\ (forall g, g ∈ gradients ->
          is_Some (iu' !! gradient_xml etree_tostring g))
    /\ Forall (fun n => exists g curr,
                 g ∈ gradients /\ attrib g !! "id" = Some curr
                 /\ iu !! gradient_xml etree_tostring g = None
                 /\ n = renamed_gradient (glyph_name_ cg) g curr) news
    /\ length news <= length gradients
    /\ ((forall g, g ∈ gradients ->
           is_Some (iu !! gradient_xml etree_tostring g)) -> news = [])
    /\ (NoDup ((fun g => attrib g !! "id") <$> gradients) ->
        forall g curr, g ∈ gradients -> attrib g !! "id" = Some curr ->
          is_Some (iu' !! inl curr)
          /\ iu' !! inl curr = iu' !! gradient_xml etree_tostring g).
Proof.
  induction gradients as [|g rest IH]; intros iu defs Hids.
  - exists iu, []. rewrite app_nil_r. split; [done|].
    split; [done|]. split; [done|].
    split; [intros g Hg; by apply elem_of_nil in Hg|].
    split; [constructor|]. split; [done|]. split; [done|].
    intros _ g curr Hg. by apply elem_of_nil in Hg.
  - apply Forall_cons in Hids as [[curr Hcurr] Hids].
    rewrite foldM_cons.
    rewrite (add_unique_gradients_step_eq _ _ _ _ _ _ Hcurr).
    destruct (iu !! gradient_xml etree_tostring g) as [known|] eqn:Hxml.
    + (* the serialization is known *)
      rewrite bind_Ok_l.
      destruct (IH (<[inl curr := known]> iu) defs Hids)
        as (iu' & news & Hrun & Hinr & Hinl & Hkeys & Hnews & Hlen & Hnone
            & Hmap).
      exists iu', news. split; [done|].
      split.
      { intros x v Hx. apply Hinr. by rewrite lookup_insert_ne. }
      split.
      { intros k v Hk Hfree. apply Hinl.
        - rewrite lookup_insert_ne; [done|].
          intros [= ->]. apply (Hfree g); [left | done].
        - intros g' Hg'. apply Hfree. by right. }
      split.
      { intros g' Hg'. apply elem_of_cons in Hg' as [-> | Hg'];
          [|by apply Hkeys].
        exists known. apply Hinr. by rewrite lookup_insert_ne. }
      split.
      { eapply Forall_impl; [exact Hnews|]. simpl.
        intros n (g' & curr' & Hg' & Hc' & Hn' & ->).
        exists g', curr'. split; [by right|]. split; [done|].
        split; [|done].
        unfold gradient_xml in *. by rewrite lookup_insert_ne in Hn'. }
      split; [simpl; lia|].
      split.
      { intros Hall. apply Hnone. intros g' Hg'.
        destruct (Hall g') as [v Hv]; [by right|].
        exists v. unfold gradient_xml in *. by rewrite lookup_insert_ne. }
      intros Hnd g' curr' Hg' Hc'. rewrite fmap_cons in Hnd.
      apply NoDup_cons in Hnd as [Hfresh Hnd].
      apply elem_of_cons in Hg' as [-> | Hg']; [|by apply Hmap].
      assert (curr' = curr) as -> by congruence.
      assert (iu' !! inl curr = Some known) as E1.
      { apply Hinl; [apply lookup_insert_eq|].
        intros g' Hg' Hc''. apply Hfresh. rewrite Hcurr, <- Hc''.
        apply list_elem_of_fmap. eauto. }
      assert (iu' !! gradient_xml etree_tostring g = Some known) as E2.
      { apply Hinr. unfold gradient_xml in *. by rewrite lookup_insert_ne. }
      rewrite E1, E2. eauto.
    + (* a new serialization *)
      rewrite bind_Ok_l.
      set (new_id := glyph_name_ cg +:+ "::" +:+ curr).
      set (iu1 := <[gradient_xml etree_tostring g := new_id]>
                    (<[inl curr := new_id]> iu)).
      destruct (IH iu1 (defs ++ [renamed_gradient (glyph_name_ cg) g curr])
                  Hids)
        as (iu' & news & Hrun & Hinr & Hinl & Hkeys & Hnews & Hlen & Hnone
            & Hmap).
      exists iu', (renamed_gradient (glyph_name_ cg) g curr :: news).
      split.
      { rewrite Hrun. by rewrite <- app_assoc. }
      assert (forall x v, iu !! inr x = Some v -> iu1 !! inr x = Some v)
        as Hkeep.
      { intros x v Hx. subst iu1. unfold gradient_xml in *.
        rewrite lookup_insert_ne
          by (intros E; rewrite E in Hxml; congruence).
        by rewrite lookup_insert_ne. }
      split; [intros x v Hx; by apply Hinr, Hkeep|].
      split.
      { intros k v Hk Hfree. apply Hinl.
        - subst iu1. unfold gradient_xml.
          rewrite lookup_insert_ne by done.
          rewrite lookup_insert_ne; [done|].
          intros [= ->]. apply (Hfree g); [left | done].
        - intros g' Hg'. apply Hfree. by right. }
      split.
      { intros g' Hg'. apply elem_of_cons in Hg' as [-> | Hg'];
          [|by apply Hkeys].
        exists new_id. apply Hinr. subst iu1. unfold gradient_xml.
        apply lookup_insert_eq. }
      split.
      { constructor.
        - exists g, curr. split; [left|]. done.
        - eapply Forall_impl; [exact Hnews|]. simpl.
          intros n (g' & curr' & Hg' & Hc' & Hn' & ->).
          exists g', curr'. split; [by right|]. split; [done|].
          split; [|done].
          destruct (iu !! gradient_xml etree_tostring g') as [v|] eqn:E;
            [|done].
          apply Hkeep in E. unfold gradient_xml in *. congruence. }
      split; [simpl; lia|].
      split.
      { intros Hall. destruct (Hall g) as [v Hv]; [left|].
        unfold gradient_xml in *. congruence. }
      intros Hnd g' curr' Hg' Hc'. rewrite fmap_cons in Hnd.
      apply NoDup_cons in Hnd as [Hfresh Hnd].
      apply elem_of_cons in Hg' as [-> | Hg']; [|by apply Hmap].
      assert (curr' = curr) as -> by congruence.
      assert (iu' !! inl curr = Some new_id) as E1.
      { apply Hinl.
        - subst iu1. unfold gradient_xml.
          rewrite lookup_insert_ne by done. apply lookup_insert_eq.
        - intros g' Hg' Hc''. apply Hfresh. rewrite Hcurr, <- Hc''.
          apply list_elem_of_fmap. eauto. }
      assert (iu' !! gradient_xml etree_tostring g = Some new_id) as E2.
      { apply Hinr. subst iu1. unfold gradient_xml. apply lookup_insert_eq. }
      rewrite E1, E2. eauto.
Qed.

(** The loop of [_add_unique_gradients] when a gradient has no id. *)
Lemma add_unique_gradients_raise (etree_tostring : Element -> string)
  (cg : ColorGlyph) (gradients : list Element) : forall iu defs,
  Exists (fun g => attrib g !! "id" = None) gradients ->
  foldM (_add_unique_gradients_step etree_tostring cg) (iu, defs) gradients
  = Raise (KeyError "id").
Proof.
  induction gradients as [|g rest IH]; intros iu defs Hex.
  - by apply Exists_nil in Hex.
  - rewrite foldM_cons. destruct (attrib g !! "id") as [curr|] eqn:Hcurr.
    + rewrite (add_unique_gradients_step_eq _ _ _ _ _ _ Hcurr).
      apply Exists_cons in Hex as [Hex | Hex]; [congruence|].
      destruct (iu !! gradient_xml etree_tostring g);
        rewrite bind_Ok_l; by apply IH.
    + unfold _add_unique_gradients_step, getattr. by rewrite Hcurr.
Qed.

(** X5: [_add_unique_gradients], when every gradient of the glyph has an
    id, appends to the defs only gradients whose serialization was not yet
    recorded in [id_updates], each renamed after the glyph, and none at all
    when every serialization was recorded; it records every serialization
    and keeps the ones recorded before; with distinct ids in the glyph, the
    id of every gradient is mapped to the id recorded for its serialization;
    and a second run for the same glyph appends nothing.  A gradient without
    an id makes it raise [KeyError]. *)
Theorem add_unique_gradients_appends_new_only
  (etree_tostring : Element -> string) (id_updates : IdUpdates)
  (svg_defs : list Element) (color_glyph : ColorGlyph) :
  let gradients := picosvg_defs color_glyph in
  let run :=
    _add_unique_gradients etree_tostring id_updates svg_defs color_glyph in
  (Forall (fun g => is_Some (attrib g !! "id")) gradients ->
   exists id_updates' news,
     run = Ok (id_updates', svg_defs ++ news)
     /\ Forall (fun n => exists g curr,
                  g ∈ gradients /\ attrib g !! "id" = Some curr
                  /\ id_updates !! gradient_xml etree_tostring g = None
                  /\ n = renamed_gradient (glyph_name_ color_glyph) g curr)
          news
     /\ ((forall g, g ∈ gradients ->
            is_Some (id_updates !! gradient_xml etree_tostring g)) ->
         news = [])
     /\ (forall x v, id_updates !! inr x = Some v ->
           id_updates' !! inr x = Some v)
     /\ (forall g, g ∈ gradients ->
           is_Some (id_updates' !! gradient_xml etree_tostring g))
     /\ (NoDup ((fun g => attrib g !! "id") <$> gradients) ->
         forall g curr, g ∈ gradients -> attrib g !! "id" = Some curr ->
           is_Some (id_updates' !! inl curr)
           /\ id_updates' !! inl curr
              = id_updates' !! gradient_xml etree_tostring g)
     /\ exists id_updates'',
          _add_unique_gradients etree_tostring id_updates'
            (svg_defs ++ news) color_glyph
          = Ok (id_updates'', svg_defs ++ news))
  /\ (Exists (fun g => attrib g !! "id" = None) gradients ->
      run = Raise (KeyError "id")).
Proof.
  intros gradients run. subst run. unfold _add_unique_gradients.
  fold gradients. split.
  - intros Hids.
    destruct (add_unique_gradients_loop etree_tostring color_glyph gradients
                id_updates svg_defs Hids)
      as (iu' & news & Hrun & Hinr & _ & Hkeys & Hnews & _ & Hnone & Hmap).
    exists iu', news. do 6 (split; [done|]).
    destruct (add_unique_gradients_loop etree_tostring color_glyph gradients
                iu' (svg_defs ++ news) Hids)
      as (iu'' & news' & Hrun' & _ & _ & _ & _ & _ & Hnone' & _).
    exists iu''. rewrite Hrun'. rewrite (Hnone' Hkeys). by rewrite app_nil_r.
  - apply add_unique_gradients_raise.
Qed.

(** The gradient of the second sample glyph, serialized by its tag; and a
    gradient that has no id. *)
Lemma add_unique_gradients_appends_new_only_witness :
  (exists id_updates' news,
     _add_unique_gradients tag ∅ [] sample_1f601
     = Ok (id_updates', [] ++ news)
     /\ is_Some (id_updates' !! inl "g1")
     /\ exists id_updates'',
          _add_unique_gradients tag id_updates' ([] ++ news) sample_1f601
          = Ok (id_updates'', [] ++ news))
  /\ _add_unique_gradients tag ∅ []
       (mkColorGlyph "emoji_1f604" 6 [128516%Z] []
          [mkElement "linearGradient" ∅ []] sample_transform)
     = Raise (KeyError "id").
Proof.
  split.
  - destruct (proj1 (add_unique_gradients_appends_new_only tag ∅ []
                       sample_1f601))
      as (iu' & news & Hrun & _ & _ & _ & _ & Hmap & Hagain).
    { repeat constructor. by eexists. }
    exists iu', news. split; [exact Hrun|]. split; [|exact Hagain].
    apply (Hmap (NoDup_singleton _) sample_gradient "g1").
    + left.
    + reflexivity.
  - apply (proj2 (add_unique_gradients_appends_new_only tag ∅ []
                    (mkColorGlyph "emoji_1f604" 6 [128516%Z] []
                       [mkElement "linearGradient" ∅ []] sample_transform))).
    left. reflexivity.
Defined.


(* ===================================================================== *)
(** * Properties: the glyph order of the SVG encoder *)
(* ===================================================================== *)

Lemma foldM_app {S A} (body : S -> A -> result S) (l1 l2 : list A) :
  forall s,
  foldM body s (l1 ++ l2) = foldM body s l1 ≫= fun s' => foldM body s' l2.
Proof.
  induction l1 as [|x l1 IH]; intros s; [done|].
  simpl. destruct (body s x) as [s'|e]; [|done]. apply IH.
Qed.

(** The two nested loops of [_svg_update_glyph_order] are one loop over the
    names of all groups. *)
Lemma svg_update_groups_flat (groups : list (list string)) :
  forall cgs order gid,
  foldM _svg_update_glyph_order_group (cgs, order, gid) groups
  = foldM _svg_update_glyph_order_name (cgs, gid) (concat groups)
    ≫= fun '(cgs', gid') => Ok (cgs', order ++ concat groups, gid').
Proof.
  induction groups as [|group groups IH]; intros cgs order gid.
  - simpl. by rewrite app_nil_r.
  - rewrite foldM_cons. simpl concat. rewrite foldM_app.
    change (_svg_update_glyph_order_group (cgs, order, gid) group)
      with (foldM _svg_update_glyph_order_name (cgs, gid) group
            ≫= fun '(cgs', gid') => Ok (cgs', order ++ group, gid')).
    destruct (foldM _svg_update_glyph_order_name (cgs, gid) group)
      as [[cgs1 gid1]|e]; [|reflexivity].
    rewrite !bind_Ok_l. rewrite IH.
    destruct (foldM _svg_update_glyph_order_name (cgs1, gid1) (concat groups))
      as [[cgs2 gid2]|e]; [|reflexivity].
    rewrite !bind_Ok_l. by rewrite app_assoc.
Qed.

Lemma svg_update_name_Some (cgs : gmap string ColorGlyph) (gid : nat)
  (name : string) (c : ColorGlyph) :
  cgs !! name = Some c ->
  _svg_update_glyph_order_name (cgs, gid) name
  = Ok (<[name := replace_glyph_id c gid]> cgs, S gid).
Proof. intros H. unfold _svg_update_glyph_order_name. by rewrite H. Qed.

Lemma svg_update_name_None (cgs : gmap string ColorGlyph) (gid : nat)
  (name : string) :
  cgs !! name = None ->
  _svg_update_glyph_order_name (cgs, gid) name = Raise (KeyError name).
Proof. intros H. unfold _svg_update_glyph_order_name. by rewrite H. Qed.

(** The loop over the names, when the dict has them all. *)
Lemma svg_update_names_spec (names : list string) : forall cgs gid,
  (forall n, n ∈ names -> is_Some (cgs !! n)) ->
  exists cgs',
    foldM _svg_update_glyph_order_name (cgs, gid) names
    = Ok (cgs', gid + length names)
    /\ (forall n, is_Some (cgs' !! n) <-> is_Some (cgs !! n))
    /\ (forall n, n ∉ names -> cgs' !! n = cgs !! n)
    /\ (NoDup names -> forall m n, names !! m = Some n ->
          exists c, cgs !! n = Some c
                    /\ cgs' !! n = Some (replace_glyph_id c (gid + m))).
Proof.
  induction names as [|name names IH]; intros cgs gid Hall.
  - exists cgs. simpl. rewrite Nat.add_0_r. split; [done|].
    split; [done|]. split; [done|]. intros _ m n Hm. done.
  - destruct (Hall name) as [c Hc]; [left|].
    rewrite foldM_cons, (svg_update_name_Some _ _ _ _ Hc), bind_Ok_l.
    set (cgs1 := <[name := replace_glyph_id c gid]> cgs).
    assert (forall n, is_Some (cgs1 !! n) <-> is_Some (cgs !! n)) as Hdom.
    { intros n. subst cgs1. destruct (decide (n = name)) as [->|Hn].
      - rewrite lookup_insert_eq, Hc. split; eauto.
      - by rewrite lookup_insert_ne. }
    destruct (IH cgs1 (S gid)) as (cgs' & Hrun & Hdom' & Hout & Hin).
    { intros n Hn. apply Hdom, Hall. by right. }
    exists cgs'. split; [rewrite Hrun; simpl; do 2 f_equal; lia|].
    split; [intros n; by rewrite Hdom', Hdom|].
    split.
    { intros n Hn. apply not_elem_of_cons in Hn as [Hne Hn].
      rewrite (Hout n Hn). subst cgs1. by rewrite lookup_insert_ne. }
    intros Hnd m n Hm. apply NoDup_cons in Hnd as [Hfresh Hnd].
    destruct m as [|m]; simpl in Hm.
    + injection Hm as <-. exists c. split; [done|].
      rewrite (Hout name Hfresh). subst cgs1.
      rewrite lookup_insert_eq. by rewrite Nat.add_0_r.
    + destruct (Hin Hnd m n Hm) as (c' & Hc' & Hc'').
      assert (n <> name) as Hne.
      { intros ->. apply Hfresh. by eapply list_elem_of_lookup_2. }
      subst cgs1. rewrite lookup_insert_ne in Hc' by done.
      exists c'. split; [done|]. rewrite Hc''. do 2 f_equal. lia.
Qed.

(** The loop over the names, when the dict lacks one. *)
Lemma svg_update_names_raise (names : list string) : forall cgs gid,
  ~ (forall n, n ∈ names -> is_Some (cgs !! n)) ->
  exists before n after,
    names = before ++ n :: after
    /\ (forall n', n' ∈ before -> is_Some (cgs !! n'))
    /\ cgs !! n = None
    /\ foldM _svg_update_glyph_order_name (cgs, gid) names
       = Raise (KeyError n).
Proof.
  induction names as [|name names IH]; intros cgs gid Hnot.
  - exfalso. apply Hnot. intros n Hn. by apply elem_of_nil in Hn.
  - rewrite foldM_cons.
    destruct (cgs !! name) as [c|] eqn:Hc.
    + rewrite (svg_update_name_Some _ _ _ _ Hc), bind_Ok_l.
      set (cgs1 := <[name := replace_glyph_id c gid]> cgs).
      assert (forall n, is_Some (cgs1 !! n) <-> is_Some (cgs !! n)) as Hdom.
      { intros n. subst cgs1. destruct (decide (n = name)) as [->|Hn].
        - rewrite lookup_insert_eq, Hc. split; eauto.
        - by rewrite lookup_insert_ne. }
      destruct (IH cgs1 (S gid))
        as (before & n & after & -> & Hbefore & Hn & Hrun).
      { intros Hall. apply Hnot. intros n Hn.
        apply elem_of_cons in Hn as [-> | Hn]; [eauto|].
        by apply Hdom, Hall. }
      exists (name :: before), n, after. split; [done|].
      split.
      { intros n' Hn'. apply elem_of_cons in Hn' as [-> | Hn']; [eauto|].
        by apply Hdom, Hbefore. }
      split; [|done].
      destruct (cgs !! n) as [c'|] eqn:E; [|done].
      assert (is_Some (cgs1 !! n)) as [? ?] by (apply Hdom; eauto).
      congruence.
    + exists [], name, names.
      rewrite (svg_update_name_None _ _ _ Hc).
      split; [done|]. split; [|done].
      intros n' Hn'. by apply elem_of_nil in Hn'.
Qed.

Lemma lookup_concat_group {A} (groups : list (list A)) :
  forall l group m n,
  groups !! l = Some group -> group !! m = Some n ->
  concat groups !! (length (concat (take l groups)) + m) = Some n.
Proof.
  induction groups as [|g groups IH]; intros l group m n Hl Hm; [done|].
  destruct l as [|l]; simpl in *.
  - injection Hl as ->. by apply lookup_app_l_Some.
  - rewrite length_app, <- Nat.add_assoc.
    rewrite lookup_app_r by lia.
    replace (length g + (length (concat (take l groups)) + m) - length g)
      with (length (concat (take l groups)) + m) by lia.
    by eapply IH.
Qed.

(** X6: [_svg_update_glyph_order], given groups that name glyphs of the
    dict, each once: the new glyph order is the old one without its last
    [len(color_glyphs)] names, followed by the groups one after the other;
    a glyph outside the groups keeps its entry; and the member [m] of the
    group [l] gets the glyph id that is its position in the new order, the
    ids of a group following one another and the groups following each
    other.  A name the dict lacks raises [KeyError]. *)
Theorem svg_update_glyph_order_renumbers
  (color_glyphs : gmap string ColorGlyph) (ttfont : TTFont)
  (reuse_groups : list (list string)) :
  let kept := slice_to_neg (getGlyphOrder ttfont) (size color_glyphs) in
  let names := concat reuse_groups in
  let run := _svg_update_glyph_order color_glyphs ttfont reuse_groups in
  ((forall n, n ∈ names -> is_Some (color_glyphs !! n)) -> NoDup names ->
   exists color_glyphs',
     run = Ok (color_glyphs', setGlyphOrder ttfont (kept ++ names))
     /\ (forall n, is_Some (color_glyphs' !! n)
                   <-> is_Some (color_glyphs !! n))
     /\ (forall n, n ∉ names -> color_glyphs' !! n = color_glyphs !! n)
     /\ forall l group m n,
          reuse_groups !! l = Some group -> group !! m = Some n ->
          exists c,
            color_glyphs !! n = Some c
            /\ color_glyphs' !! n
               = Some (replace_glyph_id c
                         (length kept + length (concat (take l reuse_groups))
                          + m))
            /\ (kept ++ names)
               !! (length kept + length (concat (take l reuse_groups)) + m)
               = Some n)
  /\ (~ (forall n, n ∈ names -> is_Some (color_glyphs !! n)) ->
      exists n,
        n ∈ names /\ color_glyphs !! n = None /\ run = Raise (KeyError n))
  /\ (forall prefix olds,
        getGlyphOrder ttfont = prefix ++ olds ->
        length olds = size color_glyphs -> 0 < size color_glyphs ->
        kept = prefix).
Proof.
  intros kept names run. subst run. unfold _svg_update_glyph_order.
  fold kept. rewrite svg_update_groups_flat. fold names.
  split; [|split].
  - intros Hall Hnd.
    destruct (svg_update_names_spec names color_glyphs (length kept) Hall)
      as (cgs' & Hrun & Hdom & Hout & Hin).
    exists cgs'. rewrite Hrun. split; [done|]. split; [done|].
    split; [done|].
    intros l group m n Hl Hm.
    pose proof (lookup_concat_group reuse_groups l group m n Hl Hm) as Hpos.
    fold names in Hpos.
    destruct (Hin Hnd _ _ Hpos) as (c & Hc & Hc').
    exists c. split; [done|]. split.
    + rewrite Hc'. do 2 f_equal. lia.
    + rewrite <- Nat.add_assoc. rewrite lookup_app_r by lia.
      rewrite <- Hpos. f_equal. lia.
  - intros Hnot.
    destruct (svg_update_names_raise names color_glyphs (length kept) Hnot)
      as (before & n & after & Hnames & _ & Hn & Hrun).
    exists n. split; [rewrite Hnames; set_solver|]. split; [done|].
    by rewrite Hrun.
  - intros prefix olds Horder Hlen Hpos. subst kept.
    unfold slice_to_neg. destruct (size color_glyphs) as [|k] eqn:E; [lia|].
    rewrite Horder, length_app, Hlen.
    replace (length prefix + S k - S k) with (length prefix) by lia.
    by rewrite take_app_length.
Qed.

(** X7: without color glyphs [_svg_update_glyph_order] keeps no name of the
    old glyph order, [order[:-0]] being empty: with no name in the groups
    the font is left with an empty glyph order, and the first name of the
    groups raises [KeyError]. *)
Theorem svg_update_glyph_order_without_glyphs (ttfont : TTFont)
  (reuse_groups : list (list string)) :
  (concat reuse_groups = [] ->
   _svg_update_glyph_order ∅ ttfont reuse_groups
   = Ok (∅, setGlyphOrder ttfont []))
  /\ (forall n rest, concat reuse_groups = n :: rest ->
      _svg_update_glyph_order ∅ ttfont reuse_groups = Raise (KeyError n)).
Proof.
  unfold _svg_update_glyph_order. rewrite svg_update_groups_flat.
  rewrite map_size_empty. simpl slice_to_neg. split.
  - intros ->. reflexivity.
  - intros n rest ->. reflexivity.
Qed.

(** A font of five glyphs, the last three the sample glyphs, the first of
    them alone in the second group. *)
Lemma svg_update_glyph_order_renumbers_witness :
  exists color_glyphs',
    _svg_update_glyph_order (by_glyph_name sample_glyphs) sample_ttfont
      [["emoji_1f601"; "emoji_1f602"]; ["emoji_1f600"]]
    = Ok (color_glyphs',
          setGlyphOrder sample_ttfont
            ([".notdef"; ".space"]
             ++ ["emoji_1f601"; "emoji_1f602"; "emoji_1f600"]))
    /\ glyph_id <$> color_glyphs' !! "emoji_1f600" = Some 4.
Proof.
  pose proof (svg_update_glyph_order_renumbers (by_glyph_name sample_glyphs)
                sample_ttfont
                [["emoji_1f601"; "emoji_1f602"]; ["emoji_1f600"]])
    as (Hok & _ & _).
  destruct Hok as (cgs' & Hrun & _ & _ & Hid).
  - intros n Hn. vm_compute in Hn.
    apply elem_of_cons in Hn as [-> | Hn]; [by eexists|].
    apply elem_of_cons in Hn as [-> | Hn]; [by eexists|].
    apply list_elem_of_singleton in Hn as ->. by eexists.
  - apply (bool_decide_unpack _). vm_compute. exact I.
  - exists cgs'. split; [exact Hrun|].
    destruct (Hid 1 ["emoji_1f600"] 0 "emoji_1f600" eq_refl eq_refl)
      as (c & _ & Hc & _).
    rewrite Hc. reflexivity.
Defined.

(** A font whose glyph order is lost. *)
Lemma svg_update_glyph_order_without_glyphs_witness :
  getGlyphOrder sample_ttfont <> []
  /\ _svg_update_glyph_order ∅ sample_ttfont []
     = Ok (∅, setGlyphOrder sample_ttfont []).
Proof.
  split; [discriminate|].
  apply (proj1 (svg_update_glyph_order_without_glyphs sample_ttfont [])).
  reflexivity.
Defined.


(* ===================================================================== *)
(** * Properties: the documents of the SVG table *)
(* ===================================================================== *)

Lemma fold_left_min_spec (l : list nat) : forall x,
  (forall y, y ∈ x :: l -> fold_left Nat.min l x <= y)
  /\ fold_left Nat.min l x ∈ x :: l.
Proof.
  induction l as [|z l IH]; intros x; simpl.
  - split; [|left]. intros y Hy. apply list_elem_of_singleton in Hy. lia.
  - destruct (IH (Nat.min x z)) as [Hle Hin]. split.
    + intros y Hy.
      assert (fold_left Nat.min l (x `min` z) <= x `min` z)
        by (apply Hle; left).
      apply elem_of_cons in Hy as [-> | Hy]; [lia|].
      apply elem_of_cons in Hy as [-> | Hy]; [lia|].
      apply Hle. by right.
    + apply elem_of_cons in Hin as [-> | Hin].
      * destruct (Nat.min_spec x z) as [[_ ->] | [_ ->]];
          [left | right; left].
      * by do 2 right.
Qed.

Lemma fold_left_max_spec (l : list nat) : forall x,
  (forall y, y ∈ x :: l -> y <= fold_left Nat.max l x)
  /\ fold_left Nat.max l x ∈ x :: l.
Proof.
  induction l as [|z l IH]; intros x; simpl.
  - split; [|left]. intros y Hy. apply list_elem_of_singleton in Hy. lia.
  - destruct (IH (Nat.max x z)) as [Hle Hin]. split.
    + intros y Hy.
      assert (x `max` z <= fold_left Nat.max l (x `max` z))
        by (apply Hle; left).
      apply elem_of_cons in Hy as [-> | Hy]; [lia|].
      apply elem_of_cons in Hy as [-> | Hy]; [lia|].
      apply Hle. by right.
    + apply elem_of_cons in Hin as [-> | Hin].
      * destruct (Nat.max_spec x z) as [[_ ->] | [_ ->]];
          [right; left | left].
      * by do 2 right.
Qed.

(** [color_glyphs[g].glyph_id for g in group]. *)
Lemma group_gids_spec (cgs : gmap string ColorGlyph) (group : list string) :
  (forall gids, group_gids cgs group = Ok gids ->
     Forall2 (fun g gid => exists c, cgs !! g = Some c /\ glyph_id c = gid)
       group gids)
  /\ ((forall g, g ∈ group -> is_Some (cgs !! g)) ->
      exists gids, group_gids cgs group = Ok gids).
Proof.
  induction group as [|g group [IH1 IH2]]; simpl.
  - split; [intros gids [= <-]; constructor | eauto].
  - split.
    + intros gids H. destruct (cgs !! g) as [c|] eqn:Hc; [|done].
      destruct (group_gids cgs group) as [gids'|]; [|done].
      injection H as <-. constructor; [eauto | by apply IH1].
    + intros Hall. destruct (Hall g) as [c ->]; [left|].
      destruct IH2 as [gids ->]; [intros g' ?; apply Hall; by right|].
      eauto.
Qed.

Lemma add_glyph_to_svg_ok (to_element : SVGPath -> Element)
  (ntos : Z -> string) (svg : SVG) (c : ColorGlyph) (iu : IdUpdates) :
  Forall (fun l => Forall pure_translation (reuses l)) (as_painted_layers c) ->
  exists svg_g,
    _add_glyph_to_svg to_element ntos svg c iu
    = Ok (mkSVG (svg_defs svg) (svg_groups svg ++ [svg_g])).
Proof.
  intros Hpure.
  set (g0 := mkElement "g" {[ "id" := glyph_name_ c ]} []).
  assert (svg_g_inv to_element ntos iu (as_painted_layers c) g0 ∅) as Hinv.
  { split; [by eexists|]. split; [intros k i Hk | intros k i t Hk];
      by rewrite lookup_empty in Hk. }
  pose proof (add_glyph_to_svg_layers_spec to_element ntos iu
                (as_painted_layers c) (as_painted_layers c) g0 ∅
                (fun _ H => H) Hinv) as Hrun.
  rewrite decide_True in Hrun by done.
  destruct Hrun as (g' & glyphs' & Hrun & _).
  unfold _add_glyph_to_svg, _add_glyph_to_svg_group. fold g0.
  rewrite Hrun. eauto.
Qed.

(** The loop of [_svg_ttfont] over the glyphs of a group. *)
Lemma svg_ttfont_glyphs_ok (to_element : SVGPath -> Element)
  (ntos : Z -> string) (etree_tostring : Element -> string)
  (cgs : gmap string ColorGlyph) (group : list string) : forall iu svg,
  (forall g, g ∈ group -> exists c, cgs !! g = Some c /\ svg_encodable c) ->
  exists iu' svg',
    foldM (_svg_ttfont_glyph to_element ntos etree_tostring cgs) (iu, svg)
      group = Ok (iu', svg')
    /\ length (svg_groups svg') = length (svg_groups svg) + length group.
Proof.
  induction group as [|g group IH]; intros iu svg Hall.
  - exists iu, svg. split; [done|]. simpl. lia.
  - destruct (Hall g) as (c & Hc & Hgrad & Hpure); [left|].
    rewrite foldM_cons.
    assert (exists iu1 svg1,
              _svg_ttfont_glyph to_element ntos etree_tostring cgs (iu, svg) g
              = Ok (iu1, svg1)
              /\ length (svg_groups svg1) = S (length (svg_groups svg)))
      as (iu1 & svg1 & -> & Hlen1).
    { unfold _svg_ttfont_glyph. rewrite Hc.
      destruct (add_unique_gradients_loop etree_tostring c (picosvg_defs c)
                  iu (svg_defs svg) Hgrad) as (iu1 & news & Hrun & _).
      unfold _add_unique_gradients. rewrite Hrun, bind_Ok_l.
      destruct (add_glyph_to_svg_ok to_element ntos
                  (mkSVG (svg_defs svg ++ news) (svg_groups svg)) c iu1 Hpure)
        as (svg_g & ->).
      rewrite bind_Ok_l. eexists _, _. split; [done|].
      simpl. rewrite length_app. simpl. lia. }
    rewrite bind_Ok_l.
    destruct (IH iu1 svg1) as (iu' & svg' & Hrun & Hlen).
    { intros g' Hg'. apply Hall. by right. }
    exists iu', svg'. split; [done|]. simpl. lia.
Qed.

(** The body of the loop of [_svg_ttfont] over the groups. *)
Lemma svg_ttfont_group_spec (to_element : SVGPath -> Element)
  (ntos : Z -> string) (etree_tostring : Element -> string)
  (svg_tostring : SVG -> string) (color_glyphs : gmap string ColorGlyph)
  (doc_list : list (string * nat * nat)) (id_updates : IdUpdates)
  (group : list string) :
  let run :=
    _svg_ttfont_group to_element ntos etree_tostring svg_tostring color_glyphs
      (doc_list, id_updates) group in
  (group <> [] ->
   (forall g, g ∈ group ->
      exists c, color_glyphs !! g = Some c /\ svg_encodable c) ->
   exists xml lo hi id_updates',
     run = Ok (doc_list ++ [(xml, lo, hi)], id_updates')
     /\ (forall g c, g ∈ group -> color_glyphs !! g = Some c ->
           lo <= glyph_id c <= hi)
     /\ (exists g c, g ∈ group /\ color_glyphs !! g = Some c
                     /\ glyph_id c = lo)
     /\ (exists g c, g ∈ group /\ color_glyphs !! g = Some c
                     /\ glyph_id c = hi)
     /\ (forall start,
           (forall m g, group !! m = Some g ->
              exists c, color_glyphs !! g = Some c
                        /\ glyph_id c = start + m) ->
           lo = start /\ hi = start + length group - 1))
  /\ (group = [] ->
      run = Raise (ValueError "min() arg is an empty sequence")).
Proof.
  intros run. subst run. unfold _svg_ttfont_group. split.
  - intros Hne Hall.
    destruct (svg_ttfont_glyphs_ok to_element ntos etree_tostring color_glyphs
                group id_updates (mkSVG [] []) Hall)
      as (iu' & svg' & -> & _).
    rewrite bind_Ok_l.
    destruct (group_gids_spec color_glyphs group) as [Hgids Hsome].
    destruct Hsome as [gids Hrun].
    { intros g Hg. destruct (Hall g Hg) as (c & -> & _). eauto. }
    rewrite Hrun, bind_Ok_l. specialize (Hgids gids Hrun).
    destruct gids as [|x gids].
    { apply Forall2_nil_inv_r in Hgids. done. }
    simpl py_min. simpl py_max. rewrite !bind_Ok_l.
    destruct (fold_left_min_spec gids x) as [Hmin_le Hmin_in].
    destruct (fold_left_max_spec gids x) as [Hmax_le Hmax_in].
    set (lo := fold_left Nat.min gids x) in *.
    set (hi := fold_left Nat.max gids x) in *.
    assert (forall g c, g ∈ group -> color_glyphs !! g = Some c ->
              glyph_id c ∈ x :: gids) as Hmem.
    { intros g c Hg Hc. apply list_elem_of_lookup in Hg as [m Hm].
      destruct (Forall2_lookup_l _ _ _ _ _ Hgids Hm)
        as (gid & Hgid & c' & Hc' & <-).
      assert (c' = c) as -> by congruence.
      by eapply list_elem_of_lookup_2. }
    assert (forall gid, gid ∈ x :: gids ->
              exists g c, g ∈ group /\ color_glyphs !! g = Some c
                          /\ glyph_id c = gid) as Hback.
    { intros gid Hgid. apply list_elem_of_lookup in Hgid as [m Hm].
      destruct (Forall2_lookup_r _ _ _ _ _ Hgids Hm)
        as (g & Hg & c & Hc & <-).
      exists g, c. split; [by eapply list_elem_of_lookup_2 | done]. }
    exists (svg_tostring svg'), lo, hi, iu'. split; [done|].
    split.
    { intros g c Hg Hc. pose proof (Hmem g c Hg Hc) as Hin.
      split; [by apply Hmin_le | by apply Hmax_le]. }
    split; [by apply Hback|]. split; [by apply Hback|].
    intros start Hseq.
    assert (forall gid, gid ∈ x :: gids ->
              start <= gid <= start + length group - 1) as Hrange.
    { intros gid Hgid. destruct (Hback gid Hgid) as (g & c & Hg & Hc & <-).
      apply list_elem_of_lookup in Hg as [m Hm].
      destruct (Hseq m g Hm) as (c' & Hc' & Hid').
      assert (c' = c) as <- by congruence.
      apply lookup_lt_Some in Hm. lia. }
    destruct group as [|g0 group]; [done|].
    destruct (Hseq 0 g0 eq_refl) as (c0 & Hc0 & Hid0).
    assert (exists glast, (g0 :: group) !! length group = Some glast)
      as [glast Hlast] by (apply lookup_lt_is_Some; simpl; lia).
    destruct (Hseq _ _ Hlast) as (cl & Hcl & Hidl).
    pose proof (Hmem g0 c0 (ltac:(left)) Hc0) as Hin0.
    pose proof (Hmem glast cl (list_elem_of_lookup_2 _ _ _ Hlast) Hcl) as Hinl.
    pose proof (Hmin_le _ Hin0). pose proof (Hmax_le _ Hinl).
    pose proof (Hrange lo Hmin_in). pose proof (Hrange hi Hmax_in).
    simpl length in *. lia.
  - intros ->. reflexivity.
Qed.

(** X8: for a group of glyphs the encoder can write, [_svg_ttfont] appends
    one document whose range is the least and the greatest glyph id of the
    members of the group; when the ids of the members follow one another
    from [start], as [_svg_update_glyph_order] leaves them, the range is
    [start] to [start + len(group) - 1].  An empty group raises the
    [ValueError] of [min]. *)
Theorem svg_ttfont_group_records_id_range (to_element : SVGPath -> Element)
  (ntos : Z -> string) (etree_tostring : Element -> string)
  (svg_tostring : SVG -> string) (color_glyphs : gmap string ColorGlyph)
  (doc_list : list (string * nat * nat)) (id_updates : IdUpdates)
  (group : list string) :
  let run :=
    _svg_ttfont_group to_element ntos etree_tostring svg_tostring color_glyphs
      (doc_list, id_updates) group in
  (group <> [] ->
   (forall g, g ∈ group ->
      exists c, color_glyphs !! g = Some c /\ svg_encodable c) ->
   exists xml lo hi id_updates',
     run = Ok (doc_list ++ [(xml, lo, hi)], id_updates')
     /\ (forall g c, g ∈ group -> color_glyphs !! g = Some c ->
           lo <= glyph_id c <= hi)
     /\ (exists g c, g ∈ group /\ color_glyphs !! g = Some c
                     /\ glyph_id c = lo)
     /\ (exists g c, g ∈ group /\ color_glyphs !! g = Some c
                     /\ glyph_id c = hi)
     /\ (forall start,
           (forall m g, group !! m = Some g ->
              exists c, color_glyphs !! g = Some c
                        /\ glyph_id c = start + m) ->
           lo = start /\ hi = start + length group - 1))
  /\ (group = [] ->
      run = Raise (ValueError "min() arg is an empty sequence")).
Proof.
  exact (svg_ttfont_group_spec to_element ntos etree_tostring svg_tostring color_glyphs
    doc_list id_updates group).
Qed.

(** The group of the last two sample glyphs, with the ids 2 and 3. *)
Lemma svg_ttfont_group_records_id_range_witness :
  exists xml id_updates',
    _svg_ttfont_group sample_to_element pretty tag (fun _ => "<svg/>")
      (<["emoji_1f601" := replace_glyph_id sample_1f601 2]>
         (<["emoji_1f602" := replace_glyph_id sample_1f602 3]> ∅))
      ([], ∅) ["emoji_1f601"; "emoji_1f602"]
    = Ok ([] ++ [(xml, 2, 3)], id_updates').
Proof.
  pose proof (svg_ttfont_group_records_id_range sample_to_element pretty tag
                (fun _ => "<svg/>")
                (<["emoji_1f601" := replace_glyph_id sample_1f601 2]>
                   (<["emoji_1f602" := replace_glyph_id sample_1f602 3]> ∅))
                [] ∅ ["emoji_1f601"; "emoji_1f602"]) as [Hok _].
  destruct Hok as (xml & lo & hi & iu' & Hrun & _ & _ & _ & Hseq).
  - discriminate.
  - intros g Hg. apply elem_of_cons in Hg as [-> | Hg].
    + eexists. split; [reflexivity|]. split; repeat constructor; by eexists.
    + apply list_elem_of_singleton in Hg as ->.
      eexists. split; [reflexivity|]. split; repeat constructor; by eexists.
  - destruct (Hseq 2) as [-> ->].
    + intros [|[|m]] g Hm; try done; injection Hm as <-;
        eexists; (split; [reflexivity|]); reflexivity.
    + exists xml, iu'. exact Hrun.
Defined.


(* ===================================================================== *)
(** * Properties: the glyphs the encoders create *)
(* ===================================================================== *)

Lemma next_name_from_least (fuel : nat) (ufo : Font.t)
  (name_fn : nat -> string) : forall i name,
  _next_name_from fuel ufo name_fn i = Some name ->
  exists j,
    i <= j /\ j < i + fuel /\ name = name_fn j
    /\ Font.contains ufo (name_fn j) = false
    /\ forall k, i <= k < j -> Font.contains ufo (name_fn k) = true.
Proof.
  induction fuel as [|fuel IH]; intros i name; simpl; [done|].
  destruct (Font.contains ufo (name_fn i)) eqn:Hi.
  - intros H. destruct (IH _ _ H) as (j & Hle & Hlt & -> & Hfree & Hbelow).
    exists j. split; [lia|]. split; [lia|]. split; [done|].
    split; [done|]. intros k Hk.
    destruct (decide (k = i)) as [->|Hne]; [done|]. apply Hbelow. lia.
  - intros [= <-]. exists i. split; [lia|]. split; [lia|].
    split; [done|]. split; [done|]. intros k Hk. lia.
Qed.

(** X9: for a naming function that gives different names to different
    numbers, [_next_name] returns the name of the least number whose name is
    not a glyph of the font; that number is at most the number of glyphs of
    the font. *)
Theorem next_name_is_first_free (ufo : Font.t) (name_fn : nat -> string) :
  Inj (=) (=) name_fn ->
  exists j,
    _next_name ufo name_fn = Ok (name_fn j)
    /\ Font.contains ufo (name_fn j) = false
    /\ (forall k, k < j -> Font.contains ufo (name_fn k) = true)
    /\ j <= size (Font.glyphs ufo).
Proof.
  intros Hinj.
  destruct (next_name_spec ufo name_fn Hinj) as (name & Hrun & _).
  rewrite Hrun. unfold _next_name in Hrun.
  destruct (_next_name_from _ _ _ _) as [name'|] eqn:E; [|done].
  injection Hrun as ->.
  destruct (next_name_from_least _ _ _ _ _ E)
    as (j & _ & Hlt & -> & Hfree & Hbelow).
  exists j. split; [done|]. split; [done|].
  split; [intros k Hk; apply Hbelow; lia | lia].
Qed.

(** The names [_create_glyph] tries for the first sample glyph in the sample
    font, in which no glyph has a dotted name. *)
Lemma next_name_is_first_free_witness :
  exists j,
    _next_name sample_font (fun i => "emoji_1f600" +:+ "." +:+ pretty i)
    = Ok ("emoji_1f600" +:+ "." +:+ pretty j)
    /\ j <= size (Font.glyphs sample_font).
Proof.
  destruct (next_name_is_first_free sample_font
              (fun i => "emoji_1f600" +:+ "." +:+ pretty i))
    as (j & Hrun & _ & _ & Hle).
  - apply (name_fn_inj ("emoji_1f600" +:+ ".")).
  - exists j. split; [exact Hrun | exact Hle].
Defined.

(** The glyph [_create_glyph] makes, with the names it gives. *)
Local Opaque fold_left.
Lemma create_glyph_spec_names (ufo : Font.t) (cg : ColorGlyph) (layer : PaintedLayer) :
  exists name base,
    (exists i : nat, name = glyph_name_ cg +:+ "." +:+ pretty i)
    /\ (exists j : nat, base = name +:+ ".component." +:+ pretty j)
    /\ has_dot name = true /\ has_dot base = true /\ name <> base
    /\ Font.glyphs ufo !! name = None /\ Font.glyphs ufo !! base = None
    /\ _create_glyph ufo cg layer
       = Ok (match reuses layer with
             | [] =>
                 Font.mk (Font.familyName ufo) (Font.unitsPerEm ufo)
                   (Font.objects ufo
                    ++ [Glyph.mk name (Font.unitsPerEm ufo) [] []
                          [DrawnPath (path layer)
                             (transform_for_font_space cg)]])
                   (<[name := length (Font.objects ufo)]> (Font.glyphs ufo))
                   (Font.glyphOrder ufo ++ [name])
                   (Font.keepGlyphNames ufo) (Font.colorPalettes ufo)
                   (Font.colorLayers ufo) (Font.features ufo)
             | _ :: _ =>
                 Font.mk (Font.familyName ufo) (Font.unitsPerEm ufo)
                   (Font.objects ufo
                    ++ [Glyph.mk name (Font.unitsPerEm ufo) []
                          (mkComponent base Affine2D.identity
                           :: (reuse_component base
                                 (transform_for_font_space cg)
                               <$> reuses layer)) [];
                        Glyph.mk base 0 [] []
                          [DrawnPath (path layer)
                             (transform_for_font_space cg)]])
                   (<[base := S (length (Font.objects ufo))]>
                      (<[name := length (Font.objects ufo)]> (Font.glyphs ufo)))
                   (Font.glyphOrder ufo ++ [name; base])
                   (Font.keepGlyphNames ufo) (Font.colorPalettes ufo)
                   (Font.colorLayers ufo) (Font.features ufo)
             end, length (Font.objects ufo)).
Proof.
  unfold _create_glyph.
  destruct (next_name_spec ufo (fun i => glyph_name_ cg +:+ "." +:+ pretty i))
    as (name & -> & Hfresh & i & Hname).
  { intros i j E. apply String.app_inj, String.app_inj in E.
    by apply (inj pretty). }
  simpl. rewrite newGlyph_fresh by done. simpl.
  destruct (next_name_spec
    (Font.update (length (Font.objects ufo))
       (Glyph.set_width (Font.unitsPerEm ufo))
       (Font.set_glyphs
          (<[name := length (Font.objects ufo)]> (Font.glyphs ufo))
          (Font.set_objects (Font.objects ufo ++ [Glyph.new name]) ufo)))
    (fun i => name +:+ ".component." +:+ pretty i))
    as (base & Hbase & Hbfresh & j & Hbname).
  { intros i1 i2 E. apply String.app_inj, String.app_inj in E.
    by apply (inj pretty). }
  simpl in Hbfresh.
  assert (name <> base) as Hne.
  { intros <-. by rewrite lookup_insert_eq in Hbfresh. }
  rewrite lookup_insert_ne in Hbfresh by done.
  exists name, base.
  split; [eauto|]. split; [eauto|].
  split; [subst name; apply dotted_name|].
  split; [subst base; apply dotted_component_name|].
  do 3 (split; [done|]).
  clear Hname Hbname.
  destruct (reuses layer) as [|r rs] eqn:Hr.
  - clear Hbase. destruct ufo as [fam upem objs gl order keep pal lay feat].
    cbn [mbind result_bind].
    cbv [_draw Font.update Font.set_glyphOrder Font.set_glyphs
         Font.set_objects Font.objects Font.glyphs Font.glyphOrder
         Font.familyName Font.unitsPerEm Font.keepGlyphNames
         Font.colorPalettes Font.colorLayers Font.features].
    rewrite list_alter_alter_eq, alter_app_last. done.
  - rewrite Hbase. cbn [mbind result_bind]. rewrite newGlyph_fresh.
    2:{ simpl. by rewrite lookup_insert_ne. }
    cbn [mbind result_bind]. rewrite fold_update.
    clear Hbase. destruct ufo as [fam upem objs gl order keep pal lay feat].
    cbv [_draw Font.update Font.set_glyphOrder Font.set_glyphs
         Font.set_objects Font.objects Font.glyphs Font.glyphOrder
         Font.familyName Font.unitsPerEm Font.keepGlyphNames
         Font.colorPalettes Font.colorLayers Font.features].
    rewrite !list_alter_alter_eq.
    rewrite !alter_app_last.
    rewrite length_app, Nat.add_1_r. cbn [length].
    do 2 f_equal.
    rewrite <- app_assoc. cbn [app].
    rewrite (alter_app_r_alt _ _ _ (length objs)) by lia.
    rewrite Nat.sub_diag. cbn [alter list_alter].
    do 2 f_equal. unfold compose.
    rewrite (fold_append_component
               (reuse_component base (transform_for_font_space cg))).
    done.
Qed.
Local Transparent fold_left.

(** X10: [_create_glyph] never fails.  It adds a glyph under a new name made
    of the name of the color glyph, a dot and a number, as wide as the em,
    and leaves the glyphs of the font as they are.  For a layer without
    reuses the glyph holds the path, drawn through the transform to font
    space.  For a layer with reuses the path goes to a second new glyph,
    named after the first with [.component.] and a number, and the first
    glyph is a composite: one component that places the second glyph as it
    is, and one more for each reuse, with the matrix of the reuse and its
    translation scaled by the scale of the transform to font space. *)
Theorem create_glyph_draws_or_composes (ufo : Font.t) (cg : ColorGlyph)
  (layer : PaintedLayer) :
  let glyph := length (Font.objects ufo) in
  let to_font := transform_for_font_space cg in
  exists ufo' name,
    _create_glyph ufo cg layer = Ok (ufo', glyph)
    /\ (exists i : nat, name = glyph_name_ cg +:+ "." +:+ pretty i)
    /\ Font.glyphs ufo !! name = None
    /\ Font.glyphs ufo' !! name = Some glyph
    /\ Glyph.name (Font.deref ufo' glyph) = name
    /\ Glyph.width (Font.deref ufo' glyph) = Font.unitsPerEm ufo
    /\ (forall a, a < glyph -> Font.deref ufo' a = Font.deref ufo a)
    /\ (forall n a, Font.glyphs ufo !! n = Some a ->
          Font.glyphs ufo' !! n = Some a)
    /\ (reuses layer = [] ->
        Glyph.components (Font.deref ufo' glyph) = []
        /\ Glyph.contours (Font.deref ufo' glyph)
           = [DrawnPath (path layer) to_font]
        /\ length (Font.objects ufo') = S glyph
        /\ Font.glyphOrder ufo' = Font.glyphOrder ufo ++ [name])
    /\ (reuses layer <> [] ->
        exists base,
          (exists j : nat, base = name +:+ ".component." +:+ pretty j)
          /\ Font.glyphs ufo !! base = None
          /\ Font.glyphs ufo' !! base = Some (S glyph)
          /\ Glyph.name (Font.deref ufo' (S glyph)) = base
          /\ Glyph.components (Font.deref ufo' (S glyph)) = []
          /\ Glyph.contours (Font.deref ufo' (S glyph))
             = [DrawnPath (path layer) to_font]
          /\ Glyph.contours (Font.deref ufo' glyph) = []
          /\ Glyph.components (Font.deref ufo' glyph)
             = mkComponent base Affine2D.identity
               :: ((fun t =>
                      mkComponent base
                        (Affine2D.mk (Affine2D.a t) (Affine2D.b t)
                           (Affine2D.c t) (Affine2D.d t)
                           (Affine2D.e t * Affine2D.a to_font)
                           (Affine2D.f t * Affine2D.d to_font)))
                   <$> reuses layer)
          /\ length (Font.objects ufo') = S (S glyph)
          /\ Font.glyphOrder ufo' = Font.glyphOrder ufo ++ [name; base]).
Proof.
  intros glyph to_font.
  destruct (create_glyph_spec_names ufo cg layer)
    as (name & base & Hname & Hbase & _ & _ & Hne & Hfresh & Hbfresh & Hrun).
  rewrite Hrun. clear Hrun. fold glyph.
  destruct (reuses layer) as [|r rs] eqn:Hr.
  - eexists _, name. split; [reflexivity|].
    split; [done|]. split; [done|].
    split; [simpl; apply lookup_insert_eq|].
    unfold Font.deref. simpl.
    rewrite list_lookup_middle by done. simpl.
    split; [done|]. split; [done|].
    split; [intros a Ha; by rewrite lookup_app_l by (unfold glyph in Ha; lia)|].
    split.
    { intros n a Hn. rewrite lookup_insert_ne; [done|]. congruence. }
    split; [|done].
    intros _. split; [done|]. split; [done|].
    split; [rewrite length_app; simpl; unfold glyph; lia | done].
  - eexists _, name. split; [reflexivity|].
    split; [done|]. split; [done|].
    split.
    { simpl. rewrite lookup_insert_ne by done. apply lookup_insert_eq. }
    unfold Font.deref. simpl.
    rewrite (list_lookup_middle (Font.objects ufo) _ _ glyph) by done. simpl.
    split; [done|]. split; [done|].
    split; [intros a Ha; by rewrite lookup_app_l by (unfold glyph in Ha; lia)|].
    split.
    { intros n a Hn. rewrite !lookup_insert_ne; [done|congruence|congruence]. }
    split; [done|].
    intros _. exists base. split; [done|]. split; [done|].
    split; [apply lookup_insert_eq|].
    rewrite lookup_app_r by (unfold glyph; lia).
    replace (S glyph - length (Font.objects ufo)) with 1
      by (unfold glyph; lia).
    simpl. do 5 (split; [reflexivity|]).
    split; [rewrite length_app; simpl; unfold glyph; lia | done].
Qed.

(** The eye of the second sample glyph, which is placed a second time three
    units to the right: the translation becomes 24 font units. *)
Lemma create_glyph_draws_or_composes_witness :
  exists ufo' base,
    _create_glyph sample_font sample_1f601 sample_eye
    = Ok (ufo', length (Font.objects sample_font))
    /\ Glyph.components
         (Font.deref ufo' (length (Font.objects sample_font)))
       = [mkComponent base Affine2D.identity;
          mkComponent base (Affine2D.mk 1 0 0 1 24 0)].
Proof.
  destruct (create_glyph_draws_or_composes sample_font sample_1f601 sample_eye)
    as (ufo' & name & Hrun & _ & _ & _ & _ & _ & _ & _ & _ & Hcomp).
  destruct Hcomp as (base & _ & _ & _ & _ & _ & _ & _ & Hc & _);
    [discriminate|].
  exists ufo', base. split; [exact Hrun | exact Hc].
Defined.

Lemma string_app_nil_r (s : string) : s +:+ "" = s.
Proof.
  induction s as [|ch s IH]; [done|].
  change (String ch (s +:+ "") = String ch s). by f_equal.
Qed.

Lemma string_app_assoc (s t u : string) : (s +:+ t) +:+ u = s +:+ (t +:+ u).
Proof.
  induction s as [|ch s IH]; [done|].
  change (String ch ((s +:+ t) +:+ u) = String ch (s +:+ (t +:+ u))).
  by f_equal.
Qed.

Lemma string_app_ne_self (s t : string) : t <> "" -> s +:+ t <> s.
Proof.
  intros Ht E. apply Ht. apply (String.app_inj s).
  by rewrite string_app_nil_r.
Qed.

(** [_create_glyph] gives no glyph the name of the color glyph itself. *)
Lemma create_glyph_keeps_missing (ufo : Font.t) (cg : ColorGlyph)
  (layer : PaintedLayer) :
  Font.glyphs ufo !! glyph_name_ cg = None ->
  exists ufo',
    _create_glyph ufo cg layer = Ok (ufo', length (Font.objects ufo))
    /\ Font.glyphs ufo' !! glyph_name_ cg = None.
Proof.
  intros Hmiss.
  destruct (create_glyph_spec_names ufo cg layer)
    as (name & base & [i Hname] & [j Hbase] & _ & _ & _ & _ & _ & Hrun).
  assert (name <> glyph_name_ cg) as Hn.
  { rewrite Hname. by apply string_app_ne_self. }
  assert (base <> glyph_name_ cg) as Hb.
  { rewrite Hbase, Hname, string_app_assoc. by apply string_app_ne_self. }
  rewrite Hrun. eexists. split; [reflexivity|].
  destruct (reuses layer); simpl; by rewrite ?lookup_insert_ne.
Qed.

Lemma glyph_for_layer_keeps_missing (ufo : Font.t) (glyphs : GlyphsByKey)
  (cg : ColorGlyph) (layer : PaintedLayer) :
  registered ufo glyphs -> Font.glyphs ufo !! glyph_name_ cg = None ->
  exists ufo' glyphs' glyph,
    glyph_for_layer ufo glyphs cg layer = Ok (ufo', glyphs', glyph)
    /\ registered ufo' glyphs'
    /\ Font.glyphs ufo' !! glyph_name_ cg = None.
Proof.
  intros Hreg Hmiss.
  destruct (glyph_for_layer_spec ufo glyphs cg layer Hreg)
    as (ufo' & glyphs' & glyph & Hrun & _ & _ & _ & Hreg' & _ & Hseen & _).
  exists ufo', glyphs', glyph. split; [done|]. split; [done|].
  destruct (glyphs !! _inter_glyph_reuse_key layer) as [a|] eqn:Hk.
  - by destruct (Hseen a eq_refl) as (-> & _).
  - unfold glyph_for_layer in Hrun. rewrite Hk in Hrun.
    destruct (create_glyph_keeps_missing ufo cg layer Hmiss)
      as (ufo1 & Hc & Hmiss1).
    rewrite Hc in Hrun. simpl in Hrun. by injection Hrun as <- _ _.
Qed.

(** The layers of a color glyph that has no glyph in the font, in the COLR
    encoder: a paint is refused, or the glyph is still missing after them. *)
Lemma colr_ufo_layers_keep_missing (v : Z) (colors : list Color)
  (cg : ColorGlyph) (layers : list PaintedLayer) : forall ufo glyphs acc,
  registered ufo glyphs -> Font.glyphs ufo !! glyph_name_ cg = None ->
  (exists ufo' glyphs' acc',
     foldM (_colr_ufo_layer v colors cg) (ufo, glyphs, acc) layers
     = Ok (ufo', glyphs', acc')
     /\ Font.glyphs ufo' !! glyph_name_ cg = None)
  \/ (exists e layer,
        layer ∈ layers /\ _colr_paint v (paint layer) colors = Raise e
        /\ foldM (_colr_ufo_layer v colors cg) (ufo, glyphs, acc) layers
           = Raise e).
Proof.
  induction layers as [|layer layers IH]; intros ufo glyphs acc Hreg Hmiss.
  - left. eauto.
  - rewrite foldM_cons.
    destruct (glyph_for_layer_keeps_missing ufo glyphs cg layer Hreg Hmiss)
      as (ufo1 & glyphs1 & glyph & Hrun & Hreg1 & Hmiss1).
    change (_colr_ufo_layer v colors cg (ufo, glyphs, acc) layer)
      with ('(ufo, glyphs, glyph) ← glyph_for_layer ufo glyphs cg layer;
            paint ← _colr_paint v (paint layer) colors;
            Ok (ufo, glyphs,
                acc ++ [(Glyph.name (Font.deref ufo glyph), paint)])).
    rewrite Hrun, bind_Ok_l.
    destruct (_colr_paint v (paint layer) colors) as [p|e] eqn:Hp.
    + rewrite !bind_Ok_l.
      destruct (IH ufo1 glyphs1
                  (acc ++ [(Glyph.name (Font.deref ufo1 glyph), p)])
                  Hreg1 Hmiss1)
        as [Hok | (e & layer' & Hin & Hpe & Hraise)]; [by left|].
      right. exists e, layer'. split; [by right|]. done.
    + right. exists e, layer. split; [left|]. done.
Qed.

Lemma colr_ufo_glyph_missing (v : Z) (colors : list Color) (ufo : Font.t)
  (glyphs : GlyphsByKey) (color_layers : ColorLayers) (g : ColorGlyph) :
  registered ufo glyphs -> Font.glyphs ufo !! glyph_name_ g = None ->
  exists e,
    _colr_ufo_glyph v colors (ufo, glyphs, color_layers) g = Raise e
    /\ (e = AttributeError "getPen"
        \/ exists layer,
             layer ∈ as_painted_layers g
             /\ _colr_paint v (paint layer) colors = Raise e).
Proof.
  intros Hreg Hmiss. unfold _colr_ufo_glyph.
  destruct (colr_ufo_layers_keep_missing v colors g (as_painted_layers g)
              ufo glyphs [] Hreg Hmiss)
    as [(ufo' & glyphs' & acc' & -> & Hmiss')
       | (e & layer & Hin & Hp & ->)].
  - rewrite bind_Ok_l. unfold Font.get. rewrite Hmiss'.
    exists (AttributeError "getPen"). split; [done | by left].
  - exists e. split; [done|]. right. eauto.
Qed.

(** X11: both encoders take the glyph of a color glyph from the font by its
    name and use it without a test.  When the font has no glyph of that
    name, the glyf encoder raises [AttributeError], and the COLR encoder
    raises too: the error of a paint it refuses, or [AttributeError]. *)
Theorem encoders_raise_without_the_glyph (ufo : Font.t) (g : ColorGlyph)
  (color_glyphs : list ColorGlyph) :
  Font.get ufo (glyph_name_ g) = None ->
  _glyf_ufo ufo (g :: color_glyphs) = Raise (AttributeError "components")
  /\ forall v, exists e,
       _colr_ufo v ufo (g :: color_glyphs) = Raise e
       /\ (e = AttributeError "getPen"
           \/ exists layer,
                layer ∈ as_painted_layers g
                /\ _colr_paint v (paint layer)
                     (_colr_ufo_colors v (g :: color_glyphs)) = Raise e).
Proof.
  intros Hmiss. split.
  - unfold _glyf_ufo, _glyf_ufo_run. rewrite foldM_cons.
    assert (_glyf_ufo_glyph (ufo, ∅) g = Raise (AttributeError "components"))
      as ->; [|done].
    unfold _glyf_ufo_glyph. rewrite Hmiss.
    destruct (as_painted_layers g) as [|layer layers]; [done|].
    rewrite foldM_cons.
    destruct (glyph_for_layer_spec ufo ∅ g layer (registered_empty _))
      as (ufo1 & glyphs1 & glyph & Hrun & _).
    change (_glyf_ufo_layer g None (ufo, ∅) layer)
      with ('(ufo, glyphs, glyph) ← glyph_for_layer ufo ∅ g layer;
            @Raise (Font.t * GlyphsByKey) (AttributeError "components")).
    by rewrite Hrun.
  - intros v. unfold _colr_ufo, _colr_ufo_run, _colr_ufo_with.
    set (colors := _colr_ufo_colors v (g :: color_glyphs)).
    set (ufo0 := Font.set_colorPalettes _ ufo).
    rewrite foldM_cons.
    destruct (colr_ufo_glyph_missing v colors ufo0 ∅ ∅ g
                (registered_empty _) Hmiss) as (e & -> & He).
    exists e. split; [done | exact He].
Qed.

(** A font without the glyph of the first sample glyph. *)
Lemma encoders_raise_without_the_glyph_witness :
  _glyf_ufo sample_ufo sample_glyphs = Raise (AttributeError "components")
  /\ exists e, _colr_ufo 0 sample_ufo sample_glyphs = Raise e.
Proof.
  destruct (encoders_raise_without_the_glyph sample_ufo sample_1f600
              [sample_1f601; sample_1f602] eq_refl) as [Hglyf Hcolr].
  split; [exact Hglyf|].
  destruct (Hcolr 0%Z) as (e & He & _). exists e. exact He.
Defined.


(* ===================================================================== *)
(** * Properties: codepoints from file names *)
(* ===================================================================== *)

Lemma separator_not_hex (ch : ascii) :
  is_separator ch = true -> is_hex_digit ch = false.
Proof.
  unfold is_separator. intros H. apply bool_decide_eq_true in H.
  by destruct H as [-> | ->].
Qed.

Lemma hex_run_no_hex (s : list ascii) :
  Forall (fun ch => is_hex_digit ch = false) s -> hex_run s = ([], s).
Proof. intros H. destruct H as [|ch s Hch _]; simpl; [done | by rewrite Hch]. Qed.

Lemma hex_run_app (run rest : list ascii) :
  Forall (fun ch => is_hex_digit ch = true) run ->
  (forall ch rest', rest = ch :: rest' -> is_hex_digit ch = false) ->
  hex_run (run ++ rest) = (run, rest).
Proof.
  intros Hrun Hrest. induction Hrun as [|ch run Hch _ IH]; simpl.
  - destruct rest as [|ch rest']; [done|].
    simpl. by rewrite (Hrest ch rest' eq_refl).
  - by rewrite Hch, IH.
Qed.

Lemma match_group_no_hex (s : list ascii) :
  Forall (fun ch => is_hex_digit ch = false) s -> match_group s = None.
Proof.
  intros H. unfold match_group.
  destruct H as [|ch s Hch Hs]; [done|].
  destruct (is_separator ch).
  - by rewrite hex_run_no_hex.
  - rewrite hex_run_no_hex; [done | by constructor].
Qed.

Lemma match_groups_no_hex (fuel : nat) (s : list ascii) :
  Forall (fun ch => is_hex_digit ch = false) s -> match_groups fuel s = [].
Proof.
  intros H. destruct fuel; simpl; [done|]. by rewrite match_group_no_hex.
Qed.

Lemma match_groups_hex_head (fuel : nat) (ch : ascii) (s : list ascii) :
  is_hex_digit ch = true -> match_groups (S fuel) (ch :: s) <> [].
Proof.
  intros Hch. simpl. unfold match_group.
  destruct (is_separator ch) eqn:Hsep.
  { apply separator_not_hex in Hsep. congruence. }
  simpl. rewrite Hch. by destruct (hex_run s).
Qed.

Lemma match_here_nil (at_start : bool) (s : list ascii) :
  match_here at_start s = [] -> match_groups (length s) s = [].
Proof.
  unfold match_here.
  destruct (if at_start && _ then _ else _); [done | discriminate].
Qed.

Lemma search_from_None (s : list ascii) : forall at_start,
  search_from at_start s = None
  <-> Forall (fun ch => is_hex_digit ch = false) s.
Proof.
  induction s as [|ch s IH]; intros at_start.
  - split; [constructor|]. intros _. by destruct at_start.
  - simpl search_from. split.
    + destruct (match_here at_start (ch :: s)) eqn:E; [|done].
      intros Hs. apply IH in Hs. constructor; [|done].
      apply match_here_nil in E.
      destruct (is_hex_digit ch) eqn:Hch; [|done].
      by apply (match_groups_hex_head (length s) ch s) in Hch.
    + intros H. assert (match_here at_start (ch :: s) = []) as ->.
      { unfold match_here. rewrite match_groups_no_hex
          by (by apply Forall_drop).
        rewrite (match_groups_no_hex _ _ H). by destruct (_ && _). }
      apply IH. by apply Forall_cons in H as [_ ?].
Qed.

Lemma search_from_nonempty (s : list ascii) : forall at_start,
  search_from at_start s <> Some [].
Proof.
  induction s as [|ch s IH]; intros at_start; simpl.
  - by destruct (match_here at_start []).
  - destruct (match_here at_start (ch :: s)); [apply IH | done].
Qed.

(** X12: [_codepoints_from_filename] finds no codepoints exactly in a name
    without any hexadecimal digit; the codepoints it returns are never an
    empty tuple. *)
Theorem codepoints_from_filename_needs_a_hex_digit (filename : string) :
  (_codepoints_from_filename filename = None
   <-> Forall (fun ch => is_hex_digit ch = false)
         (list_ascii_of_string filename))
  /\ _codepoints_from_filename filename <> Some [].
Proof.
  unfold _codepoints_from_filename. split.
  - rewrite <- (search_from_None _ true).
    destruct (search_from true _); split; done.
  - pose proof (search_from_nonempty (list_ascii_of_string filename) true).
    destruct (search_from true _) as [[|c cs]|]; done.
Qed.

Lemma hex_groups_head (groups : list (ascii * list ascii)) (ext : list ascii) :
  Forall (fun g => is_separator (fst g) = true /\ hex_word (snd g)) groups ->
  (forall ch ext', ext = ch :: ext' ->
     is_hex_digit ch = false /\ is_separator ch = false) ->
  forall ch rest, hex_groups groups ++ ext = ch :: rest ->
    is_hex_digit ch = false.
Proof.
  intros Hg Hext ch rest. destruct Hg as [|[sp h] gs [Hsp _] _].
  - simpl. intros E. by destruct (Hext _ _ E).
  - unfold hex_groups. simpl. intros [= <- _]. by apply separator_not_hex.
Qed.

Lemma match_group_word (h tail : list ascii) :
  hex_word h ->
  (forall ch rest, tail = ch :: rest -> is_hex_digit ch = false) ->
  match_group (h ++ tail) = Some (h, tail).
Proof.
  intros [Hne Hhex] Htail. unfold match_group.
  destruct h as [|c h]; [done|]. simpl app.
  apply Forall_cons in Hhex as Hc. destruct Hc as [Hc _].
  destruct (is_separator c) eqn:Hsep.
  { apply separator_not_hex in Hsep. congruence. }
  change (c :: h ++ tail) with ((c :: h) ++ tail).
  by rewrite hex_run_app.
Qed.

Lemma match_group_separated (sp : ascii) (h tail : list ascii) :
  is_separator sp = true -> hex_word h ->
  (forall ch rest, tail = ch :: rest -> is_hex_digit ch = false) ->
  match_group (sp :: h ++ tail) = Some (h, tail).
Proof.
  intros Hsp [Hne Hhex] Htail. unfold match_group. rewrite Hsp.
  rewrite hex_run_app by done. by destruct h.
Qed.

Lemma match_groups_groups (groups : list (ascii * list ascii))
  (ext : list ascii) : forall fuel,
  length groups <= fuel ->
  Forall (fun g => is_separator (fst g) = true /\ hex_word (snd g)) groups ->
  (forall ch ext', ext = ch :: ext' ->
     is_hex_digit ch = false /\ is_separator ch = false) ->
  match_groups fuel (hex_groups groups ++ ext) = snd <$> groups.
Proof.
  induction groups as [|[sp h] gs IH]; intros fuel Hfuel Hg Hext.
  - destruct fuel as [|fuel]; [done|]. simpl.
    assert (match_group ext = None) as ->; [|done].
    unfold match_group. destruct ext as [|ch ext']; [done|].
    destruct (Hext ch ext' eq_refl) as [Hh ->]. simpl. by rewrite Hh.
  - destruct fuel as [|fuel]; [simpl in Hfuel; lia|].
    apply Forall_cons in Hg as [[Hsp Hh] Hgs]. simpl in Hsp, Hh.
    change (hex_groups ((sp, h) :: gs) ++ ext)
      with ((sp :: h ++ hex_groups gs) ++ ext).
    replace ((sp :: h ++ hex_groups gs) ++ ext)
      with (sp :: h ++ (hex_groups gs ++ ext))
      by (simpl; by rewrite app_assoc).
    simpl match_groups.
    rewrite match_group_separated;
      [|done|done|by apply hex_groups_head].
    rewrite IH; [done | simpl in Hfuel; lia | done | done].
Qed.

Lemma match_groups_name (h0 : list ascii)
  (groups : list (ascii * list ascii)) (ext : list ascii) (fuel : nat) :
  length groups < fuel -> hex_word h0 ->
  Forall (fun g => is_separator (fst g) = true /\ hex_word (snd g)) groups ->
  (forall ch ext', ext = ch :: ext' ->
     is_hex_digit ch = false /\ is_separator ch = false) ->
  match_groups fuel (codepoint_name h0 groups ext) = h0 :: (snd <$> groups).
Proof.
  intros Hfuel Hh0 Hg Hext. destruct fuel as [|fuel]; [lia|].
  unfold codepoint_name. simpl match_groups.
  rewrite match_group_word; [|done|by apply hex_groups_head].
  rewrite match_groups_groups; [done | lia | done | done].
Qed.

Lemma length_hex_groups (groups : list (ascii * list ascii)) :
  length groups <= length (hex_groups groups).
Proof.
  induction groups as [|[sp h] gs IH]; [done|].
  change (hex_groups ((sp, h) :: gs)) with (sp :: h ++ hex_groups gs).
  simpl length. rewrite length_app. lia.
Qed.

Lemma search_from_here (at_start : bool) (s : list ascii)
  (c : list ascii) (cs : list (list ascii)) :
  match_here at_start s = c :: cs -> search_from at_start s = Some (c :: cs).
Proof. intros H. destruct s; cbn [search_from]; by rewrite H. Qed.

(** X13: the codepoints of a file named by the convention are read back in
    order: after [emoji_u], or from the start of a name that does not begin
    with it, a word of hexadecimal digits, further such words each after a
    [-] or a [_], and then the end of the name or a character that is
    neither, give the numbers the words denote. *)
Theorem codepoints_of_conventional_names (filename : string)
  (h0 : list ascii) (groups : list (ascii * list ascii)) (ext : list ascii) :
  hex_word h0 ->
  Forall (fun g => is_separator (fst g) = true /\ hex_word (snd g)) groups ->
  (forall ch ext', ext = ch :: ext' ->
     is_hex_digit ch = false /\ is_separator ch = false) ->
  list_ascii_of_string filename
  = list_ascii_of_string "emoji_u" ++ codepoint_name h0 groups ext
  \/ (list_ascii_of_string filename = codepoint_name h0 groups ext
      /\ take 7 (list_ascii_of_string filename)
         <> list_ascii_of_string "emoji_u") ->
  _codepoints_from_filename filename
  = Some (int16 <$> h0 :: (snd <$> groups)).
Proof.
  intros Hh0 Hg Hext Hname. unfold _codepoints_from_filename.
  assert (length groups < length (codepoint_name h0 groups ext)) as Hlen.
  { unfold codepoint_name. rewrite !length_app.
    pose proof (length_hex_groups groups). destruct Hh0 as [Hne _].
    destruct h0; [done|]. simpl. lia. }
  assert (search_from true (list_ascii_of_string filename)
          = Some (h0 :: (snd <$> groups))) as ->; [|done].
  destruct Hname as [-> | [-> Hpre]].
  - set (name := codepoint_name h0 groups ext) in *.
    assert (match_here true (list_ascii_of_string "emoji_u" ++ name)
            = h0 :: (snd <$> groups)) as E.
    { unfold match_here.
      change (take 7 (list_ascii_of_string "emoji_u" ++ name))
        with (list_ascii_of_string "emoji_u").
      change (drop 7 (list_ascii_of_string "emoji_u" ++ name)) with name.
      rewrite bool_decide_eq_true_2 by done. simpl andb.
      unfold name. rewrite match_groups_name; [done| |done|done|done].
      rewrite length_app. fold name. lia. }
    by apply search_from_here.
  - set (name := codepoint_name h0 groups ext) in *.
    assert (match_here true name = h0 :: (snd <$> groups)) as E.
    { unfold match_here. rewrite bool_decide_eq_false_2 by done.
      simpl andb. cbv iota. unfold name. by rewrite match_groups_name. }
    by apply search_from_here.
Qed.

(** A file of noto-emoji and a file of twemoji. *)
Lemma codepoints_of_conventional_names_witness :
  _codepoints_from_filename "emoji_u1f600_200d_1f648.svg"
  = Some [128512%Z; 8205%Z; 128584%Z]
  /\ _codepoints_from_filename "1f468-200d-1f4bb.svg"
     = Some [128104%Z; 8205%Z; 128187%Z].
Proof.
  split.
  - apply (codepoints_of_conventional_names "emoji_u1f600_200d_1f648.svg"
             (list_ascii_of_string "1f600")
             [("_"%char, list_ascii_of_string "200d");
              ("_"%char, list_ascii_of_string "1f648")]
             (list_ascii_of_string ".svg")).
    + split; [discriminate | by repeat constructor].
    + repeat constructor; discriminate.
    + intros ch ext' [= <- _]. done.
    + left. reflexivity.
  - apply (codepoints_of_conventional_names "1f468-200d-1f4bb.svg"
             (list_ascii_of_string "1f468")
             [("-"%char, list_ascii_of_string "200d");
              ("-"%char, list_ascii_of_string "1f4bb")]
             (list_ascii_of_string ".svg")).
    + split; [discriminate | by repeat constructor].
    + repeat constructor; discriminate.
    + intros ch ext' [= <- _]. done.
    + right. split; [reflexivity | discriminate].
Defined.

Lemma codepoints_from_filename_nonempty (name : string) :
  _codepoints_from_filename name <> Some [].
Proof.
  unfold _codepoints_from_filename.
  pose proof (search_from_nonempty (list_ascii_of_string name) true).
  destruct (search_from true _) as [[|c cs]|]; done.
Qed.

(** X14: [_inputs] yields, in the order given, exactly the files whose base
    name has codepoints and whose artwork can be read, each with those
    codepoints, never an empty tuple, and that artwork. *)
Theorem inputs_keeps_readable_files (basename : string -> string)
  (_picosvg : string -> option (list PaintedLayer * list Element))
  (filenames : list string) :
  let inputs := _inputs basename _picosvg filenames in
  filename <$> inputs
  = filter (fun f => is_Some (_codepoints_from_filename (basename f))
                     /\ is_Some (_picosvg f)) filenames
  /\ Forall (fun input =>
               _codepoints_from_filename (basename (filename input))
               = Some (input_codepoints input)
               /\ _picosvg (filename input) = Some (picosvg input)
               /\ input_codepoints input <> []) inputs.
Proof.
  simpl. unfold _inputs.
  induction filenames as [|f fs [IH1 IH2]]; [split; [done | constructor]|].
  cbn [omap list_omap]. rewrite filter_cons.
  pose proof (codepoints_from_filename_nonempty (basename f)) as Hne.
  destruct (_codepoints_from_filename (basename f)) as [[|cp cps]|] eqn:Hc;
    [done| |].
  - destruct (_picosvg f) as [art|] eqn:Hp.
    + rewrite decide_True by (split; eauto). split.
      * rewrite fmap_cons. simpl. by rewrite IH1.
      * constructor; [|done]. simpl. by rewrite Hc, Hp.
    + rewrite decide_False by (intros [_ [? ?]]; done). done.
  - rewrite decide_False by (intros [[? ?] _]; done). done.
Qed.

(** Three files: one without codepoints in its name, one that cannot be
    read, one that is kept. *)
Lemma inputs_keeps_readable_files_witness :
  filename
  <$> _inputs (fun f => f)
        (fun f => if decide (f = "1f601.svg") then None else Some ([], []))
        ["logo.svg"; "1f601.svg"; "emoji_u1f600.svg"]
  = ["emoji_u1f600.svg"].
Proof.
  rewrite (proj1 (inputs_keeps_readable_files (fun f => f)
                    (fun f => if decide (f = "1f601.svg") then None
                              else Some ([], []))
                    ["logo.svg"; "1f601.svg"; "emoji_u1f600.svg"])).
  reflexivity.
Defined.


(* ===================================================================== *)
(** * Properties: the compiled font *)
(* ===================================================================== *)

Section MakeTTFont.

Variable to_element : SVGPath -> Element.
Variable ntos : Z -> string.
Variable etree_tostring : Element -> string.
Variable svg_tostring : SVG -> string.
Variable FLAGS_color_format : string.
Variables compileTTF compileOTF : Font.t -> result TTFont.
Variable truthy : TTFont -> bool.

Let generators :=
  _COLOR_FORMAT_GENERATORS to_element ntos etree_tostring svg_tostring
    FLAGS_color_format.
Let make :=
  _make_ttfont to_element ntos etree_tostring svg_tostring FLAGS_color_format
    compileTTF compileOTF truthy.

Lemma unknown_format_has_no_generator (fmt : string) :
  fmt ∉ ["glyf"; "colr_0"; "colr_1"; "svg"; "svgz"; "cbdt"; "sbix"] ->
  generators !! fmt = None.
Proof. intros H. by apply not_elem_of_list_to_map_1. Qed.

(** The font once it is compiled and found true. *)
Lemma make_ttfont_compiled (config : ColorFontConfig) (ufo : Font.t)
  (color_glyphs : list ColorGlyph) (t : TTFont) :
  (output_format config = ".ttf" /\ compileTTF ufo = Ok t)
  \/ (output_format config = ".otf" /\ compileOTF ufo = Ok t) ->
  truthy t = true ->
  make config ufo color_glyphs
  = match generators !! color_format config with
    | Some generator =>
        t ← apply_ttfont generator ufo color_glyphs t; Ok (Some t)
    | None => Raise (KeyError (color_format config))
    end.
Proof.
  intros Hc Ht. unfold make, _make_ttfont. fold generators.
  destruct Hc as [[Hfmt Hc] | [Hfmt Hc]]; rewrite Hfmt.
  - rewrite decide_False by done. rewrite decide_True by done.
    rewrite Hc, !bind_Ok_l. rewrite decide_False by done.
    rewrite bind_Ok_l. by rewrite Ht.
  - rewrite decide_False by done. rewrite decide_False by done.
    rewrite bind_Ok_l. rewrite decide_True by done.
    rewrite Hc, !bind_Ok_l. by rewrite Ht.
Qed.

(** X15: [_make_ttfont] compiles nothing and runs no generator for a [.ufo]
    output; it raises [ValueError] for an output that is none of [.ufo],
    [.ttf] and [.otf], and for a compiled font that is not true; the errors
    of the compiler are its errors; and a compiled font goes through the
    second step of the generator of the color format: left as it is for
    [glyf], [colr_0] and [colr_1], given the SVG table for [svg] and [svgz],
    refused for [cbdt] and [sbix], and [KeyError] for any other format. *)
Theorem make_ttfont_outcomes (config : ColorFontConfig) (ufo : Font.t)
  (color_glyphs : list ColorGlyph) :
  let run := make config ufo color_glyphs in
  let unable :=
    ValueError ("Unable to generate " +:+ color_format config +:+ " "
                +:+ output_format config) in
  (output_format config = ".ufo" -> run = Ok None)
  /\ (output_format config <> ".ufo" -> output_format config <> ".ttf" ->
      output_format config <> ".otf" -> run = Raise unable)
  /\ (forall compile,
        (output_format config = ".ttf" /\ compile = compileTTF)
        \/ (output_format config = ".otf" /\ compile = compileOTF) ->
        (forall e, compile ufo = Raise e -> run = Raise e)
        /\ (forall t, compile ufo = Ok t -> truthy t = false ->
              run = Raise unable)
        /\ (forall t, compile ufo = Ok t -> truthy t = true ->
              (color_format config ∈ ["glyf"; "colr_0"; "colr_1"] ->
               run = Ok (Some t))
              /\ (color_format config = "svg" ->
                  run = (t' ← _svg_ttfont to_element ntos etree_tostring
                                 svg_tostring color_glyphs t false;
                         Ok (Some t')))
              /\ (color_format config = "svgz" ->
                  run = (t' ← _svg_ttfont to_element ntos etree_tostring
                                 svg_tostring color_glyphs t true;
                         Ok (Some t')))
              /\ (color_format config ∈ ["cbdt"; "sbix"] ->
                  run = Raise (NotImplementedError
                                 (FLAGS_color_format +:+ " not implemented")))
              /\ (color_format config
                    ∉ ["glyf"; "colr_0"; "colr_1"; "svg"; "svgz"; "cbdt";
                       "sbix"] ->
                  run = Raise (KeyError (color_format config))))).
Proof.
  intros run unable. split; [|split].
  - intros Hfmt. subst run. unfold make, _make_ttfont.
    by rewrite Hfmt.
  - intros H1 H2 H3. subst run. unfold make, _make_ttfont.
    by repeat case_decide.
  - intros compile Hc. split; [|split].
    + intros e He. subst run. unfold make, _make_ttfont.
      destruct Hc as [[Hfmt ->] | [Hfmt ->]]; rewrite Hfmt.
      * rewrite decide_False by done. rewrite decide_True by done.
        by rewrite He.
      * rewrite decide_False by done. rewrite decide_False by done.
        rewrite bind_Ok_l. rewrite decide_True by done. by rewrite He.
    + intros t Hok Ht. subst run. unfold make, _make_ttfont.
      destruct Hc as [[Hfmt ->] | [Hfmt ->]]; fold unable; rewrite Hfmt.
      * rewrite decide_False by done. rewrite decide_True by done.
        rewrite Hok, !bind_Ok_l. rewrite decide_False by done.
        rewrite bind_Ok_l. by rewrite Ht.
      * rewrite decide_False by done. rewrite decide_False by done.
        rewrite bind_Ok_l. rewrite decide_True by done.
        rewrite Hok, !bind_Ok_l. by rewrite Ht.
    + intros t Hok Ht.
      assert (run
              = match generators !! color_format config with
                | Some generator =>
                    t ← apply_ttfont generator ufo color_glyphs t;
                    Ok (Some t)
                | None => Raise (KeyError (color_format config))
                end) as ->.
      { apply make_ttfont_compiled; [|done].
        destruct Hc as [[Hfmt ->] | [Hfmt ->]]; eauto. }
      split; [|split; [|split; [|split]]].
      * intros Hin. apply elem_of_cons in Hin as [-> | Hin]; [done|].
        apply elem_of_cons in Hin as [-> | Hin]; [done|].
        apply list_elem_of_singleton in Hin as ->. done.
      * intros ->. done.
      * intros ->. done.
      * intros Hin. apply elem_of_cons in Hin as [-> | Hin]; [done|].
        apply list_elem_of_singleton in Hin as ->. done.
      * intros Hout. by rewrite unknown_format_has_no_generator.
Qed.

End MakeTTFont.

(** A [.ufo] output under the SVG format, a [.woff] output, and the sample
    font compiled for the glyf format. *)
Lemma make_ttfont_outcomes_witness :
  _make_ttfont sample_to_element pretty tag (fun _ => "<svg/>") "svg"
    (fun _ => Ok sample_ttfont) (fun _ => Ok sample_ttfont) (fun _ => true)
    (mkColorFontConfig 1024 "An Emoji Family" "svg" ".ufo" false)
    sample_font sample_glyphs = Ok None
  /\ _make_ttfont sample_to_element pretty tag (fun _ => "<svg/>") "svg"
       (fun _ => Ok sample_ttfont) (fun _ => Ok sample_ttfont) (fun _ => true)
       (mkColorFontConfig 1024 "An Emoji Family" "svg" ".woff" false)
       sample_font sample_glyphs
     = Raise (ValueError "Unable to generate svg .woff")
  /\ _make_ttfont sample_to_element pretty tag (fun _ => "<svg/>") "glyf"
       (fun _ => Ok sample_ttfont) (fun _ => Ok sample_ttfont) (fun _ => true)
       (mkColorFontConfig 1024 "An Emoji Family" "glyf" ".ttf" false)
       sample_font sample_glyphs
     = Ok (Some sample_ttfont).
Proof.
  split; [|split].
  - apply (make_ttfont_outcomes sample_to_element pretty tag
             (fun _ => "<svg/>") "svg" (fun _ => Ok sample_ttfont)
             (fun _ => Ok sample_ttfont) (fun _ => true)
             (mkColorFontConfig 1024 "An Emoji Family" "svg" ".ufo" false)).
    reflexivity.
  - apply (make_ttfont_outcomes sample_to_element pretty tag
             (fun _ => "<svg/>") "svg" (fun _ => Ok sample_ttfont)
             (fun _ => Ok sample_ttfont) (fun _ => true)
             (mkColorFontConfig 1024 "An Emoji Family" "svg" ".woff" false));
      discriminate.
  - destruct (make_ttfont_outcomes sample_to_element pretty tag
                (fun _ => "<svg/>") "glyf" (fun _ => Ok sample_ttfont)
                (fun _ => Ok sample_ttfont) (fun _ => true)
                (mkColorFontConfig 1024 "An Emoji Family" "glyf" ".ttf" false)
                sample_font sample_glyphs) as (_ & _ & H).
    destruct (H (fun _ => Ok sample_ttfont)) as (_ & _ & Hok);
      [left; split; reflexivity|].
    destruct (Hok sample_ttfont eq_refl eq_refl) as (Hglyf & _).
    apply Hglyf. left.
Defined.


(* ===================================================================== *)
(** * Properties: the feature text, whatever the sequences *)
(* ===================================================================== *)

Lemma filter_none {A} (P : A -> Prop) `{forall x, Decision (P x)}
  (l : list A) :
  Forall (fun x => ~ P x) l -> filter P l = [].
Proof.
  induction 1 as [|x l Hx _ IH]; [done|].
  rewrite filter_cons. by rewrite decide_False.
Qed.

(** X16: [_generate_fea] writes a rule for every sequence that is not of
    exactly one codepoint, in the sorted order of the sequences, between the
    three opening lines and the closing line; the text does not depend on
    the order in which the sequences are given; and sequences of one
    codepoint each give the four fixed lines alone. *)
Theorem generate_fea_ignores_input_order (glyph_name : Z -> string)
  (rgi_sequences : list (list Z * string)) :
  _generate_fea glyph_name rgi_sequences
  = join newline
      (["languagesystem DFLT dflt;"; "languagesystem latn dflt;";
        "feature rlig {"]
       ++ ((fun p => _generate_fea_rule glyph_name (fst p) (snd p)) <$>
           filter (fun p => length (fst p) <> 1) (sorted rgi_sequences))
       ++ ["} rlig;"])
  /\ (forall rgi_sequences', rgi_sequences ≡ₚ rgi_sequences' ->
        _generate_fea glyph_name rgi_sequences'
        = _generate_fea glyph_name rgi_sequences)
  /\ (Forall (fun p => length (fst p) = 1) rgi_sequences ->
      _generate_fea glyph_name rgi_sequences
      = join newline
          ["languagesystem DFLT dflt;"; "languagesystem latn dflt;";
           "feature rlig {"; "} rlig;"]).
Proof.
  assert (forall l,
            _generate_fea glyph_name l
            = join newline
                (["languagesystem DFLT dflt;"; "languagesystem latn dflt;";
                  "feature rlig {"]
                 ++ ((fun p => _generate_fea_rule glyph_name (fst p) (snd p))
                     <$> filter (fun p => length (fst p) <> 1) (sorted l))
                 ++ ["} rlig;"])) as Hshape.
  { intros l. unfold _generate_fea, _generate_fea_rules. f_equal. simpl.
    by rewrite generate_fea_loop. }
  split; [apply Hshape|]. split.
  - intros l' Hperm. rewrite !Hshape.
    by rewrite (sorted_unique rgi_sequences l' Hperm).
  - intros Hone. rewrite Hshape.
    rewrite filter_none; [done|].
    apply Forall_forall. intros p Hp Hlen.
    rewrite sorted_Permutation in Hp.
    eapply Forall_forall in Hone; [|exact Hp]. done.
Qed.

(** Two sequences in either order; and single codepoints only. *)
Lemma generate_fea_ignores_input_order_witness :
  _generate_fea glyph_name_hex
    [([128512]%Z, "g2"); ([128104; 8205; 128187]%Z, "g1")]
  = _generate_fea glyph_name_hex
      [([128104; 8205; 128187]%Z, "g1"); ([128512]%Z, "g2")]
  /\ _generate_fea glyph_name_hex [([128512]%Z, "g2")]
     = join newline
         ["languagesystem DFLT dflt;"; "languagesystem latn dflt;";
          "feature rlig {"; "} rlig;"].
Proof.
  split.
  - apply (generate_fea_ignores_input_order glyph_name_hex
             [([128104; 8205; 128187]%Z, "g1"); ([128512]%Z, "g2")]).
    apply Permutation_swap.
  - apply (generate_fea_ignores_input_order glyph_name_hex
             [([128512]%Z, "g2")]).
    repeat constructor.
Defined.


(* ===================================================================== *)
(** * Properties: the glyph order of the font *)
(* ===================================================================== *)

Lemma foldM_invariant {S A} (P : S -> Prop) (body : S -> A -> result S)
  (l : list A) : forall s s',
  (forall s x s', P s -> body s x = Ok s' -> P s') ->
  P s -> foldM body s l = Ok s' -> P s'.
Proof.
  induction l as [|x l IH]; intros s s' Hstep Hs Hrun.
  - by injection Hrun as <-.
  - rewrite foldM_cons in Hrun. destruct (body s x) as [s1|e] eqn:E; [|done].
    rewrite bind_Ok_l in Hrun.
    apply (IH s1 s' Hstep); [|done]. by apply (Hstep s x).
Qed.

Lemma order_extends_refl (ufo : Font.t) : order_extends ufo ufo.
Proof. split; [exists []; by rewrite app_nil_r | done]. Qed.

Lemma order_extends_trans (ufo1 ufo2 ufo3 : Font.t) :
  order_extends ufo1 ufo2 -> order_extends ufo2 ufo3 ->
  order_extends ufo1 ufo3.
Proof.
  intros [[n1 H1] K1] [[n2 H2] K2]. split; [|auto].
  exists (n1 ++ n2). by rewrite H2, H1, app_assoc.
Qed.

(** A method of a glyph object changes neither names nor order. *)
Lemma order_ok_update (ufo : Font.t) (a : nat) (m : Glyph.t -> Glyph.t) :
  order_ok ufo -> order_ok (Font.update a m ufo).
Proof. done. Qed.

Lemma order_extends_update (ufo0 ufo : Font.t) (a : nat)
  (m : Glyph.t -> Glyph.t) :
  order_extends ufo0 ufo -> order_extends ufo0 (Font.update a m ufo).
Proof. done. Qed.

Lemma order_ok_setitem (ufo : Font.t) (name : string) (glyph : nat) :
  order_ok ufo -> order_ok (Font.setitem ufo name glyph).
Proof.
  intros [Hnd Hb]. split; [done|]. intros n Hn. simpl.
  destruct (decide (n = name)) as [->|Hne].
  - rewrite lookup_insert_eq. eauto.
  - rewrite lookup_insert_ne by done. by apply Hb.
Qed.

Lemma order_extends_setitem (ufo0 ufo : Font.t) (name : string)
  (glyph : nat) :
  order_extends ufo0 ufo -> order_extends ufo0 (Font.setitem ufo name glyph).
Proof.
  intros [Ho Hk]. split; [done|]. intros n Hn. simpl.
  destruct (decide (n = name)) as [->|Hne].
  - rewrite lookup_insert_eq. eauto.
  - rewrite lookup_insert_ne by done. by apply Hk.
Qed.

Lemma create_glyph_order (ufo : Font.t) (cg : ColorGlyph)
  (layer : PaintedLayer) (ufo' : Font.t) (glyph : nat) :
  order_ok ufo -> _create_glyph ufo cg layer = Ok (ufo', glyph) ->
  order_ok ufo' /\ order_extends ufo ufo'.
Proof.
  intros [Hnd Hb] Hrun.
  destruct (create_glyph_spec ufo cg layer)
    as (name & base & _ & _ & Hne & Hfresh & Hbfresh & Hspec).
  rewrite Hspec in Hrun. injection Hrun as <- _.
  assert (name ∉ Font.glyphOrder ufo) as Hn.
  { intros Hin. destruct (Hb _ Hin) as [? ?]. congruence. }
  assert (base ∉ Font.glyphOrder ufo) as Hbn.
  { intros Hin. destruct (Hb _ Hin) as [? ?]. congruence. }
  destruct (reuses layer) as [|r rs]; simpl.
  - split; split; simpl.
    + apply NoDup_app. split; [done|]. split; [|apply NoDup_singleton].
      intros x Hx Hx'. apply list_elem_of_singleton in Hx' as ->. done.
    + intros n Hin. apply elem_of_app in Hin as [Hin | Hin].
      * destruct (decide (n = name)) as [->|]; [by rewrite lookup_insert_eq|].
        rewrite lookup_insert_ne by done. by apply Hb.
      * apply list_elem_of_singleton in Hin as ->.
        by rewrite lookup_insert_eq.
    + eauto.
    + intros n Hin.
      destruct (decide (n = name)) as [->|]; [by rewrite lookup_insert_eq|].
      by rewrite lookup_insert_ne.
  - split; split; simpl.
    + apply NoDup_app. split; [done|]. split.
      * intros x Hx Hx'. apply elem_of_cons in Hx' as [-> | Hx']; [done|].
        apply list_elem_of_singleton in Hx' as ->. done.
      * apply NoDup_cons. split; [|apply NoDup_singleton].
        intros Hin. apply list_elem_of_singleton in Hin. done.
    + intros n Hin.
      destruct (decide (n = base)) as [->|]; [by rewrite lookup_insert_eq|].
      rewrite lookup_insert_ne by done.
      destruct (decide (n = name)) as [->|]; [by rewrite lookup_insert_eq|].
      rewrite lookup_insert_ne by done.
      apply elem_of_app in Hin as [Hin | Hin]; [by apply Hb|].
      apply elem_of_cons in Hin as [-> | Hin]; [done|].
      apply list_elem_of_singleton in Hin. done.
    + eauto.
    + intros n Hin.
      destruct (decide (n = base)) as [->|]; [by rewrite lookup_insert_eq|].
      rewrite lookup_insert_ne by done.
      destruct (decide (n = name)) as [->|]; [by rewrite lookup_insert_eq|].
      by rewrite lookup_insert_ne.
Qed.

Lemma glyph_for_layer_order (ufo : Font.t) (glyphs : GlyphsByKey)
  (cg : ColorGlyph) (layer : PaintedLayer) (ufo' : Font.t)
  (glyphs' : GlyphsByKey) (glyph : nat) :
  order_ok ufo ->
  glyph_for_layer ufo glyphs cg layer = Ok (ufo', glyphs', glyph) ->
  order_ok ufo' /\ order_extends ufo ufo'.
Proof.
  intros Hok Hrun. unfold glyph_for_layer in Hrun.
  destruct (glyphs !! _inter_glyph_reuse_key layer).
  - injection Hrun as <- _ _. split; [done | apply order_extends_refl].
  - destruct (_create_glyph ufo cg layer) as [[ufo1 g1]|e] eqn:E; [|done].
    simpl in Hrun. injection Hrun as <- _ _.
    by eapply create_glyph_order.
Qed.

Lemma glyf_ufo_layer_order (ufo0 : Font.t) (cg : ColorGlyph)
  (parent : option nat) (s : Font.t * GlyphsByKey) (layer : PaintedLayer)
  (s' : Font.t * GlyphsByKey) :
  order_ok s.1 /\ order_extends ufo0 s.1 ->
  _glyf_ufo_layer cg parent s layer = Ok s' ->
  order_ok s'.1 /\ order_extends ufo0 s'.1.
Proof.
  destruct s as [ufo glyphs]. intros [Hok Hext] Hrun.
  unfold _glyf_ufo_layer in Hrun.
  destruct (glyph_for_layer ufo glyphs cg layer) as [[[ufo1 glyphs1] g]|e]
    eqn:E; [|done].
  rewrite bind_Ok_l in Hrun.
  destruct (glyph_for_layer_order _ _ _ _ _ _ _ Hok E) as [Hok1 Hext1].
  destruct parent as [p|]; [|done]. injection Hrun as <-. simpl.
  split; [by apply order_ok_update|].
  apply order_extends_update. by eapply order_extends_trans.
Qed.

Lemma glyf_ufo_glyph_order (ufo0 : Font.t) (s : Font.t * GlyphsByKey)
  (cg : ColorGlyph) (s' : Font.t * GlyphsByKey) :
  order_ok s.1 /\ order_extends ufo0 s.1 ->
  _glyf_ufo_glyph s cg = Ok s' ->
  order_ok s'.1 /\ order_extends ufo0 s'.1.
Proof.
  destruct s as [ufo glyphs]. intros [Hok Hext] Hrun.
  simpl in Hok, Hext. unfold _glyf_ufo_glyph in Hrun.
  destruct (foldM _ (ufo, glyphs) (as_painted_layers cg))
    as [[ufo1 glyphs1]|e] eqn:E; [|done].
  rewrite bind_Ok_l in Hrun.
  pose proof (foldM_invariant
                (fun s => order_ok s.1 /\ order_extends ufo0 s.1)
                _ _ (ufo, glyphs) _ (glyf_ufo_layer_order ufo0 cg _)
                (conj Hok Hext) E)
    as [Hok1 Hext1].
  simpl in Hok1, Hext1.
  destruct (Font.get ufo (glyph_name_ cg)) as [parent|]; [|done].
  destruct (Glyph.components (Font.deref ufo1 parent)) as [|c [|c' cs]].
  - by injection Hrun as <-.
  - destruct (Font.getitem ufo1 (baseGlyph c)) as [child|e]; [|done].
    rewrite bind_Ok_l in Hrun. injection Hrun as <-. simpl.
    split; [by apply order_ok_setitem | by apply order_extends_setitem].
  - by injection Hrun as <-.
Qed.

Lemma colr_ufo_layer_order (ufo0 : Font.t) (v : Z) (colors : list Color)
  (cg : ColorGlyph) (s : Font.t * GlyphsByKey * list (string * ColrPaint))
  (layer : PaintedLayer)
  (s' : Font.t * GlyphsByKey * list (string * ColrPaint)) :
  order_ok s.1.1 /\ order_extends ufo0 s.1.1 ->
  _colr_ufo_layer v colors cg s layer = Ok s' ->
  order_ok s'.1.1 /\ order_extends ufo0 s'.1.1.
Proof.
  destruct s as [[ufo glyphs] acc]. intros [Hok Hext] Hrun.
  unfold _colr_ufo_layer in Hrun.
  destruct (glyph_for_layer ufo glyphs cg layer) as [[[ufo1 glyphs1] g]|e]
    eqn:E; [|done].
  rewrite bind_Ok_l in Hrun.
  destruct (glyph_for_layer_order _ _ _ _ _ _ _ Hok E) as [Hok1 Hext1].
  destruct (_colr_paint v (paint layer) colors) as [p|e]; [|done].
  rewrite bind_Ok_l in Hrun. injection Hrun as <-. simpl.
  split; [done | by eapply order_extends_trans].
Qed.

Lemma colr_ufo_glyph_order (ufo0 : Font.t) (v : Z) (colors : list Color)
  (s : Font.t * GlyphsByKey * ColorLayers) (cg : ColorGlyph)
  (s' : Font.t * GlyphsByKey * ColorLayers) :
  order_ok s.1.1 /\ order_extends ufo0 s.1.1 ->
  _colr_ufo_glyph v colors s cg = Ok s' ->
  order_ok s'.1.1 /\ order_extends ufo0 s'.1.1.
Proof.
  destruct s as [[ufo glyphs] cl]. intros [Hok Hext] Hrun.
  simpl in Hok, Hext. unfold _colr_ufo_glyph in Hrun.
  destruct (foldM _ (ufo, glyphs, []) (as_painted_layers cg))
    as [[[ufo1 glyphs1] acc]|e] eqn:E; [|done].
  rewrite bind_Ok_l in Hrun.
  pose proof (foldM_invariant
                (fun s : Font.t * GlyphsByKey * list (string * ColrPaint) =>
                   order_ok s.1.1 /\ order_extends ufo0 s.1.1)
                _ _ (ufo, glyphs, []) _
                (colr_ufo_layer_order ufo0 v colors cg) (conj Hok Hext) E)
    as [Hok1 Hext1].
  simpl in Hok1, Hext1.
  destruct (Font.get ufo1 (glyph_name_ cg)) as [g|]; [|done].
  injection Hrun as <-. simpl. unfold _draw_glyph_extents.
  split; [by apply order_ok_update | by apply order_extends_update].
Qed.

(** X17: the glyf encoder and the COLR encoder keep the glyph order of the
    font sound: when it lists no name twice and only names of glyphs, so it
    does in the font they return; they only add names at its end, and no
    name loses its glyph. *)
Theorem encoders_keep_glyph_order (ufo : Font.t)
  (color_glyphs : list ColorGlyph) (ufo' : Font.t) :
  order_ok ufo ->
  _glyf_ufo ufo color_glyphs = Ok ufo'
  \/ (exists v, _colr_ufo v ufo color_glyphs = Ok ufo') ->
  order_ok ufo' /\ order_extends ufo ufo'.
Proof.
  intros Hok [Hrun | [v Hrun]].
  - unfold _glyf_ufo, _glyf_ufo_run in Hrun.
    destruct (foldM _glyf_ufo_glyph (ufo, ∅) color_glyphs)
      as [[ufo1 glyphs1]|e] eqn:E; [|done].
    rewrite bind_Ok_l in Hrun. injection Hrun as <-.
    apply (foldM_invariant
             (fun s : Font.t * GlyphsByKey =>
                order_ok s.1 /\ order_extends ufo s.1)
             _ _ (ufo, ∅) _ (glyf_ufo_glyph_order ufo)
             (conj Hok (order_extends_refl _)) E).
  - unfold _colr_ufo, _colr_ufo_run, _colr_ufo_with in Hrun.
    set (colors := _colr_ufo_colors v color_glyphs) in *.
    destruct (foldM (_colr_ufo_glyph v colors) _ color_glyphs)
      as [[[ufo1 glyphs1] cl]|e] eqn:E; [|done].
    rewrite !bind_Ok_l in Hrun. injection Hrun as <-.
    assert (order_ok (Font.set_colorPalettes [to_ufo_color <$> colors] ufo)
            /\ order_extends ufo
                 (Font.set_colorPalettes [to_ufo_color <$> colors] ufo))
      as Hinv by (split; [exact Hok | exact (order_extends_refl ufo)]).
    pose proof (foldM_invariant
                  (fun s : Font.t * GlyphsByKey * ColorLayers =>
                     order_ok s.1.1 /\ order_extends ufo s.1.1)
                  _ _ (_, ∅, ∅) _ (colr_ufo_glyph_order ufo v colors) Hinv E)
      as [Hok1 Hext1].
    split; [exact Hok1 | exact Hext1].
Qed.

(** The sample font and the sample glyphs, through the glyf encoder. *)
Lemma encoders_keep_glyph_order_witness :
  exists ufo',
    _glyf_ufo sample_font sample_glyphs = Ok ufo'
    /\ order_ok ufo' /\ order_extends sample_font ufo'.
Proof.
  destruct (is_Ok_inv (_glyf_ufo sample_font sample_glyphs)) as [ufo' Hrun];
    [by vm_compute|].
  exists ufo'. split; [exact Hrun|].
  apply (encoders_keep_glyph_order sample_font sample_glyphs ufo').
  - split.
    + apply (bool_decide_unpack _). vm_compute. exact I.
    + apply (proj1 (Forall_forall _ _)).
      apply (bool_decide_unpack _). vm_compute. exact I.
  - left. exact Hrun.
Defined.

(** X18: [_ufo] never fails.  Its font has the family name, the units per
    em and the flag it is given, and two glyphs, in this order: [.notdef],
    blank and of no width, and [.space], blank, as wide as the em and
    mapped from U+0020.  The glyph order is sound and every glyph bears the
    name it is filed under, which is what the encoders start from. *)
Theorem ufo_starts_with_notdef_and_space (family : string) (upem : Z)
  (keep_glyph_names : bool) :
  exists ufo,
    _ufo family upem keep_glyph_names = Ok ufo
    /\ Font.familyName ufo = family /\ Font.unitsPerEm ufo = upem
    /\ Font.keepGlyphNames ufo = keep_glyph_names
    /\ Font.glyphOrder ufo = [".notdef"; ".space"]
    /\ Font.glyphs ufo !! ".notdef" = Some 0
    /\ Font.glyphs ufo !! ".space" = Some 1
    /\ (forall n, n <> ".notdef" -> n <> ".space" ->
          Font.glyphs ufo !! n = None)
    /\ Font.objects ufo
       = [Glyph.mk ".notdef" 0 [] [] []; Glyph.mk ".space" upem [32%Z] [] []]
    /\ order_ok ufo /\ well_named ufo.
Proof.
  exists (Font.mk family upem
            [Glyph.mk ".notdef" 0 [] [] []; Glyph.mk ".space" upem [32%Z] [] []]
            (<[".space" := 1]> (<[".notdef" := 0]> ∅))
            [".notdef"; ".space"] keep_glyph_names None None "").
  split; [reflexivity|]. simpl.
  do 4 (split; [done|]). split; [done|]. split; [done|].
  split.
  { intros n H1 H2. by rewrite !lookup_insert_ne. }
  split; [done|]. split.
  - split; simpl.
    + apply (bool_decide_unpack _). vm_compute. exact I.
    + intros n Hn. apply elem_of_cons in Hn as [-> | Hn]; [by eexists|].
      apply list_elem_of_singleton in Hn as ->. by eexists.
  - intros n a Hn. simpl in Hn.
    apply lookup_insert_Some in Hn as [[<- <-] | [_ Hn]].
    { split; [simpl; lia | done]. }
    apply lookup_insert_Some in Hn as [[<- <-] | [_ Hn]].
    { split; [simpl; lia | done]. }
    by rewrite lookup_empty in Hn.
Qed.


(* ===================================================================== *)
(** * Properties: the SVG table as a whole *)
(* ===================================================================== *)

(** The dict [{c.glyph_name: c for c in color_glyphs}], on top of [m]. *)
Lemma by_glyph_name_fold (l : list ColorGlyph) :
  forall m : gmap string ColorGlyph,
  let m' := fold_left (fun m c => <[glyph_name_ c := c]> m) l m in
  (forall n, n ∉ glyph_name_ <$> l -> m' !! n = m !! n)
  /\ (NoDup (glyph_name_ <$> l) ->
      forall c, c ∈ l -> m' !! glyph_name_ c = Some c)
  /\ (NoDup (glyph_name_ <$> l) ->
      (forall c, c ∈ l -> m !! glyph_name_ c = None) ->
      size m' = size m + length l).
Proof.
  induction l as [|c l IH]; intros m; simpl.
  - split; [done|]. split; [|intros; lia].
    intros _ c Hc. by apply elem_of_nil in Hc.
  - destruct (IH (<[glyph_name_ c := c]> m)) as (Hout & Hin & Hsize).
    split; [|split].
    + intros n Hn. apply not_elem_of_cons in Hn as [Hne Hn].
      rewrite (Hout n Hn). by rewrite lookup_insert_ne.
    + intros Hnd c' Hc'. apply NoDup_cons in Hnd as [Hfresh Hnd].
      apply elem_of_cons in Hc' as [-> | Hc']; [|by apply Hin].
      rewrite (Hout _ Hfresh). apply lookup_insert_eq.
    + intros Hnd Hnew. apply NoDup_cons in Hnd as [Hfresh Hnd].
      rewrite Hsize; [|done|].
      * rewrite map_size_insert_None by (apply Hnew; left). lia.
      * intros c' Hc'. rewrite lookup_insert_ne.
        -- apply Hnew. by right.
        -- intros E. apply Hfresh. rewrite E.
           apply list_elem_of_fmap. eauto.
Qed.

Lemma by_glyph_name_spec (color_glyphs : list ColorGlyph) :
  NoDup (glyph_name_ <$> color_glyphs) ->
  (forall c, c ∈ color_glyphs ->
     by_glyph_name color_glyphs !! glyph_name_ c = Some c)
  /\ (forall n, n ∉ glyph_name_ <$> color_glyphs ->
        by_glyph_name color_glyphs !! n = None)
  /\ size (by_glyph_name color_glyphs) = length color_glyphs.
Proof.
  intros Hnd. unfold by_glyph_name.
  destruct (by_glyph_name_fold color_glyphs ∅) as (Hout & Hin & Hsize).
  split; [by apply Hin|]. split.
  - intros n Hn. by rewrite (Hout n Hn).
  - rewrite Hsize; [by rewrite map_size_empty | done | done].
Qed.

(** The loop of [_svg_ttfont] over the groups [todo], the last of the groups
    [groups], when the ids of the members of the groups follow one another
    from [base]. *)
Lemma svg_ttfont_groups_spec (to_element : SVGPath -> Element)
  (ntos : Z -> string) (etree_tostring : Element -> string)
  (svg_tostring : SVG -> string) (cgs : gmap string ColorGlyph)
  (groups : list (list string)) (base : nat) (todo : list (list string)) :
  forall before docs iu,
  groups = before ++ todo ->
  Forall (fun group => group <> []) todo ->
  (forall l group m n, groups !! l = Some group -> group !! m = Some n ->
     exists c, cgs !! n = Some c /\ svg_encodable c
               /\ glyph_id c = base + length (concat (take l groups)) + m) ->
  exists docs' iu',
    foldM (_svg_ttfont_group to_element ntos etree_tostring svg_tostring cgs)
      (docs, iu) todo = Ok (docs ++ docs', iu')
    /\ length docs' = length todo
    /\ forall l group, todo !! l = Some group ->
         exists xml,
           docs' !! l
           = Some (xml,
                   base + length (concat (take (length before + l) groups)),
                   base + length (concat (take (length before + l) groups))
                   + length group - 1).
Proof.
  induction todo as [|group todo IH]; intros before docs iu Hg Hne Hids.
  - exists [], iu. rewrite app_nil_r. split; [done|]. split; [done|].
    intros l group Hl. done.
  - apply Forall_cons in Hne as [Hgne Hne].
    assert (groups !! length before = Some group) as Hpos.
    { rewrite Hg. by apply list_lookup_middle. }
    set (start := base + length (concat (take (length before) groups))).
    destruct (svg_ttfont_group_spec to_element ntos etree_tostring
                svg_tostring cgs docs iu group) as [Hok _].
    destruct Hok as (xml & lo & hi & iu1 & Hrun & _ & _ & _ & Hseq);
      [done| |].
    { intros g Hg'. apply list_elem_of_lookup in Hg' as [m Hm].
      destruct (Hids _ _ _ _ Hpos Hm) as (c & Hc & Henc & _). eauto. }
    destruct (Hseq start) as [-> ->].
    { intros m g Hm. destruct (Hids _ _ _ _ Hpos Hm) as (c & Hc & _ & Hid).
      eauto. }
    rewrite foldM_cons, Hrun, bind_Ok_l.
    destruct (IH (before ++ [group]) (docs ++ [(xml, start,
                                                start + length group - 1)])
                iu1) as (docs' & iu' & Hrun' & Hlen & Hdocs).
    { by rewrite <- app_assoc. }
    { done. }
    { done. }
    exists ((xml, start, start + length group - 1) :: docs'), iu'.
    split; [rewrite Hrun'; by rewrite <- app_assoc|].
    split; [simpl; lia|].
    intros l group' Hl. destruct l as [|l]; simpl in Hl.
    + injection Hl as <-. exists xml. simpl. rewrite Nat.add_0_r. done.
    + destruct (Hdocs l group' Hl) as (xml' & Hd). exists xml'. simpl.
      rewrite Hd. rewrite length_app. simpl.
      replace (length before + 1 + l) with (length before + S l) by lia.
      done.
Qed.














(** [_svg_ttfont] for groups that are non-empty and hold every glyph name
    once: the glyph order lists the groups one after the other, every
    member has the glyph id of its position, and every group has a document
    with the range of its positions. *)
Lemma svg_ttfont_ranges_spec
  (to_element : SVGPath -> Element) (ntos : Z -> string)
  (etree_tostring : Element -> string) (svg_tostring : SVG -> string)
  (color_glyphs : list ColorGlyph) (ttfont : TTFont) (zip : bool)
  (prefix : list string) :
  let names := glyph_name_ <$> color_glyphs in
  let groups := _svg_glyph_groups color_glyphs in
  color_glyphs <> [] -> NoDup names ->
  getGlyphOrder ttfont = prefix ++ names ->
  Forall svg_encodable color_glyphs ->
  concat groups ≡ₚ names -> Forall (fun group => group <> []) groups ->
  exists ttfont' color_glyphs' docs,
    _svg_ttfont_run to_element ntos etree_tostring svg_tostring color_glyphs
      ttfont zip = Ok (ttfont', color_glyphs')
    /\ getGlyphOrder ttfont' = prefix ++ concat groups
    /\ svgTable ttfont' = Some (mkSVGTable zip docs)
    /\ length docs = length groups
    /\ (forall l group, groups !! l = Some group ->
          exists xml,
            docs !! l
            = Some (xml,
                    length prefix + length (concat (take l groups)),
                    length prefix + length (concat (take l groups))
                    + length group - 1))
    /\ (forall l group m n,
          groups !! l = Some group -> group !! m = Some n ->
          exists c,
            c ∈ color_glyphs /\ glyph_name_ c = n
            /\ color_glyphs' !! n
               = Some (replace_glyph_id c
                         (length prefix + length (concat (take l groups))
                          + m))
            /\ getGlyphOrder ttfont'
                 !! (length prefix + length (concat (take l groups)) + m)
               = Some n)
    /\ (forall c, c ∈ color_glyphs ->
          exists gid,
            color_glyphs' !! glyph_name_ c = Some (replace_glyph_id c gid)
            /\ getGlyphOrder ttfont' !! gid = Some (glyph_name_ c)).
Proof.
  intros names groups Hne Hnd Horder Henc Hperm Hgne.
  destruct (by_glyph_name_spec color_glyphs Hnd) as (Hin & Hout & Hsize).
  set (dict := by_glyph_name color_glyphs) in *.
  assert (forall n c, dict !! n = Some c -> c ∈ color_glyphs /\ glyph_name_ c = n)
    as Hdict.
  { intros n c Hn. destruct (decide (n ∈ names)) as [Hmem|Hmem].
    - apply list_elem_of_fmap in Hmem as (c0 & -> & Hc0).
      rewrite (Hin c0 Hc0) in Hn. by injection Hn as <-.
    - rewrite (Hout n Hmem) in Hn. done. }
  assert (slice_to_neg (getGlyphOrder ttfont) (size dict) = prefix) as Hkept.
  { rewrite Hsize, Horder. unfold slice_to_neg.
    destruct color_glyphs as [|c0 cs]; [done|]. simpl length.
    rewrite length_app. unfold names. rewrite length_fmap. simpl length.
    replace (length prefix + S (length cs) - S (length cs))
      with (length prefix) by lia.
    by rewrite take_app_length. }
  assert (NoDup (concat groups)) as Hgnd by (by rewrite Hperm).
  destruct (svg_update_names_spec (concat groups) dict (length prefix))
    as (cgs' & Hrun & Hdom & Hkeep & Hids).
  { intros n Hn. rewrite Hperm in Hn.
    apply list_elem_of_fmap in Hn as (c & -> & Hc). rewrite (Hin c Hc). eauto. }
  specialize (Hids Hgnd).
  destruct (svg_ttfont_groups_spec to_element ntos etree_tostring svg_tostring
              cgs' groups (length prefix) groups [] [] ∅)
    as (docs & iu' & Hdocs & Hlen & Hranges); [done|done| |].
  { intros l group m n Hl Hm.
    pose proof (lookup_concat_group groups l group m n Hl Hm) as Hpos.
    destruct (Hids _ _ Hpos) as (c & Hc & Hc').
    exists (replace_glyph_id c
              (length prefix + (length (concat (take l groups)) + m))).
    split; [done|]. split; [|simpl; lia].
    destruct (Hdict _ _ Hc) as [Hmem _].
    eapply Forall_forall in Henc; [|exact Hmem]. exact Henc. }
  exists (set_svgTable (setGlyphOrder ttfont (prefix ++ concat groups))
            (mkSVGTable zip docs)), cgs', docs.
  split.
  { unfold _svg_ttfont_run. fold groups. fold dict.
    unfold _svg_update_glyph_order. rewrite svg_update_groups_flat.
    rewrite Hkept, Hrun, !bind_Ok_l. rewrite Hdocs. done. }
  split; [done|]. split; [done|]. split; [done|].
  split.
  { intros l group Hl. destruct (Hranges l group Hl) as (xml & Hd).
    exists xml. exact Hd. }
  split.
  { intros l group m n Hl Hm.
    pose proof (lookup_concat_group groups l group m n Hl Hm) as Hpos.
    destruct (Hids _ _ Hpos) as (c & Hc & Hc').
    destruct (Hdict _ _ Hc) as [Hmem Hname].
    exists c. split; [done|]. split; [done|].
    split; [by rewrite <- Nat.add_assoc|].
    simpl. rewrite <- Nat.add_assoc. rewrite lookup_app_r by lia.
    replace (length prefix + (length (concat (take l groups)) + m)
             - length prefix)
      with (length (concat (take l groups)) + m) by lia.
    done. }
  intros c Hc.
  assert (glyph_name_ c ∈ concat groups) as Hmem.
  { rewrite Hperm. apply list_elem_of_fmap. eauto. }
  apply list_elem_of_lookup in Hmem as [j Hj].
  destruct (Hids _ _ Hj) as (c0 & Hc0 & Hc').
  rewrite (Hin c Hc) in Hc0. injection Hc0 as <-.
  exists (length prefix + j). split; [done|].
  simpl. rewrite lookup_app_r by lia.
  replace (length prefix + j - length prefix) with j by lia. done.
Qed.

(** X19: [_svg_ttfont], for a non-empty list of color glyphs with distinct
    names that stand at the end of the glyph order of the font, all with
    ids on their gradients and with reuses that only move, and given that
    the groups [_svg_glyph_groups] returns are non-empty and hold every
    glyph name once: the call returns; the glyph order keeps its first
    names and lists the groups one after the other in place of the rest;
    the SVG table holds one document for each group, with the range from
    the position of the first member of the group in the new order to that
    of its last; and every color glyph of the dict has the glyph id that is
    its position in the new order. *)
Theorem svg_ttfont_gives_each_group_a_range
  (to_element : SVGPath -> Element) (ntos : Z -> string)
  (etree_tostring : Element -> string) (svg_tostring : SVG -> string)
  (color_glyphs : list ColorGlyph) (ttfont : TTFont) (zip : bool)
  (prefix : list string) :
  let names := glyph_name_ <$> color_glyphs in
  let groups := _svg_glyph_groups color_glyphs in
  color_glyphs <> [] -> NoDup names ->
  getGlyphOrder ttfont = prefix ++ names ->
  Forall svg_encodable color_glyphs ->
  concat groups ≡ₚ names -> Forall (fun group => group <> []) groups ->
  exists ttfont' color_glyphs' docs,
    _svg_ttfont_run to_element ntos etree_tostring svg_tostring color_glyphs
      ttfont zip = Ok (ttfont', color_glyphs')
    /\ getGlyphOrder ttfont' = prefix ++ concat groups
    /\ svgTable ttfont' = Some (mkSVGTable zip docs)
    /\ length docs = length groups
    /\ (forall l group, groups !! l = Some group ->
          exists xml,
            docs !! l
            = Some (xml,
                    length prefix + length (concat (take l groups)),
                    length prefix + length (concat (take l groups))
                    + length group - 1))
    /\ (forall c, c ∈ color_glyphs ->
          exists gid,
            color_glyphs' !! glyph_name_ c = Some (replace_glyph_id c gid)
            /\ getGlyphOrder ttfont' !! gid = Some (glyph_name_ c)).
Proof.
  intros names groups Hne Hnd Horder Henc Hperm Hgne.
  destruct (svg_ttfont_ranges_spec to_element ntos etree_tostring svg_tostring
              color_glyphs ttfont zip prefix Hne Hnd Horder Henc Hperm Hgne)
    as (ttfont' & cgs' & docs & Hrun & Hord & Htable & Hlen & Hranges & _
        & Hids).
  exists ttfont', cgs', docs.
  split; [exact Hrun|]. split; [exact Hord|]. split; [exact Htable|].
  split; [exact Hlen|]. split; [exact Hranges | exact Hids].
Qed.

(** The three sample glyphs share shapes and make one group, written after
    the two glyphs the font starts with: one document for the glyph ids 2
    to 4. *)
Lemma svg_ttfont_gives_each_group_a_range_witness :
  exists ttfont' color_glyphs' docs xml,
    _svg_ttfont_run sample_to_element pretty tag (fun _ => "<svg/>")
      sample_glyphs sample_ttfont false = Ok (ttfont', color_glyphs')
    /\ svgTable ttfont' = Some (mkSVGTable false docs)
    /\ docs !! 0 = Some (xml, 2, 4).
Proof.
  destruct (svg_ttfont_gives_each_group_a_range sample_to_element pretty tag
              (fun _ => "<svg/>") sample_glyphs sample_ttfont false
              [".notdef"; ".space"])
    as (ttfont' & cgs' & docs & Hrun & _ & Htable & _ & Hranges & _).
  - discriminate.
  - apply (bool_decide_unpack _). vm_compute. exact I.
  - reflexivity.
  - repeat constructor; by eexists.
  - apply (bool_decide_unpack _). vm_compute. exact I.
  - apply (bool_decide_unpack _). vm_compute. exact I.
  - destruct (Hranges 0 ["emoji_1f600"; "emoji_1f601"; "emoji_1f602"])
      as (xml & Hd); [by vm_compute|].
    exists ttfont', cgs', docs, xml.
    split; [exact Hrun|]. split; [exact Htable | exact Hd].
Defined.




(* ===================================================================== *)
(** * Properties: blank glyphs whose name is taken *)
(* ===================================================================== *)

Lemma ensure_codepoints_blank_Some (glyph_name : Z -> string) (ufo : Font.t)
  (names : list string) (c : Z) :
  is_Some (Font.glyphs ufo !! glyph_name c) ->
  _ensure_codepoints_blank glyph_name (ufo, names) c
  = Raise (KeyError (glyph_name c)).
Proof.
  intros H. unfold _ensure_codepoints_blank, Font.newGlyph, Font.contains.
  by rewrite bool_decide_eq_true_2.
Qed.

Lemma ensure_codepoints_blank_None (glyph_name : Z -> string) (ufo : Font.t)
  (names : list string) (c : Z) :
  Font.glyphs ufo !! glyph_name c = None ->
  exists ufo' names',
    _ensure_codepoints_blank glyph_name (ufo, names) c = Ok (ufo', names')
    /\ Font.glyphs ufo'
       = <[glyph_name c := length (Font.objects ufo)]> (Font.glyphs ufo).
Proof.
  intros H. unfold _ensure_codepoints_blank. rewrite newGlyph_fresh by done.
  rewrite bind_Ok_l. eexists _, _. split; [reflexivity | done].
Qed.

(** The loop over the codepoints that need a blank, when a name is taken or
    two codepoints have one name. *)
Lemma ensure_codepoints_loop_raises (glyph_name : Z -> string)
  (l : list Z) : forall ufo names,
  (exists c, c ∈ l /\ is_Some (Font.glyphs ufo !! glyph_name c))
  \/ ~ NoDup (glyph_name <$> l) ->
  exists c',
    c' ∈ l
    /\ foldM (_ensure_codepoints_blank glyph_name) (ufo, names) l
       = Raise (KeyError (glyph_name c')).
Proof.
  induction l as [|c l IH]; intros ufo names Hcase.
  - destruct Hcase as [(c & Hc & _) | Hnd].
    + by apply elem_of_nil in Hc.
    + exfalso. apply Hnd. constructor.
  - rewrite foldM_cons.
    destruct (Font.glyphs ufo !! glyph_name c) as [a|] eqn:Hc.
    { exists c. split; [left|].
      rewrite ensure_codepoints_blank_Some by (rewrite Hc; eauto). done. }
    destruct (ensure_codepoints_blank_None glyph_name ufo names c Hc)
      as (ufo1 & names1 & -> & Hglyphs).
    rewrite bind_Ok_l.
    destruct (IH ufo1 names1) as (c' & Hc' & Hrun).
    { destruct Hcase as [(c0 & Hc0 & Htaken) | Hnd].
      - left. exists c0. apply elem_of_cons in Hc0 as [-> | Hc0].
        + rewrite Hc in Htaken. by destruct Htaken.
        + split; [done|]. rewrite Hglyphs.
          destruct (decide (glyph_name c0 = glyph_name c)) as [->|Hne].
          * rewrite lookup_insert_eq. eauto.
          * by rewrite lookup_insert_ne.
      - destruct (decide (glyph_name c ∈ glyph_name <$> l)) as [Hin|Hout].
        + left. apply list_elem_of_fmap in Hin as (c0 & E & Hc0).
          exists c0. split; [done|]. rewrite Hglyphs, <- E.
          rewrite lookup_insert_eq. eauto.
        + right. intros Hnd'. apply Hnd. rewrite fmap_cons.
          by apply NoDup_cons. }
    exists c'. split; [by right | done].
Qed.

(** X20: [_ensure_codepoints_will_have_glyphs] raises the [KeyError] of
    [newGlyph] when the font already has a glyph under the name of a
    codepoint that needs a blank, and when two codepoints that need a blank
    have one name: the error names the glyph of such a codepoint. *)
Theorem ensure_codepoints_raises_on_taken_name (glyph_name : Z -> string)
  (ufo : Font.t) (glyph_inputs : list InputGlyph) :
  (exists c, c ∈ need_blanks glyph_inputs
             /\ is_Some (Font.glyphs ufo !! glyph_name c))
  \/ (exists c1 c2, c1 ∈ need_blanks glyph_inputs
                    /\ c2 ∈ need_blanks glyph_inputs /\ c1 <> c2
                    /\ glyph_name c1 = glyph_name c2) ->
  exists c',
    c' ∈ need_blanks glyph_inputs
    /\ _ensure_codepoints_will_have_glyphs glyph_name ufo glyph_inputs
       = Raise (KeyError (glyph_name c')).
Proof.
  intros Hcase. unfold _ensure_codepoints_will_have_glyphs.
  destruct (ensure_codepoints_loop_raises glyph_name
              (elements (need_blanks glyph_inputs)) ufo [])
    as (c' & Hc' & ->).
  - destruct Hcase as [(c & Hc & Htaken) | (c1 & c2 & H1 & H2 & Hne & E)].
    + left. exists c. split; [by apply elem_of_elements | done].
    + right. intros Hnd.
      apply elem_of_elements in H1, H2.
      apply list_elem_of_lookup in H1 as [i Hi].
      apply list_elem_of_lookup in H2 as [j Hj].
      assert (i = j) as ->.
      { eapply NoDup_lookup; [exact Hnd | |].
        - rewrite list_lookup_fmap, Hi. reflexivity.
        - rewrite list_lookup_fmap, Hj. simpl. by rewrite E. }
      congruence.
  - exists c'. split; [by apply elem_of_elements | done].
Qed.

(** The batch of the spec, in a font that has a glyph named [emoji_200d]. *)
Lemma ensure_codepoints_raises_on_taken_name_witness :
  exists c',
    _ensure_codepoints_will_have_glyphs glyph_name_hex
      (with_glyphs sample_ufo ["emoji_200d"]) sample_inputs
    = Raise (KeyError (glyph_name_hex c')).
Proof.
  destruct (ensure_codepoints_raises_on_taken_name glyph_name_hex
              (with_glyphs sample_ufo ["emoji_200d"]) sample_inputs)
    as (c' & _ & Hrun).
  - left. exists 8205%Z. split.
    + apply (bool_decide_unpack _). vm_compute. exact I.
    + apply (bool_decide_unpack _). vm_compute. exact I.
  - exists c'. exact Hrun.
Defined.

